(** * Strava bridge: stream analysis, record store and historical matching

    A shallow embedding of the analysis core of the bridge:
    - [formatters.js]      : [safeNum], [secToPace], [msToKmh], [fmtKmh];
    - [stream-analysis.js] : [isPaceBased], [avgPaceSecPerKm], [avgSpeedKmh],
                             [pctDiff], [computeSplits1km], [pacingInsight];
    - [storage/store.js]   : [appendStore], [readStore], [pruneProcessed],
                             [markProcessed], [pickComparableLastWeek],
                             [compareCurrentVsPrev].

    Numbers.  Two readings of JavaScript numbers are used.  In the
    modules [Formatters], [StreamAnalysis] and [Store] a finite number is
    an exact rational ([Q]), the non-finite numbers and the other values a
    field can hold being the remaining constructors of [jsval]: sums,
    differences and quotients are exact there, which serves the properties
    that do not depend on rounding or are stated in exact arithmetic.  In
    the modules [StreamAnalysis64] and [Store64] a number is an IEEE 754
    binary64 value with the operations of [SpecFloat]: they hold the
    functions whose stored values or verdicts depend on rounding (the
    fields of a split, the pacing classifier, the distance filter of the
    matcher). *)

From Stdlib Require Import List ZArith QArith Qround Qabs Lqa Lia Bool.
From Stdlib Require Import String Ascii DecimalString DecimalPos DecimalN.
From Stdlib Require Import Sorted Permutation FinFun.
From Stdlib Require Import SpecFloat.
Import ListNotations.

Open Scope Q_scope.

(* ================================================================== *)
(** ** JavaScript values *)
(* ================================================================== *)

(** The values that occur in the JSON data handled by the bridge, together
    with the non-finite numbers that arithmetic can produce. *)
Inductive jsval : Type :=
| JUndefined
| JNull
| JNaN
| JInfinity (negative : bool)
| JNumber (x : Q)
| JString (s : string).

(** [typeof v === "number"] *)
Definition typeof_number (v : jsval) : bool :=
  match v with
  | JNaN | JInfinity _ | JNumber _ => true
  | _ => false
  end.

(** [Number.isFinite(v)]: no coercion, true on finite numbers only. *)
Definition Number_isFinite (v : jsval) : bool :=
  match v with
  | JNumber _ => true
  | _ => false
  end.

(** [v == null] / [v != null]: loose equality with [null] holds for [null]
    and [undefined] only. *)
Definition is_nullish (v : jsval) : bool :=
  match v with
  | JUndefined | JNull => true
  | _ => false
  end.

(** [a ?? b] *)
Definition nullish_or (a b : jsval) : jsval :=
  if is_nullish a then b else a.

Definition Qlt_bool (x y : Q) : bool := negb (Qle_bool y x).

(** [Math.round]: the nearest integer, ties towards +Infinity. *)
Definition Math_round (x : Q) : Z := Qfloor (x + (1 # 2)).

(** [Math.floor] *)
Definition Math_floor (x : Q) : Z := Qfloor x.

Definition Qmax (x y : Q) : Q := if Qle_bool x y then y else x.

(** [Math.max(...xs)] on a non-empty array [x :: xs]. *)
Definition Math_max (x : Q) (xs : list Q) : Q := fold_left Qmax xs x.

(** [xs.reduce((a, b) => a + b, 0)] *)
Definition sumQ (xs : list Q) : Q := fold_left Qplus xs 0.

(** [arr.slice(from, to)] with [0 <= from], [0 <= to]. *)
Definition slice {A : Type} (from to : nat) (arr : list A) : list A :=
  firstn (to - from) (skipn from arr).

(** [arr.slice(from)] *)
Definition slice_from {A : Type} (from : nat) (arr : list A) : list A :=
  skipn from arr.

(** The finite numbers of an array, [arr.filter(Number.isFinite)]. *)
Fixpoint finite_values (arr : list jsval) : list Q :=
  match arr with
  | [] => []
  | JNumber x :: rest => x :: finite_values rest
  | _ :: rest => finite_values rest
  end.

(** Decimal rendering of a non-negative integer, [String(n)]. *)
Definition String_of_Z (n : Z) : string :=
  NilZero.string_of_uint (N.to_uint (Z.to_N n)).

(** [s.padStart(2, "0")] *)
Definition padStart2 (s : string) : string :=
  match String.length s with
  | O => "00"
  | S O => String "0" s
  | _ => s
  end.

(* ================================================================== *)
(** ** formatters.js *)
(* ================================================================== *)

Module Formatters.

(** [safeNum(x)]: the finite number, or [null]. *)
Definition safeNum (x : jsval) : option Q :=
  match x with
  | JNumber q => Some q
  | _ => None
  end.

(** [secToPace(secPerKm)]; the argument [None] stands for a non-finite
    number (the caller passes [NaN] for a missing pace). *)
Definition secToPace (secPerKm : option Q) : string :=
  match secPerKm with
  | None => "n/d"
  | Some x =>
      if Qle_bool x 0 then "n/d"
      else
        let m := Math_floor (x / 60) in
        let s := Math_round (x - inject_Z (60 * Math_floor (x / 60))) in
        String_of_Z m ++ ":" ++ padStart2 (String_of_Z s) ++ "/km"
  end.

(** [msToKmh(ms)] on a finite number. *)
Definition msToKmh (ms : Q) : Q := ms * (36 # 10).

(** [fmtKmh(kmh)] on a finite, non-negative number: [toFixed(1)] picks the
    integer [n] with [n / 10] closest to the value, the larger on a tie. *)
Definition fmtKmh (kmh : Q) : string :=
  let n := Qfloor (kmh * 10 + (1 # 2)) in
  String_of_Z (n / 10) ++ "." ++ String_of_Z (n mod 10) ++ " km/h".

End Formatters.

(* ================================================================== *)
(** ** stream-analysis.js *)
(* ================================================================== *)

Module StreamAnalysis.
Import Formatters.

(** ASCII lower-casing, [s.toLowerCase()]. *)
Definition lower_ascii (c : ascii) : ascii :=
  let n := nat_of_ascii c in
  if (andb (65 <=? n) (n <=? 90))%nat then ascii_of_nat (n + 32) else c.

Fixpoint toLowerCase (s : string) : string :=
  match s with
  | EmptyString => EmptyString
  | String c rest => String (lower_ascii c) (toLowerCase rest)
  end.

(** [s.includes(needle)] *)
Fixpoint includes (needle s : string) : bool :=
  if String.prefix needle s then true
  else match s with
       | EmptyString => false
       | String _ rest => includes needle rest
       end.

(** [String(x || "")] for a field that is a string or absent. *)
Definition string_or_empty (x : option string) : string :=
  match x with
  | Some s => s
  | None => EmptyString
  end.

Definition isPaceBased (activityType sportType : option string) : bool :=
  let t := toLowerCase (string_or_empty activityType) in
  let s := toLowerCase (string_or_empty sportType) in
  includes "run" t || includes "walk" t || includes "hike" t ||
  includes "run" s || includes "walk" s || includes "hike" s.


Definition avgPaceSecPerKm (distance_m moving_time_s : jsval) : option Q :=
  let dKm := match safeNum distance_m with
             | Some d => Some (d / 1000)
             | None => None
             end in
  let t := safeNum moving_time_s in
  match dKm, t with
  | Some dKm, Some t =>
      (* [!dKm || !t || dKm <= 0 || t <= 0] *)
      if Qeq_bool dKm 0 || Qeq_bool t 0 || Qle_bool dKm 0 || Qle_bool t 0
      then None
      else Some (t / dKm)
  | _, _ => None
  end.

Definition avgSpeedKmh (distance_m moving_time_s : jsval) : option Q :=
  match safeNum distance_m, safeNum moving_time_s with
  | Some d, Some t =>
      if Qeq_bool d 0 || Qeq_bool t 0 || Qle_bool d 0 || Qle_bool t 0
      then None
      else Some (msToKmh (d / t))
  | _, _ => None
  end.

(** [pctDiff(a, b)], the quotient taken exactly; [None] is a non-finite
    argument. *)
Definition pctDiff (a b : option Q) : option Q :=
  match a, b with
  | Some a, Some b => if Qeq_bool b 0 then None else Some ((a - b) / b)
  | _, _ => None
  end.

Inductive Mode : Type := Pace | Speed.

Record Split : Type := mkSplit {
  km : nat;
  mode : Mode;
  meters : Q;
  seconds : Q;
  secPerKm : jsval;
  speedKmh : option Q;
  label : string;
  hrAvg : option Q;
  hrMax : option Q;
  powerAvg : option Q
}.

(** The sample streams: each field is [streams?.name?.data], [None] when
    the stream or its data is missing.  Distance and time samples are
    numbers; heart-rate and power samples may hold gaps. *)
Record Streams : Type := mkStreams {
  distance : option (list Q);
  time : option (list Q);
  heartrate : option (list jsval);
  watts : option (list jsval)
}.

(** [arr[i]] for an index inside the array. *)
Definition at_index (arr : list Q) (i : nat) : Q := nth i arr 0.

(** Rounded mean and maximum of the finite samples of
    [arr.slice(startIdx, i + 1)], used only when the stream is present and
    as long as the distance stream. *)
Definition segStats (arr : option (list jsval)) (len startIdx i : nat)
  : option Q * option Q :=
  match arr with
  | Some a =>
      if (List.length a =? len)%nat then
        match finite_values (slice startIdx (i + 1) a) with
        | [] => (None, None)
        | x :: xs =>
            (Some (inject_Z (Math_round
               (sumQ (x :: xs) / inject_Z (Z.of_nat (List.length (x :: xs)))))),
             Some (Math_max x xs))
        end
      else (None, None)
  | None => (None, None)
  end.

(** The body of the [if (dist[i] >= nextKm)] branch: the split closed at
    sample [i], opened at sample [startIdx]; differences and quotients are
    exact here and rounded in [StreamAnalysis64]. *)
Definition closeSplit (dist time : list Q) (hr watts : option (list jsval))
  (mode : Mode) (count startIdx i : nat) : Split :=
  let meters := at_index dist i - at_index dist startIdx in
  let seconds := at_index time i - at_index time startIdx in
  let moving := Qlt_bool 0 meters && Qlt_bool 0 seconds in
  let speedMs := if moving then Some (meters / seconds) else None in
  let speedKmh := option_map msToKmh speedMs in
  let secPerKm := if moving then Some (seconds / (meters / 1000)) else None in
  let hrS := segStats hr (List.length dist) startIdx i in
  let pS := segStats watts (List.length dist) startIdx i in
  let label :=
    match mode with
    | Pace => secToPace secPerKm
    | Speed => match speedKmh with
               | Some v => fmtKmh v
               | None => "n/d"%string
               end
    end in
  {| km := count + 1;
     mode := mode;
     meters := meters;
     seconds := seconds;
     secPerKm := match secPerKm with Some v => JNumber v | None => JNull end;
     speedKmh := speedKmh;
     label := label;
     hrAvg := fst hrS;
     hrMax := snd hrS;
     powerAvg := fst pS |}.

(** The loop variables of [computeSplits1km]. *)
Record LoopState : Type := mkLoop {
  nextKm : Q;
  startIdx : nat;
  splits : list Split
}.

Definition loopInit : LoopState :=
  {| nextKm := 1000; startIdx := 0%nat; splits := [] |}.

(** One iteration of the [for] loop, at sample [i]. *)
Definition loopStep (dist time : list Q) (hr watts : option (list jsval))
  (mode : Mode) (st : LoopState) (i : nat) : LoopState :=
  if Qle_bool (nextKm st) (at_index dist i) then
    {| nextKm := nextKm st + 1000;
       startIdx := i;
       splits := splits st ++
                 [closeSplit dist time hr watts mode
                    (List.length (splits st)) (startIdx st) i] |}
  else st.

(** The loop state after the iterations [i = 0 .. n-1]. *)
Definition loopRun (dist time : list Q) (hr watts : option (list jsval))
  (mode : Mode) (n : nat) : LoopState :=
  fold_left (loopStep dist time hr watts mode) (seq 0 n) loopInit.

(** [computeSplits1km(streams, mode)]; [None] is a null or undefined
    [streams]. *)
Definition computeSplits1km (streams : option Streams) (mode : Mode)
  : list Split :=
  match streams with
  | None => []
  | Some s =>
      match distance s, time s with
      | Some dist, Some time =>
          if (List.length dist =? List.length time)%nat then
            splits (loopRun dist time (heartrate s) (watts s) mode
                      (List.length dist))
          else []
      | _, _ => []
      end
  end.

Inductive Insight : Type := Stable | NegativeSplit | Fade.

(** The text returned for each classification. *)
Definition insight_text (v : Insight) : string :=
  match v with
  | Stable => "Pacing estável"
  | NegativeSplit => "Negative split ✅"
  | Fade => "Fade ⚠️ (ritmo caiu)"
  end.

(** [typeof s.secPerKm === "number" && Number.isFinite(s.secPerKm)] *)
Definition validPace (s : Split) : bool :=
  typeof_number (secPerKm s) && Number_isFinite (secPerKm s).

(** The number read by [b.secPerKm] on a split kept by [validPace]. *)
Definition paceOf (s : Split) : Q :=
  match secPerKm s with
  | JNumber x => x
  | _ => 0
  end.

(** [avg(arr)]: [arr.reduce((a, b) => a + b.secPerKm, 0) / arr.length] *)
Definition avgPace (arr : list Split) : Q :=
  fold_left (fun a b => a + paceOf b) arr 0
  / inject_Z (Z.of_nat (List.length arr)).

(** [pacingInsight(splits)] with exact means; [StreamAnalysis64] has the
    function on binary64 numbers. *)
Definition pacingInsight (splits : list Split) : option Insight :=
  if (List.length splits <? 4)%nat then None
  else
    let valid := filter validPace splits in
    if (List.length valid <? 4)%nat then None
    else
      let mid := (List.length valid / 2)%nat in
      let first := avgPace (slice 0 mid valid) in
      let second := avgPace (slice_from mid valid) in
      let diff := second - first in
      if Qlt_bool (Qabs diff) 5 then Some Stable
      else if Qlt_bool diff 0 then Some NegativeSplit
      else Some Fade.

End StreamAnalysis.

(* ================================================================== *)
(** ** [Array.prototype.sort] *)
(* ================================================================== *)

(** [arr.sort(cmp)] is a stable sort: [a] is placed before [b] when
    [cmp(a, b) < 0], after it when [cmp(a, b) > 0], and elements that
    compare equal keep their order.  A stable insertion sort has the same
    result for a consistent comparator. *)
Section ArraySort.
Context {A : Type}.
Variable cmp : A -> A -> Z.

Fixpoint sort_insert (x : A) (l : list A) : list A :=
  match l with
  | [] => [x]
  | y :: l' => if (cmp x y <=? 0)%Z then x :: l else y :: sort_insert x l'
  end.

Fixpoint Array_sort (l : list A) : list A :=
  match l with
  | [] => []
  | x :: l' => sort_insert x (Array_sort l')
  end.
End ArraySort.

(** [s.split(sep)] for a one-character separator: the pieces between the
    separators, empty pieces included. *)
Fixpoint String_split (sep : ascii) (s : string) : list string :=
  match s with
  | EmptyString => [EmptyString]
  | String c rest =>
      if Ascii.eqb c sep then EmptyString :: String_split sep rest
      else match String_split sep rest with
           | piece :: pieces => String c piece :: pieces
           | [] => [String c EmptyString]
           end
  end.

(** The line feed, ["\n"]. *)
Definition LF : ascii := ascii_of_nat 10.

(** [Boolean(s)] on a string: false on the empty string only. *)
Definition nonempty (s : string) : bool :=
  match s with
  | EmptyString => false
  | _ => true
  end.

(* ================================================================== *)
(** ** storage/store.js: the record log *)
(* ================================================================== *)

Module Log.

(** The log file: [None] when it does not exist, otherwise its content. *)
Definition File : Type := option string.

Definition content (f : File) : string :=
  match f with
  | Some c => c
  | None => EmptyString
  end.

Section Codec.
(** [JSON.stringify] and [JSON.parse] on the records of the log;
    [JSON_parse] answers [None] where [JSON.parse] throws. *)
Context {R : Type}.
Variable JSON_stringify : R -> string.
Variable JSON_parse : string -> option R.

(** [appendStore(record)]: [appendFileSync] creates the file when it is
    missing. *)
Definition appendStore (f : File) (record : R) : File :=
  Some (content f ++ JSON_stringify record ++ String LF EmptyString)%string.

(** The [for (const line of tail)] loop: lines that fail to parse are
    skipped. *)
Fixpoint parseLines (tail : list string) : list R :=
  match tail with
  | [] => []
  | line :: rest =>
      match JSON_parse line with
      | Some r => r :: parseLines rest
      | None => parseLines rest
      end
  end.

(** [readStore(limit)] *)
Definition readStore (f : File) (limit : nat) : list R :=
  match f with
  | None => []
  | Some c =>
      let lines := filter nonempty (String_split LF c) in
      let tail := slice_from (List.length lines - limit) lines in
      parseLines tail
  end.
End Codec.

End Log.

(* ================================================================== *)
(** ** storage/store.js: the ledger *)
(* ================================================================== *)

Module Ledger.

(** The [processed] object: its entries in the order [Object.entries]
    enumerates them (array-index keys first, ascending, then the other
    keys in order of creation), one per key.  A value is the time the
    identifier was marked, [None] for [null]. *)
Definition Processed : Type := list (string * option Z).

Record State : Type := mkState {
  lastCheckedAt : Z;
  processed : Processed
}.

(** [v ?? 0] *)
Definition stamp (v : option Z) : Z :=
  match v with
  | Some t => t
  | None => 0%Z
  end.

(** [delete obj[k]] *)
Definition delete (k : string) (obj : Processed) : Processed :=
  filter (fun e => negb (String.eqb (fst e) k)) obj.

(** The value of a decimal digit. *)
Definition digitValue (c : ascii) : option N :=
  let n := N_of_ascii c in
  if ((48 <=? n) && (n <=? 57))%N then Some (n - 48)%N else None.

(** The number written by a string of decimal digits. *)
Fixpoint decimalValue (acc : N) (s : string) : option N :=
  match s with
  | EmptyString => Some acc
  | String c rest =>
      match digitValue c with
      | Some d => decimalValue (10 * acc + d)%N rest
      | None => None
      end
  end.

(** The array index a property key denotes, if any: the key is the
    decimal form, without leading zero, of an integer from 0 to
    2^32 - 2. *)
Definition arrayIndex (k : string) : option N :=
  match k with
  | EmptyString => None
  | String c rest =>
      if Ascii.eqb c "0" && nonempty rest then None
      else
        match decimalValue 0 k with
        | Some n => if (n <? 4294967295)%N then Some n else None
        | None => None
        end
  end.

(** [k in obj] *)
Definition has (k : string) (obj : Processed) : bool :=
  existsb (fun e => String.eqb (fst e) k) obj.

(** The value of an existing key is replaced where the key stands. *)
Fixpoint replace (k : string) (v : option Z) (obj : Processed) : Processed :=
  match obj with
  | [] => []
  | (k', v') :: rest =>
      if String.eqb k' k then (k, v) :: rest else (k', v') :: replace k v rest
  end.

(** A new key that is the array index [n] is enumerated among the array
    indices, in ascending numeric order, before every other key. *)
Fixpoint insertIndex (n : N) (k : string) (v : option Z) (obj : Processed)
  : Processed :=
  match obj with
  | [] => [(k, v)]
  | (k', v') :: rest =>
      match arrayIndex k' with
      | Some n' =>
          if (n' <? n)%N then (k', v') :: insertIndex n k v rest
          else (k, v) :: obj
      | None => (k, v) :: obj
      end
  end.

(** [obj[k] = v], in the property order of JavaScript objects: an
    existing key keeps its place; a new key that is an array index (an
    activity identifier below 2^32 - 1) goes among the array indices in
    ascending numeric order; any other new key (an identifier from
    2^32 - 1 on) is enumerated last, in order of creation. *)
Definition assign (k : string) (v : option Z) (obj : Processed) : Processed :=
  if has k obj then replace k v obj
  else
    match arrayIndex k with
    | Some n => insertIndex n k v obj
    | None => obj ++ [(k, v)]
    end.

(** The comparator [(a, b) => (a[1] ?? 0) - (b[1] ?? 0)]. *)
Definition oldestFirst (a b : string * option Z) : Z :=
  (stamp (snd a) - stamp (snd b))%Z.

Definition pruneProcessed (state : State) (maxItems : nat) : State :=
  let entries := processed state in
  if (List.length entries <=? maxItems)%nat then state
  else
    let sorted := Array_sort oldestFirst entries in
    let toDelete := (List.length entries - maxItems)%nat in
    {| lastCheckedAt := lastCheckedAt state;
       processed := fold_left (fun obj e => delete (fst e) obj)
                      (firstn toDelete sorted) (processed state) |}.

(** [markProcessed(state, id)]; [key] is [String(id)] and [now] the value
    of [Date.now()]. *)
Definition markProcessed (state : State) (key : string) (now : Z) : State :=
  pruneProcessed
    {| lastCheckedAt := lastCheckedAt state;
       processed := assign key (Some now) (processed state) |}
    4000.

End Ledger.

(* ================================================================== *)
(** ** storage/store.js: historical match and deltas *)
(* ================================================================== *)

Module Store.
Import Formatters StreamAnalysis.

(** The fields of [record.activity] read by the matcher and the delta
    engine.  A missing [id], [type], [sport_type] or start date is [None];
    a record without an [activity] object reads as one without [id]. *)
Record Activity : Type := mkActivity {
  id : option Z;
  type : option string;
  sport_type : option string;
  start_date : option string;
  start_date_local : option string;
  distance_m : jsval;
  moving_time_s : jsval;
  total_elevation_gain_m : jsval;
  average_heartrate : jsval;
  average_watts : jsval
}.

Record Derived : Type := mkDerived {
  hr_avg_stream : jsval;
  hr_max_stream : jsval;
  power_avg : jsval
}.

Record StoreRecord : Type := mkRecord {
  activity : Activity;
  derived : option Derived
}.

(** [record.derived?.field] *)
Definition derived_field (f : Derived -> jsval) (r : StoreRecord) : jsval :=
  match derived r with
  | Some d => f d
  | None => JUndefined
  end.

Definition option_eqb {A : Type} (eqb : A -> A -> bool) (x y : option A)
  : bool :=
  match x, y with
  | Some a, Some b => eqb a b
  | None, None => true
  | _, _ => false
  end.

Definition week_ms : Z := 7 * 24 * 3600 * 1000.
Definition fortnight_ms : Z := 14 * 24 * 3600 * 1000.

Section Matcher.
(** The time value of [new Date(s)] for a string [s], [None] for an
    invalid date. *)
Variable Date_parse : string -> option Z.

(** [new Date(a.start_date_local ?? a.start_date ?? dflt).getTime()],
    [None] for [NaN]. *)
Definition startTime (a : Activity) (dflt : Z) : option Z :=
  match start_date_local a with
  | Some s => Date_parse s
  | None =>
      match start_date a with
      | Some s => Date_parse s
      | None => Some dflt
      end
  end.

(** [r?.activity?.id && r.activity.id !== current.activity.id] *)
Definition otherId (current r : StoreRecord) : bool :=
  match id (activity r) with
  | Some i => negb (i =? 0)%Z
              && negb (option_eqb Z.eqb (Some i) (id (activity current)))
  | None => false
  end.

(** [r?.activity?.type === curType] *)
Definition sameType (curType : option string) (r : StoreRecord) : bool :=
  option_eqb String.eqb (type (activity r)) curType.

Definition inWindow (startMin startMax : Z) (r : StoreRecord) : bool :=
  match startTime (activity r) 0 with
  | None => false
  | Some dt => (startMin <=? dt)%Z && (dt <=? startMax)%Z
  end.

(** The distance filter in exact arithmetic ([Store64] has the test on
    binary64 numbers).  A division by a zero [curDist] gives
    [Infinity] or [NaN], and neither is [<= 0.2]. *)
Definition similarDistance (curDist : option Q) (r : StoreRecord) : bool :=
  match curDist with
  | None => true
  | Some c =>
      match safeNum (distance_m (activity r)) with
      | None => false
      | Some d =>
          if Qle_bool d 0 then false
          else if Qeq_bool c 0 then false
          else Qle_bool (Qabs (d - c) / c) (2 # 10)
      end
  end.

(** The comparator of the final sort, [db - da]; a [NaN] result counts
    as zero. *)
Definition newestFirst (a b : StoreRecord) : Z :=
  match startTime (activity a) 0, startTime (activity b) 0 with
  | Some da, Some db => (db - da)%Z
  | _, _ => 0%Z
  end.

(** [pickComparableLastWeek(current, history)]; [now] is the value of
    [Date.now()]. *)
Definition pickComparableLastWeek (now : Z) (current : StoreRecord)
  (history : list StoreRecord) : option StoreRecord :=
  match startTime (activity current) now with
  | None => None
  | Some curStart =>
      let startMax := (curStart - week_ms)%Z in
      let startMin := (curStart - fortnight_ms)%Z in
      let curType := type (activity current) in
      let curDist := safeNum (distance_m (activity current)) in
      let candidates :=
        Array_sort newestFirst
          (filter (similarDistance curDist)
             (filter (inWindow startMin startMax)
                (filter (sameType curType)
                   (filter (otherId current) history)))) in
      hd_error candidates
  end.
End Matcher.

Module Delta.
Record t : Type := mk {
  distance_m : option Q;
  moving_time_s : option Q;
  elevation_gain_m : option Q;
  avg_pace_sec_per_km : option Q;
  avg_pace_pct : option Q;
  avg_speed_kmh : option Q;
  avg_speed_pct : option Q;
  hr_avg : option Q;
  hr_max : option Q;
  power_avg_w : option Q;
  power_avg_pct : option Q
}.
End Delta.

Module Comparison.
Record t : Type := mk {
  prev_activity_id : option Z;
  prev_start_date_local : option string;
  mode : Mode;
  delta : Delta.t
}.
End Comparison.

(** [x != null && y != null ? x - y : null] *)
Definition diff (x y : option Q) : option Q :=
  match x, y with
  | Some a, Some b => Some (a - b)
  | _, _ => None
  end.

(** [x != null && y != null ? pctDiff(x, y) : null] *)
Definition pct (x y : option Q) : option Q :=
  match x, y with
  | Some _, Some _ => pctDiff x y
  | _, _ => None
  end.

(** [a ?? b] on the start-date fields. *)
Definition first_present (a b : option string) : option string :=
  match a with
  | Some _ => a
  | None => b
  end.

(** [compareCurrentVsPrev(current, prev)]; [None] is a missing [prev]. *)
Definition compareCurrentVsPrev (current : StoreRecord)
  (prev : option StoreRecord) : option Comparison.t :=
  match prev with
  | None => None
  | Some prev =>
      let cur := activity current in
      let old := activity prev in
      let paceBased := isPaceBased (type cur) (sport_type cur) in
      let curPace := if paceBased
                     then avgPaceSecPerKm (distance_m cur) (moving_time_s cur)
                     else None in
      let oldPace := if paceBased
                     then avgPaceSecPerKm (distance_m old) (moving_time_s old)
                     else None in
      let curSpeed := if negb paceBased
                      then avgSpeedKmh (distance_m cur) (moving_time_s cur)
                      else None in
      let oldSpeed := if negb paceBased
                      then avgSpeedKmh (distance_m old) (moving_time_s old)
                      else None in
      let curHrAvg := safeNum (nullish_or (derived_field hr_avg_stream current)
                                          (average_heartrate cur)) in
      let oldHrAvg := safeNum (nullish_or (derived_field hr_avg_stream prev)
                                          (average_heartrate old)) in
      let curHrMax := safeNum (nullish_or (derived_field hr_max_stream current)
                                          JNull) in
      let oldHrMax := safeNum (nullish_or (derived_field hr_max_stream prev)
                                          JNull) in
      let curPwr := safeNum (nullish_or (derived_field power_avg current)
                                        (average_watts cur)) in
      let oldPwr := safeNum (nullish_or (derived_field power_avg prev)
                                        (average_watts old)) in
      Some
        {| Comparison.prev_activity_id := id old;
           Comparison.prev_start_date_local :=
             first_present (start_date_local old) (start_date old);
           Comparison.mode := if paceBased then Pace else Speed;
           Comparison.delta :=
             {| Delta.distance_m :=
                  diff (safeNum (distance_m cur)) (safeNum (distance_m old));
                Delta.moving_time_s :=
                  diff (safeNum (moving_time_s cur))
                       (safeNum (moving_time_s old));
                Delta.elevation_gain_m :=
                  diff (safeNum (total_elevation_gain_m cur))
                       (safeNum (total_elevation_gain_m old));
                Delta.avg_pace_sec_per_km := diff curPace oldPace;
                Delta.avg_pace_pct := pct curPace oldPace;
                Delta.avg_speed_kmh := diff curSpeed oldSpeed;
                Delta.avg_speed_pct := pct curSpeed oldSpeed;
                Delta.hr_avg := diff curHrAvg oldHrAvg;
                Delta.hr_max := diff curHrMax oldHrMax;
                Delta.power_avg_w := diff curPwr oldPwr;
                Delta.power_avg_pct := pct curPwr oldPwr |} |}
  end.

End Store.

(* ================================================================== *)
(** * Vocabulary for the segmenter *)
(* ================================================================== *)

Module SplitsSpec.
Import Formatters StreamAnalysis.

(** The streams object of a well-formed activity. *)
Definition streamsOf (dist time : list Q) (hr watts : option (list jsval))
  : option Streams :=
  Some {| distance := Some dist; time := Some time;
          heartrate := hr; watts := watts |}.

(** Missing or misaligned sample arrays. *)
Definition malformed (streams : option Streams) : Prop :=
  match streams with
  | None => True
  | Some s =>
      match distance s, time s with
      | Some dist, Some time => List.length dist <> List.length time
      | _, _ => True
      end
  end.

(** [dist[dist.length - 1]], the final cumulative distance. *)
Definition totalDistance (dist : list Q) : Q :=
  at_index dist (List.length dist - 1).

(** The number of splits as a rational. *)
Definition countQ (l : list Split) : Q := inject_Z (Z.of_nat (List.length l)).

(** The loop instrumented with the pair (opening index, closing index) of
    every split it pushes: the values of [startIdx] and [i] at the push. *)
Record Trace : Type := mkTrace {
  t_nextKm : Q;
  t_startIdx : nat;
  t_bounds : list (nat * nat)
}.

(** One iteration of the instrumented loop. *)
Definition traceStep (dist : list Q) (tr : Trace) (i : nat) : Trace :=
  if Qle_bool (t_nextKm tr) (at_index dist i) then
    {| t_nextKm := t_nextKm tr + 1000;
       t_startIdx := i;
       t_bounds := t_bounds tr ++ [(t_startIdx tr, i)] |}
  else tr.

(** The instrumented loop after the iterations [i = 0 .. n-1]. *)
Definition traceRun (dist : list Q) (n : nat) : Trace :=
  fold_left (traceStep dist) (seq 0 n)
    {| t_nextKm := 1000; t_startIdx := 0%nat; t_bounds := [] |}.

(** The boundary pairs of all the splits of an activity. *)
Definition splitBounds (dist : list Q) : list (nat * nat) :=
  t_bounds (traceRun dist (List.length dist)).

(** Each split opens where the previous one closed, the first at [from]. *)
Fixpoint chained (from : nat) (bs : list (nat * nat)) : Prop :=
  match bs with
  | [] => True
  | (s, c) :: rest => s = from /\ chained c rest
  end.

(** The closing index of the last split, [from] when there is none. *)
Fixpoint lastClose (from : nat) (bs : list (nat * nat)) : nat :=
  match bs with
  | [] => from
  | (_, c) :: rest => lastClose c rest
  end.

(** [f] applied to the elements with their positions, counted from [k]. *)
Fixpoint imap {A B : Type} (f : nat -> A -> B) (k : nat) (l : list A)
  : list B :=
  match l with
  | [] => []
  | x :: rest => f k x :: imap f (S k) rest
  end.

(** Consecutive samples never decrease and advance by at most [bound]. *)
Fixpoint stepsWithin (bound : Q) (dist : list Q) : bool :=
  match dist with
  | a :: rest =>
      match rest with
      | b :: _ => Qle_bool a b && Qle_bool b (a + bound)
                  && stepsWithin bound rest
      | [] => true
      end
  | [] => true
  end.



End SplitsSpec.

(* ================================================================== *)
(** * Vocabulary for the historical matcher and the delta engine *)
(* ================================================================== *)

Module MatcherSpec.
Import Formatters StreamAnalysis Store.

(** The element that [Array_sort] puts first. *)
Fixpoint sortHead {A : Type} (cmp : A -> A -> Z) (l : list A) : option A :=
  match l with
  | [] => None
  | x :: rest =>
      match sortHead cmp rest with
      | None => Some x
      | Some h => if (cmp x h <=? 0)%Z then Some x else Some h
      end
  end.

(** The start time of a history record, the epoch when it has no start
    date. *)
Definition startOf (Date_parse : string -> option Z) (r : StoreRecord)
  : option Z :=
  startTime Date_parse (activity r) 0.

(** The conditions a history record must meet for a current record that
    started at [curStart].  First: it has an identifier (present and not
    zero) other than the current one. *)
Definition otherIdP (current r : StoreRecord) : Prop :=
  exists i : Z, id (activity r) = Some i /\ i <> 0%Z
                /\ id (activity current) <> Some i.

(** Its type is the type of the current record. *)
Definition sameTypeP (current r : StoreRecord) : Prop :=
  type (activity r) = type (activity current).

(** Its start timestamp parses and lies 7 to 14 days before [curStart],
    bounds included. *)
Definition inWindowP (Date_parse : string -> option Z) (curStart : Z)
  (r : StoreRecord) : Prop :=
  exists dt : Z, startTime Date_parse (activity r) 0 = Some dt
                 /\ (curStart - fortnight_ms <= dt <= curStart - week_ms)%Z.

(** When the current distance [c] is known, its distance [d] is known and
    positive and deviates from [c] by at most 20 % of [c]; the quotient is
    that of JavaScript, so a zero [c] admits no record. *)
Definition similarDistanceP (current r : StoreRecord) : Prop :=
  forall c : Q,
    safeNum (distance_m (activity current)) = Some c ->
    exists d : Q, safeNum (distance_m (activity r)) = Some d
                  /\ 0 < d /\ ~ c == 0 /\ Qabs (d - c) / c <= 2 # 10.

(** All four conditions. *)
Definition eligible (Date_parse : string -> option Z) (current : StoreRecord)
  (curStart : Z) (r : StoreRecord) : Prop :=
  otherIdP current r /\ sameTypeP current r /\ inWindowP Date_parse curStart r
  /\ similarDistanceP current r.

(** The value of a decimal digit. *)
Definition digit (c : ascii) : option Z :=
  let n := nat_of_ascii c in
  if ((48 <=? n) && (n <=? 57))%nat then Some (Z.of_nat (n - 48)) else None.

(** Reads exactly [n] decimal digits. *)
Fixpoint readDigits (n : nat) (acc : Z) (s : string) : option (Z * string) :=
  match n with
  | O => Some (acc, s)
  | S n' =>
      match s with
      | String c rest =>
          match digit c with
          | Some d => readDigits n' (10 * acc + d)%Z rest
          | None => None
          end
      | EmptyString => None
      end
  end.

(** Reads the character [c]. *)
Definition expect (c : ascii) (s : string) : option string :=
  match s with
  | String c' rest => if Ascii.eqb c c' then Some rest else None
  | EmptyString => None
  end.

(** Days from 1970-01-01 to the given date of the proleptic Gregorian
    calendar. *)
Definition daysFromCivil (y m d : Z) : Z :=
  let y' := if (m <=? 2)%Z then (y - 1)%Z else y in
  let era := (y' / 400)%Z in
  let yoe := (y' - era * 400)%Z in
  let mp := if (m <=? 2)%Z then (m + 9)%Z else (m - 3)%Z in
  let doy := ((153 * mp + 2) / 5 + d - 1)%Z in
  let doe := (yoe * 365 + yoe / 4 - yoe / 100 + doy)%Z in
  (era * 146097 + doe - 719468)%Z.

(** The time value of a date-time in the format of the activity API,
    [YYYY-MM-DDTHH:MM:SSZ]; this is the instance of [Date_parse] used in
    the examples below. *)
Definition isoDate (s : string) : option Z :=
  match readDigits 4 0 s with
  | Some (y, s) =>
  match expect "-" s with
  | Some s =>
  match readDigits 2 0 s with
  | Some (m, s) =>
  match expect "-" s with
  | Some s =>
  match readDigits 2 0 s with
  | Some (d, s) =>
  match expect "T" s with
  | Some s =>
  match readDigits 2 0 s with
  | Some (h, s) =>
  match expect ":" s with
  | Some s =>
  match readDigits 2 0 s with
  | Some (mi, s) =>
  match expect ":" s with
  | Some s =>
  match readDigits 2 0 s with
  | Some (sec, s) =>
      if String.eqb s "Z"
         && (1 <=? m)%Z && (m <=? 12)%Z && (1 <=? d)%Z && (d <=? 31)%Z
         && (h <=? 23)%Z && (mi <=? 59)%Z && (sec <=? 59)%Z
      then Some ((((daysFromCivil y m d * 24 + h) * 60 + mi) * 60 + sec)
                 * 1000)%Z
      else None
  | None => None end | None => None end | None => None end
  | None => None end | None => None end | None => None end
  | None => None end | None => None end | None => None end
  | None => None end | None => None end.

(** A run on the given day at 07:00:00, of the given distance. *)
Definition runAt (ident : Z) (date : string) (dist : Q) : StoreRecord :=
  {| activity :=
       {| id := Some ident; type := Some "Run"%string;
          sport_type := Some "Run"%string;
          start_date := None; start_date_local := Some date;
          distance_m := JNumber dist; moving_time_s := JNumber 3600;
          total_elevation_gain_m := JNull; average_heartrate := JNull;
          average_watts := JNull |};
     derived := None |}.

(** A current run of 10 km. *)
Definition currentRun : StoreRecord := runAt 50 "2024-03-20T07:00:00Z" 10000.

(** A run of the given duration over the given distance, the other
    fields unknown. *)
Definition runOf (ident : Z) (date : string) (dist secs : Q) : StoreRecord :=
  {| activity :=
       {| id := Some ident; type := Some "run"%string; sport_type := None;
          start_date := None; start_date_local := Some date;
          distance_m := JNumber dist; moving_time_s := JNumber secs;
          total_elevation_gain_m := JNull; average_heartrate := JNull;
          average_watts := JNull |};
     derived := None |}.

End MatcherSpec.

(* ================================================================== *)
(** * Vocabulary for the ledger *)
(* ================================================================== *)

Module LedgerSpec.
Import Ledger.

(** The keys of an object, in enumeration order. *)
Definition keys (obj : Processed) : list string := map fst obj.

(** [a] was marked no later than [b]. *)
Definition olderEq (a b : string * option Z) : Prop :=
  (stamp (snd a) <= stamp (snd b))%Z.

(** The mark [v] is not newer than the mark [v']; a null mark counts as
    time 0. *)
Definition notNewer (v v' : option Z) : Prop :=
  match v, v' with
  | Some t, Some t' => (t <= t')%Z
  | Some t, None => (t <= 0)%Z
  | None, Some t' => (0 <= t')%Z
  | None, None => True
  end.

(** The [for] loop of [pruneProcessed]. *)
Definition deleteAll (ds obj : Processed) : Processed :=
  fold_left (fun o e => delete (fst e) o) ds obj.

(** The number of entries [pruneProcessed] deletes, and the entries in
    the order of its sort. *)
Definition toDelete (state : State) (maxItems : nat) : nat :=
  (List.length (processed state) - maxItems)%nat.

Definition sorted (state : State) : Processed :=
  Array_sort oldestFirst (processed state).

(** The ledger of a fresh deployment, as [loadState] defaults it. *)
Definition emptyState : State := {| lastCheckedAt := 0; processed := [] |}.

(** The entry written for a mark (identifier key, clock reading). *)
Definition entry (m : string * Z) : string * option Z := (fst m, Some (snd m)).

(** Successive calls of [markProcessed], one per mark. *)
Definition markAll (marks : list (string * Z)) (state : State) : State :=
  fold_left (fun s m => markProcessed s (fst m) (snd m)) marks state.

(** [markProcessed] with the bound of the pruning left open. *)
Definition markWith (n : nat) (state : State) (m : string * Z) : State :=
  pruneProcessed
    {| lastCheckedAt := lastCheckedAt state;
       processed := assign (fst m) (Some (snd m)) (processed state) |} n.

(** The mark of the identifier [5000 - i] at millisecond [i]. *)
Definition markAt (i : nat) : string * Z :=
  (String_of_Z (5000 - Z.of_nat i), (1700000000000 + Z.of_nat i)%Z).

(** 4001 identifiers, from 4999 down to 999, marked one millisecond
    apart: array-index keys created out of numeric order. *)
Definition firstMark : string * Z := markAt 1.

Definition laterMarks : list (string * Z) := map markAt (seq 2 4000).

Definition manyMarks : list (string * Z) := map markAt (seq 1 4001).

Fixpoint distinctb (l : list string) : bool :=
  match l with
  | [] => true
  | x :: rest => negb (existsb (String.eqb x) rest) && distinctb rest
  end.

Fixpoint increasingb (l : list Z) : bool :=
  match l with
  | a :: rest =>
      match rest with
      | b :: _ => (a <? b)%Z && increasingb rest
      | [] => true
      end
  | [] => true
  end.

End LedgerSpec.

(* ================================================================== *)
(** * Vocabulary for the record log *)
(* ================================================================== *)

Module LogSpec.
Import Log.

(** No line feed occurs in the string. *)
Fixpoint newline_free (s : string) : bool :=
  match s with
  | EmptyString => true
  | String c rest => negb (Ascii.eqb c LF) && newline_free rest
  end.

Section Codec.
Context {R : Type}.
Variable JSON_stringify : R -> string.
Variable JSON_parse : string -> option R.

(** A line of the log: a record written by [appendStore], or a corrupted
    line put there by something else. *)
Definition text (e : R + string) : string :=
  match e with
  | inl r => JSON_stringify r
  | inr g => g
  end.

Definition writeLine (f : File) (e : R + string) : File :=
  match e with
  | inl r => appendStore JSON_stringify f r
  | inr g => Some (content f ++ g ++ String LF EmptyString)%string
  end.

Definition writeAll (es : list (R + string)) (f : File) : File :=
  fold_left writeLine es f.

(** The records appended, oldest first. *)
Fixpoint records (es : list (R + string)) : list R :=
  match es with
  | [] => []
  | inl r :: rest => r :: records rest
  | inr _ :: rest => records rest
  end.

(** The record survives serialization: its text is one non-empty line that
    parses back to it. *)
Definition serializable (r : R) : Prop :=
  JSON_parse (JSON_stringify r) = Some r
  /\ newline_free (JSON_stringify r) = true
  /\ JSON_stringify r <> EmptyString.

(** A corrupted line: one line that does not parse. *)
Definition unreadable (g : string) : Prop :=
  JSON_parse g = None /\ newline_free g = true.

Definition wellWritten (e : R + string) : Prop :=
  match e with
  | inl r => serializable r
  | inr g => unreadable g
  end.
End Codec.

(** A codec for a log of bare non-negative integers: [JSON.stringify]
    writes the decimal digits, and a line parses when it is the decimal
    form of a number. *)
Definition stringifyNat (n : nat) : string := String_of_Z (Z.of_nat n).

Definition parseNat (s : string) : option nat :=
  match NilZero.uint_of_string s with
  | Some d =>
      if String.eqb (stringifyNat (Nat.of_uint d)) s
      then Some (Nat.of_uint d) else None
  | None => None
  end.

(** The content written for a list of lines. *)
Fixpoint joined (lines : list string) : string :=
  match lines with
  | [] => EmptyString
  | l :: rest => (l ++ String LF (joined rest))%string
  end.

End LogSpec.

(* ================================================================== *)
(** * Further functions of the bridge *)
(* ================================================================== *)

(** ** formatters.js: durations *)

Module Display.

(** The integer part of a number, rounded towards zero. *)
Definition Qtrunc (x : Q) : Z := Z.quot (Qnum x) (Zpos (Qden x)).

(** [x % n]: the remainder has the sign of the dividend. *)
Definition js_rem (x n : Q) : Q := x - n * inject_Z (Qtrunc (x / n)).

(** [String(n)] for an integer, negative or not. *)
Definition String_of_int (n : Z) : string :=
  if (n <? 0)%Z then ("-" ++ String_of_Z (- n))%string else String_of_Z n.

(** [secToHMS(sec)]; [None] is an argument that is not a finite number. *)
Definition secToHMS (sec : option Q) : string :=
  match sec with
  | None => "n/d"
  | Some sec =>
      let h := Math_floor (sec / 3600) in
      let m := Math_floor (js_rem sec 3600 / 60) in
      let s := Math_round (js_rem sec 60) in
      if (0 <? h)%Z
      then (String_of_int h ++ ":" ++ padStart2 (String_of_int m) ++ ":"
            ++ padStart2 (String_of_int s))%string
      else (String_of_int m ++ ":" ++ padStart2 (String_of_int s))%string
  end.

End Display.

(** ** formatters.js: text *)

Module Text.

(** A JavaScript string is its sequence of UTF-16 code units; [length],
    [slice], [lastIndexOf] and the replacements below all count and
    compare code units. *)
Definition jstring : Type := list N.

(** The code units of an ASCII literal. *)
Definition lit (s : string) : jstring :=
  map N_of_ascii (list_ascii_of_string s).

(** The code units of [&], [<], [>], the double quote, the single quote
    and the line feed. *)
Definition AMP : N := 38.
Definition LT : N := 60.
Definition GT : N := 62.
Definition QUOT : N := 34.
Definition APOS : N := 39.
Definition NL : N := 10.

(** [s.replaceAll(c, by)] for a one-unit pattern [c] and a replacement
    without [$]. *)
Definition replaceAll (c : N) (by_ : jstring) (s : jstring) : jstring :=
  flat_map (fun u => if (u =? c)%N then by_ else [u]) s.

(** [escapeHtml(s)]; [None] is a null or undefined argument. *)
Definition escapeHtml (s : option jstring) : jstring :=
  let s0 := match s with Some v => v | None => [] end in
  replaceAll APOS (lit "&#39;")
    (replaceAll QUOT (lit "&quot;")
       (replaceAll GT (lit "&gt;")
          (replaceAll LT (lit "&lt;")
             (replaceAll AMP (lit "&amp;") s0)))).

(** [s.lastIndexOf(c, fromIndex)] for a one-unit [c]: the greatest index
    not above [fromIndex] that holds [c]; [None] is [-1]. *)
Fixpoint lastIndexOf (c : N) (fromIndex : nat) (s : jstring) {struct s}
  : option nat :=
  match s with
  | [] => None
  | u :: rest =>
      let later := match fromIndex with
                   | O => None
                   | S f => option_map S (lastIndexOf c f rest)
                   end in
      match later with
      | Some k => Some k
      | None => if (u =? c)%N then Some O else None
      end
  end.

(** [s.replace(/^\n+/, "")] *)
Fixpoint stripLeadingNL (s : jstring) : jstring :=
  match s with
  | u :: rest => if (u =? NL)%N then stripLeadingNL rest else s
  | [] => []
  end.

(** The cut of one iteration: the last line feed at or before [maxLen],
    unless it lies before [maxLen * 0.6]. *)
Definition cutPoint (maxLen : nat) (rest : jstring) : nat :=
  match lastIndexOf NL maxLen rest with
  | Some cut =>
      if Qlt_bool (inject_Z (Z.of_nat cut))
           (inject_Z (Z.of_nat maxLen) * (6 # 10))
      then maxLen else cut
  | None => maxLen
  end.

(** The [while (rest.length > maxLen)] loop, run for at most [fuel]
    tests of its condition; [None] when they do not suffice. *)
Fixpoint chunkLoop (fuel maxLen : nat) (parts : list jstring) (rest : jstring)
  : option (list jstring * jstring) :=
  match fuel with
  | O => None
  | S fuel' =>
      if (maxLen <? List.length rest)%nat then
        let cut := cutPoint maxLen rest in
        chunkLoop fuel' maxLen (parts ++ [firstn cut rest])
          (stripLeadingNL (skipn cut rest))
      else Some (parts, rest)
  end.

(** The decimal digits of a count. *)
Definition digits (n : nat) : jstring := lit (String_of_Z (Z.of_nat n)).

(** The numbered part [<b>(i+1/n)</b>\np]. *)
Definition numbered (n i : nat) (p : jstring) : jstring :=
  lit "<b>(" ++ digits (i + 1) ++ lit "/" ++ digits n ++ lit ")</b>"
  ++ [NL] ++ p.

(** [parts.map((p, i) => f(i, p))], the positions counted from [i]. *)
Fixpoint mapIndexed {A B : Type} (f : nat -> A -> B) (i : nat) (l : list A)
  : list B :=
  match l with
  | [] => []
  | x :: rest => f i x :: mapIndexed f (S i) rest
  end.

(** The parts of the text before they are numbered. *)
Definition chunkBodies (fuel : nat) (text : jstring) (maxLen : nat)
  : option (list jstring) :=
  match chunkLoop fuel maxLen [] text with
  | None => None
  | Some (parts, rest) =>
      Some (match rest with
            | [] => parts
            | _ :: _ => parts ++ [rest]
            end)
  end.

(** [chunkText(text, maxLen)], the loop run with [fuel]. *)
Definition chunkText (fuel : nat) (text : jstring) (maxLen : nat)
  : option (list jstring) :=
  if (List.length text <=? maxLen)%nat then Some [text]
  else
    match chunkBodies fuel text maxLen with
    | None => None
    | Some parts =>
        Some (if (1 <? List.length parts)%nat
              then mapIndexed (numbered (List.length parts)) 0 parts
              else parts)
    end.

End Text.

(** ** index.js and polling.js: the idempotency check *)

Module LedgerAccess.
Import Ledger.

(** [obj[k]]: [None] is [undefined]. *)
Fixpoint get (k : string) (obj : Processed) : option (option Z) :=
  match obj with
  | [] => None
  | (k', v) :: rest => if String.eqb k' k then Some v else get k rest
  end.

(** The test [if (state.processed[String(id)])]: the entry exists and its
    value is a non-zero number. *)
Definition isProcessed (state : State) (key : string) : bool :=
  match get key (processed state) with
  | Some (Some t) => negb (t =? 0)%Z
  | _ => false
  end.

End LedgerAccess.

(* ================================================================== *)
(** * Vocabulary for the text formatters *)
(* ================================================================== *)

Module TextSpec.
Import Text.

(** The escape of one code unit. *)
Definition escapeUnit (u : N) : jstring :=
  if (u =? AMP)%N then lit "&amp;"
  else if (u =? LT)%N then lit "&lt;"
  else if (u =? GT)%N then lit "&gt;"
  else if (u =? QUOT)%N then lit "&quot;"
  else if (u =? APOS)%N then lit "&#39;"
  else [u].

(** The code units that open or close markup or an attribute value. *)
Definition isMarkup (u : N) : bool :=
  (u =? LT)%N || (u =? GT)%N || (u =? QUOT)%N || (u =? APOS)%N.

(** The reading back of an escaped text: the five entities stand for
    their characters. *)
Fixpoint unescape (s : jstring) : jstring :=
  match s with
  | [] => []
  | u :: r =>
      if (u =? AMP)%N then
        match r with
        | 97%N :: 109%N :: 112%N :: 59%N :: r' => AMP :: unescape r'
        | 108%N :: 116%N :: 59%N :: r' => LT :: unescape r'
        | 103%N :: 116%N :: 59%N :: r' => GT :: unescape r'
        | 113%N :: 117%N :: 111%N :: 116%N :: 59%N :: r' => QUOT :: unescape r'
        | 35%N :: 51%N :: 57%N :: 59%N :: r' => APOS :: unescape r'
        | _ => u :: unescape r
        end
      else u :: unescape r
  end.

(** The parts with a gap after each: [p1 ++ g1 ++ p2 ++ g2 ++ ...]. *)
Fixpoint interleave (parts gaps : list jstring) : jstring :=
  match parts, gaps with
  | p :: ps, g :: gs => p ++ g ++ interleave ps gs
  | _, _ => []
  end.

(** A run of line feeds. *)
Definition lineFeeds (g : jstring) : Prop := Forall (fun u => u = NL) g.

(** Some code unit is not a line feed. *)
Definition hasText (s : jstring) : Prop := exists u, In u s /\ u <> NL.

End TextSpec.

(* ================================================================== *)
(** * Vocabulary for the further properties of the segmenter *)
(* ================================================================== *)

Module SplitsMoreSpec.
Import StreamAnalysis.

(** An optional stream is missing or as long as the distance stream. *)
Definition aligned (len : nat) (a : option (list jsval)) : Prop :=
  match a with
  | None => True
  | Some l => List.length l = len
  end.

(** The first [n] samples of an optional stream. *)
Definition truncated (n : nat) (a : option (list jsval))
  : option (list jsval) :=
  option_map (firstn n) a.


End SplitsMoreSpec.

(* ================================================================== *)
(** * Vocabulary for the further properties of the store *)
(* ================================================================== *)

Module StoreMoreSpec.
Import Formatters StreamAnalysis Log Ledger Store.

(** The log is empty or ends with a line feed, as every log written by
    [appendStore] alone does. *)
Definition lineTerminated (f : File) : Prop :=
  content f = EmptyString
  \/ exists c : string, content f = (c ++ String LF EmptyString)%string.

(** Every entry of the object was marked before [now]; a null mark
    counts as time 0. *)
Definition markedBefore (now : Z) (obj : Processed) : Prop :=
  Forall (fun e => match snd e with
                   | Some t => (t < now)%Z
                   | None => (0 < now)%Z
                   end) obj.

(** The keys named by a list of entries. *)
Definition keyIn (ds : Processed) (k : string) : bool :=
  existsb (String.eqb k) (map fst ds).

(** The four filters of [pickComparableLastWeek] as one test. *)
Definition passes (Date_parse : string -> option Z) (current : StoreRecord)
  (curStart : Z) (r : StoreRecord) : bool :=
  otherId current r
  && sameType (type (activity current)) r
  && inWindow Date_parse (curStart - fortnight_ms) (curStart - week_ms) r
  && similarDistance (safeNum (distance_m (activity current))) r.

(** Two deltas are opposite: both missing, or numbers of sum zero. *)
Definition opposite (x y : option Q) : Prop :=
  match x, y with
  | Some a, Some b => a == - b
  | None, None => True
  | _, _ => False
  end.

End StoreMoreSpec.

(* ================================================================== *)
(** * The arithmetic of JavaScript numbers *)
(* ================================================================== *)

(** The modules above compute with exact rationals, which is what the
    program does as long as no operation rounds.  Where a stored value or
    a verdict depends on rounding, the functions are modelled again below
    (modules [StreamAnalysis64] and [Store64]) on IEEE 754 binary64
    numbers, with the operations of the Standard Library's [SpecFloat]. *)

Module Binary64.

(** A JavaScript number: zero, infinity, NaN or a finite binary64 value
    with its sign, mantissa and exponent. *)
Definition float : Type := spec_float.

Definition prec : Z := 53.
Definition emax : Z := 1024.

(** [x + y], [x - y], [x * y], [x / y], rounded to nearest, ties to
    even. *)
Definition add (x y : float) : float := SFadd prec emax x y.
Definition sub (x y : float) : float := SFsub prec emax x y.
Definition mul (x y : float) : float := SFmul prec emax x y.
Definition div (x y : float) : float := SFdiv prec emax x y.

(** [Math.abs(x)] and [-x] *)
Definition abs (x : float) : float := SFabs x.
Definition opp (x : float) : float := SFopp x.

(** [x < y] and [x <= y]; both are false when an operand is NaN. *)
Definition ltb (x y : float) : bool := SFltb x y.
Definition leb (x y : float) : bool := SFleb x y.

Definition zero : float := S754_zero false.
Definition nan : float := S754_nan.

(** The number an integer literal denotes (exact below 2^53). *)
Definition of_Z (z : Z) : float := binary_normalize prec emax z 0 false.
Definition of_nat (n : nat) : float := of_Z (Z.of_nat n).

(** The number a decimal literal denotes, the literal being the fraction
    [n / d] of two integers below 2^53: the binary64 value nearest to the
    fraction, which is what the correctly rounded division gives. *)
Definition decimal (n d : Z) : float := div (of_Z n) (of_Z d).

(** [Number.isFinite(x)] on a number. *)
Definition isFinite (x : float) : bool :=
  match x with
  | S754_zero _ | S754_finite _ _ _ => true
  | S754_infinity _ | S754_nan => false
  end.

(** The exact value of a finite number. *)
Definition toQ (x : float) : Q :=
  match x with
  | S754_finite s m e =>
      let v := inject_Z (Zpos m) * Qpower 2 e in
      if s then - v else v
  | _ => 0
  end.

(** A JavaScript value read where a number is expected. *)
Inductive value : Type :=
  | Undefined
  | Null
  | Number (x : float)
  | Text (s : string).

(** [typeof v === "number" && Number.isFinite(v)] *)
Definition Number_isFinite (v : value) : bool :=
  match v with
  | Number x => isFinite x
  | _ => false
  end.

(** [safeNum(v)] *)
Definition safeNum (v : value) : option float :=
  match v with
  | Number x => if isFinite x then Some x else None
  | _ => None
  end.

(** [Math.round(x)]: the nearest integer, ties towards +Infinity; a zero
    result keeps the sign of [x]. *)
Definition Math_round (x : float) : float :=
  match x with
  | S754_finite s _ _ =>
      let z := Qfloor (toQ x + (1 # 2)) in
      if (z =? 0)%Z then S754_zero s else of_Z z
  | _ => x
  end.

(** One step of [Math.max]: NaN wins, then the larger number, [+0] being
    larger than [-0]. *)
Definition max2 (hi x : float) : float :=
  match hi, x with
  | S754_nan, _ => S754_nan
  | _, S754_nan => S754_nan
  | S754_zero true, S754_zero false => x
  | _, _ => if ltb hi x then x else hi
  end.

(** [Math.max(...xs)] *)
Definition Math_max (xs : list float) : float :=
  fold_left max2 xs (S754_infinity true).

End Binary64.

(* ================================================================== *)
(** ** stream-analysis.js in binary64 *)
(* ================================================================== *)

Module StreamAnalysis64.
Import Binary64.

(** [msToKmh(ms)]: [3.6] is the literal 36/10. *)
Definition msToKmh (ms : float) : option float :=
  if isFinite ms then Some (mul ms (decimal 36 10)) else None.

(** [secToPace(secPerKm)].  The minutes are the floor of the rounded
    quotient, the seconds the rounding of the (exact) remainder; both are
    printed as integers below 10^21 are. *)
Definition secToPace (secPerKm : float) : string :=
  if negb (isFinite secPerKm) || leb secPerKm zero then "n/d"
  else
    let m := Qfloor (toQ (div secPerKm (of_Z 60))) in
    let s := Qfloor (Display.js_rem (toQ secPerKm) 60 + (1 # 2)) in
    String_of_Z m ++ ":" ++ padStart2 (String_of_Z s) ++ "/km".

(** [fmtKmh(kmh)]: [toFixed(1)] works on the exact value of the number
    (non-negative and below 10^21 here). *)
Definition fmtKmh (kmh : float) : string :=
  if isFinite kmh then Formatters.fmtKmh (toQ kmh) else "n/d".

Record Split : Type := mkSplit {
  km : nat;
  mode : StreamAnalysis.Mode;
  meters : float;
  seconds : float;
  secPerKm : value;
  speedKmh : option float;
  label : string;
  hrAvg : option float;
  hrMax : option float;
  powerAvg : option float
}.

(** The sample streams: each field is [streams?.name?.data], [None] when
    the stream or its data is missing.  Distance and time samples are
    numbers; heart-rate and power samples may hold gaps. *)
Record Streams : Type := mkStreams {
  distance : option (list float);
  time : option (list float);
  heartrate : option (list value);
  watts : option (list value)
}.

(** [arr[i]] for an index inside the array. *)
Definition at_index (arr : list float) (i : nat) : float := nth i arr nan.

(** [seg.filter(Number.isFinite)] *)
Fixpoint finite_values (seg : list value) : list float :=
  match seg with
  | [] => []
  | Number x :: rest =>
      if isFinite x then x :: finite_values rest else finite_values rest
  | _ :: rest => finite_values rest
  end.

(** Rounded mean and maximum of the finite samples of
    [arr.slice(startIdx, i + 1)], used only when the stream is present and
    as long as the distance stream. *)
Definition segStats (arr : option (list value)) (len startIdx i : nat)
  : option float * option float :=
  match arr with
  | Some a =>
      if (List.length a =? len)%nat then
        match finite_values (slice startIdx (i + 1) a) with
        | [] => (None, None)
        | x :: xs =>
            (Some (Math_round
                     (div (fold_left add (x :: xs) zero)
                        (of_nat (List.length (x :: xs))))),
             Some (Math_max (x :: xs)))
        end
      else (None, None)
  | None => (None, None)
  end.

(** The body of the [if (dist[i] >= nextKm)] branch: the split closed at
    sample [i], opened at sample [startIdx]. *)
Definition closeSplit (dist time : list float) (hr watts : option (list value))
  (mode : StreamAnalysis.Mode) (count startIdx i : nat) : Split :=
  let meters := sub (at_index dist i) (at_index dist startIdx) in
  let seconds := sub (at_index time i) (at_index time startIdx) in
  let moving := ltb zero meters && ltb zero seconds in
  let speedMs := if moving then Some (div meters seconds) else None in
  let speedKmh := match speedMs with
                  | Some ms => msToKmh ms
                  | None => None
                  end in
  let secPerKm := if moving
                  then Some (div seconds (div meters (of_Z 1000)))
                  else None in
  let hrS := segStats hr (List.length dist) startIdx i in
  let pS := segStats watts (List.length dist) startIdx i in
  let label :=
    match mode with
    | StreamAnalysis.Pace =>
        secToPace (match secPerKm with Some v => v | None => nan end)
    | StreamAnalysis.Speed =>
        match speedKmh with
        | Some v => fmtKmh v
        | None => "n/d"%string
        end
    end in
  {| km := count + 1;
     mode := mode;
     meters := meters;
     seconds := seconds;
     secPerKm := match secPerKm with Some v => Number v | None => Null end;
     speedKmh := speedKmh;
     label := label;
     hrAvg := fst hrS;
     hrMax := snd hrS;
     powerAvg := fst pS |}.

(** The loop variables of [computeSplits1km]. *)
Record LoopState : Type := mkLoop {
  nextKm : float;
  startIdx : nat;
  splits : list Split
}.

Definition loopInit : LoopState :=
  {| nextKm := of_Z 1000; startIdx := 0%nat; splits := [] |}.

(** One iteration of the [for] loop, at sample [i]. *)
Definition loopStep (dist time : list float) (hr watts : option (list value))
  (mode : StreamAnalysis.Mode) (st : LoopState) (i : nat) : LoopState :=
  if leb (nextKm st) (at_index dist i) then
    {| nextKm := add (nextKm st) (of_Z 1000);
       startIdx := i;
       splits := splits st ++
                 [closeSplit dist time hr watts mode
                    (List.length (splits st)) (startIdx st) i] |}
  else st.

(** The loop state after the iterations [i = 0 .. n-1]. *)
Definition loopRun (dist time : list float) (hr watts : option (list value))
  (mode : StreamAnalysis.Mode) (n : nat) : LoopState :=
  fold_left (loopStep dist time hr watts mode) (seq 0 n) loopInit.

(** [computeSplits1km(streams, mode)]; [None] is a null or undefined
    [streams]. *)
Definition computeSplits1km (streams : option Streams)
  (mode : StreamAnalysis.Mode) : list Split :=
  match streams with
  | None => []
  | Some s =>
      match distance s, time s with
      | Some dist, Some time =>
          if (List.length dist =? List.length time)%nat then
            splits (loopRun dist time (heartrate s) (watts s) mode
                      (List.length dist))
          else []
      | _, _ => []
      end
  end.

(** [typeof s.secPerKm === "number" && Number.isFinite(s.secPerKm)] *)
Definition validPace (s : Split) : bool := Number_isFinite (secPerKm s).

(** The number read by [b.secPerKm] on a split kept by [validPace]. *)
Definition paceOf (s : Split) : float :=
  match secPerKm s with
  | Number x => x
  | _ => nan
  end.

(** [avg(arr)]: [arr.reduce((a, b) => a + b.secPerKm, 0) / arr.length] *)
Definition avgPace (arr : list Split) : float :=
  div (fold_left (fun a b => add a (paceOf b)) arr zero)
    (of_nat (List.length arr)).

(** [pacingInsight(splits)] *)
Definition pacingInsight (splits : list Split)
  : option StreamAnalysis.Insight :=
  if (List.length splits <? 4)%nat then None
  else
    let valid := filter validPace splits in
    if (List.length valid <? 4)%nat then None
    else
      let mid := (List.length valid / 2)%nat in
      let first := avgPace (slice 0 mid valid) in
      let second := avgPace (slice_from mid valid) in
      let diff := sub second first in
      if ltb (abs diff) (of_Z 5) then Some StreamAnalysis.Stable
      else if ltb diff zero then Some StreamAnalysis.NegativeSplit
      else Some StreamAnalysis.Fade.

End StreamAnalysis64.

(* ================================================================== *)
(** ** storage/store.js: the historical match in binary64 *)
(* ================================================================== *)

Module Store64.
Import Binary64.

(** The fields of [record.activity] read by the matcher.  A missing
    [id], [type] or start date is [None]; a record without an [activity]
    object reads as one without [id]. *)
Record Activity : Type := mkActivity {
  id : option Z;
  type : option string;
  start_date : option string;
  start_date_local : option string;
  distance_m : value
}.

Record StoreRecord : Type := mkRecord {
  activity : Activity
}.

Section Matcher.
(** The time value of [new Date(s)] for a string [s], [None] for an
    invalid date. *)
Variable Date_parse : string -> option Z.

(** [new Date(a.start_date_local ?? a.start_date ?? dflt).getTime()],
    [None] for [NaN]. *)
Definition startTime (a : Activity) (dflt : Z) : option Z :=
  match start_date_local a with
  | Some s => Date_parse s
  | None =>
      match start_date a with
      | Some s => Date_parse s
      | None => Some dflt
      end
  end.

(** [r?.activity?.id && r.activity.id !== current.activity.id] *)
Definition otherId (current r : StoreRecord) : bool :=
  match id (activity r) with
  | Some i => negb (i =? 0)%Z
              && negb (Store.option_eqb Z.eqb (Some i) (id (activity current)))
  | None => false
  end.

(** [r?.activity?.type === curType] *)
Definition sameType (curType : option string) (r : StoreRecord) : bool :=
  Store.option_eqb String.eqb (type (activity r)) curType.

Definition inWindow (startMin startMax : Z) (r : StoreRecord) : bool :=
  match startTime (activity r) 0 with
  | None => false
  | Some dt => (startMin <=? dt)%Z && (dt <=? startMax)%Z
  end.

(** The distance filter:
    [Math.abs(d - curDist) / curDist <= 0.2] on numbers. *)
Definition similarDistance (curDist : option float) (r : StoreRecord) : bool :=
  match curDist with
  | None => true
  | Some c =>
      match safeNum (distance_m (activity r)) with
      | None => false
      | Some d =>
          if leb d zero then false
          else leb (div (abs (sub d c)) c) (decimal 2 10)
      end
  end.

(** The comparator of the final sort, [db - da]; a [NaN] result counts
    as zero. *)
Definition newestFirst (a b : StoreRecord) : Z :=
  match startTime (activity a) 0, startTime (activity b) 0 with
  | Some da, Some db => (db - da)%Z
  | _, _ => 0%Z
  end.

(** [pickComparableLastWeek(current, history)]; [now] is the value of
    [Date.now()]. *)
Definition pickComparableLastWeek (now : Z) (current : StoreRecord)
  (history : list StoreRecord) : option StoreRecord :=
  match startTime (activity current) now with
  | None => None
  | Some curStart =>
      let startMax := (curStart - Store.week_ms)%Z in
      let startMin := (curStart - Store.fortnight_ms)%Z in
      let curType := type (activity current) in
      let curDist := safeNum (distance_m (activity current)) in
      let candidates :=
        Array_sort newestFirst
          (filter (similarDistance curDist)
             (filter (inWindow startMin startMax)
                (filter (sameType curType)
                   (filter (otherId current) history)))) in
      hd_error candidates
  end.
End Matcher.

End Store64.

(* ================================================================== *)
(** * Vocabulary for the binary64 properties *)
(* ================================================================== *)

Module SplitsSpec64.
Import Binary64 StreamAnalysis64.

(** The streams object of a well-formed activity. *)
Definition streamsOf (dist time : list float) (hr watts : option (list value))
  : option Streams :=
  Some {| distance := Some dist; time := Some time;
          heartrate := hr; watts := watts |}.

(** The loop instrumented with the pair (opening index, closing index) of
    every split it pushes: the values of [startIdx] and [i] at the push. *)
Record Trace : Type := mkTrace {
  t_nextKm : float;
  t_startIdx : nat;
  t_bounds : list (nat * nat)
}.

(** One iteration of the instrumented loop. *)
Definition traceStep (dist : list float) (tr : Trace) (i : nat) : Trace :=
  if leb (t_nextKm tr) (at_index dist i) then
    {| t_nextKm := add (t_nextKm tr) (of_Z 1000);
       t_startIdx := i;
       t_bounds := t_bounds tr ++ [(t_startIdx tr, i)] |}
  else tr.

(** The instrumented loop after the iterations [i = 0 .. n-1]. *)
Definition traceRun (dist : list float) (n : nat) : Trace :=
  fold_left (traceStep dist) (seq 0 n)
    {| t_nextKm := of_Z 1000; t_startIdx := 0%nat; t_bounds := [] |}.

(** The boundary pairs of all the splits of an activity. *)
Definition splitBounds (dist : list float) : list (nat * nat) :=
  t_bounds (traceRun dist (List.length dist)).

(** The exact length of the interval between two samples. *)
Definition exactSpan (arr : list float) (b : nat * nat) : Q :=
  toQ (at_index arr (snd b)) - toQ (at_index arr (fst b)).

(** The sum of the fields as the program would add them, from 0. *)
Definition total (xs : list float) : float := fold_left add xs zero.

(** Samples written as decimal literals with one digit after the point,
    given in tenths. *)
Definition tenths (l : list Z) : list float :=
  map (fun n => decimal n 10) l.

End SplitsSpec64.

Module PacingSpec64.
Import Binary64 StreamAnalysis64.

(** The mean pace of a list of splits, in the words of the
    specification: the sum of the pace values over their number, each
    operation rounded. *)
Definition meanPace (l : list Split) : float :=
  div (fold_left add (map paceOf l) zero) (of_nat (List.length l)).

(** The difference of the half means of four paces, second half minus
    first half. *)
Definition halfDiff (p1 p2 p3 p4 : float) : float :=
  sub (div (add (add zero p3) p4) (of_Z 2))
    (div (add (add zero p1) p2) (of_Z 2)).

(** A split of a pace-based activity with the given pace field. *)
Definition paceSplit (k : nat) (pace : value) : Split :=
  {| km := k; mode := StreamAnalysis.Pace; meters := of_Z 1000;
     seconds := of_Z 300; secPerKm := pace; speedKmh := None;
     label := EmptyString; hrAvg := None; hrMax := None; powerAvg := None |}.

(** The pace [seconds / (meters / 1000)] as [computeSplits1km] stores it,
    the metres given in tenths. *)
Definition paceFor (secs tenthsOfMeter : Z) : value :=
  Number (div (of_Z secs) (div (decimal tenthsOfMeter 10) (of_Z 1000))).

End PacingSpec64.

Module MatcherSpec64.
Import Binary64 Store64.

(** The start time of a history record, the epoch when it has no start
    date. *)
Definition startOf (Date_parse : string -> option Z) (r : StoreRecord)
  : option Z :=
  startTime Date_parse (activity r) 0.

(** The conditions a history record must meet for a current record that
    started at [curStart].  First: it has an identifier (present and not
    zero) other than the current one. *)
Definition otherIdP (current r : StoreRecord) : Prop :=
  exists i : Z, id (activity r) = Some i /\ i <> 0%Z
                /\ id (activity current) <> Some i.

(** Its type is the type of the current record. *)
Definition sameTypeP (current r : StoreRecord) : Prop :=
  type (activity r) = type (activity current).

(** Its start timestamp parses and lies 7 to 14 days before [curStart],
    bounds included. *)
Definition inWindowP (Date_parse : string -> option Z) (curStart : Z)
  (r : StoreRecord) : Prop :=
  exists dt : Z, startTime Date_parse (activity r) 0 = Some dt
                 /\ (curStart - Store.fortnight_ms <= dt
                     <= curStart - Store.week_ms)%Z.

(** When the current distance [c] is known, its distance [d] is known and
    positive and the relative deviation [|d - c| / c], computed as the
    program computes it, is at most the number [0.2]. *)
Definition similarDistanceP (current r : StoreRecord) : Prop :=
  forall c : float,
    safeNum (distance_m (activity current)) = Some c ->
    exists d : float,
      safeNum (distance_m (activity r)) = Some d
      /\ ltb zero d = true
      /\ leb (div (abs (sub d c)) c) (decimal 2 10) = true.

(** All four conditions. *)
Definition eligible (Date_parse : string -> option Z) (current : StoreRecord)
  (curStart : Z) (r : StoreRecord) : Prop :=
  otherIdP current r /\ sameTypeP current r /\ inWindowP Date_parse curStart r
  /\ similarDistanceP current r.

(** The four filters of [pickComparableLastWeek] as one test. *)
Definition passes (Date_parse : string -> option Z) (current : StoreRecord)
  (curStart : Z) (r : StoreRecord) : bool :=
  otherId current r
  && sameType (type (activity current)) r
  && inWindow Date_parse (curStart - Store.fortnight_ms)
       (curStart - Store.week_ms) r
  && similarDistance (safeNum (distance_m (activity current))) r.

(** A run with the given identifier, local start date and distance, the
    distance written in tenths of a metre. *)
Definition runAt (ident : Z) (date : string) (tenthsOfMeter : Z)
  : StoreRecord :=
  {| activity :=
       {| id := Some ident; type := Some "Run"%string;
          start_date := None; start_date_local := Some date;
          distance_m := Number (decimal tenthsOfMeter 10) |} |}.

(** A current run of 5002.0 m, and a history with runs 6, 10 and 12 days
    before it, the current run itself and a much longer run.  The run of
    4001.6 m is at the edge of the distance filter: the quotient the
    program computes is the number 0.2. *)
Definition currentRun : StoreRecord := runAt 50 "2024-03-20T07:00:00Z" 50020.

Definition pastRuns : list StoreRecord :=
  [ runAt 10 "2024-03-08T07:00:00Z" 45000;
    runAt 20 "2024-03-10T07:00:00Z" 40016;
    runAt 30 "2024-03-14T07:00:00Z" 50000;
    runAt 40 "2024-03-11T07:00:00Z" 210000;
    currentRun ].

End MatcherSpec64.

(* ================================================================== *)
(** * Properties of the JavaScript primitives *)
(* ================================================================== *)

Module JsFacts.


End JsFacts.

(* ================================================================== *)
(** * Properties of the segmenter *)
(* ================================================================== *)

Module SplitsFacts.
Import Formatters StreamAnalysis SplitsSpec JsFacts.

Lemma imap_snoc {A B : Type} (f : nat -> A -> B) (l : list A) (x : A)
  (k : nat) :
  imap f k (l ++ [x]) = imap f k l ++ [f (k + List.length l)%nat x].
Proof.
  revert k. induction l as [|y l IH]; intro k; simpl.
  - now rewrite Nat.add_0_r.
  - rewrite IH. now rewrite Nat.add_succ_r.
Qed.

Lemma imap_length {A B : Type} (f : nat -> A -> B) (l : list A) (k : nat) :
  List.length (imap f k l) = List.length l.
Proof. revert k. induction l; intro k; simpl; auto. Qed.

Lemma chained_snoc (bs : list (nat * nat)) (from s c : nat) :
  chained from bs -> s = lastClose from bs -> chained from (bs ++ [(s, c)]).
Proof.
  revert from. induction bs as [|[s' c'] bs IH]; intros from H E; simpl in *.
  - auto.
  - destruct H as [H1 H2]. split; auto.
Qed.

Lemma lastClose_snoc (bs : list (nat * nat)) (from s c : nat) :
  lastClose from (bs ++ [(s, c)]) = c.
Proof.
  revert from. induction bs as [|[s' c'] bs IH]; intro from; simpl; auto.
Qed.

Lemma sumQ_snoc (l : list Q) (x : Q) : sumQ (l ++ [x]) = sumQ l + x.
Proof. unfold sumQ. now rewrite fold_left_app. Qed.

Lemma countQ_snoc (l : list Split) (x : Split) :
  countQ (l ++ [x]) == countQ l + 1.
Proof.
  unfold countQ. rewrite length_app. simpl.
  rewrite Nat2Z.inj_add, inject_Z_plus. reflexivity.
Qed.

Section Loop.
Variables (dist time : list Q) (hr watts : option (list jsval)) (mode : Mode).

Lemma loopRun_0 : loopRun dist time hr watts mode 0 = loopInit.
Proof. reflexivity. Qed.

Lemma loopRun_S (n : nat) :
  loopRun dist time hr watts mode (S n)
  = loopStep dist time hr watts mode (loopRun dist time hr watts mode n) n.
Proof.
  unfold loopRun. rewrite seq_S, fold_left_app. reflexivity.
Qed.

Lemma traceRun_S (n : nat) :
  traceRun dist (S n) = traceStep dist (traceRun dist n) n.
Proof.
  unfold traceRun. rewrite seq_S, fold_left_app. reflexivity.
Qed.

(** The instrumented loop follows the loop: same threshold, same opening
    index, and the splits are the traced pairs closed by [closeSplit]. *)
Lemma trace_simulates (n : nat) :
  nextKm (loopRun dist time hr watts mode n) = t_nextKm (traceRun dist n)
  /\ startIdx (loopRun dist time hr watts mode n)
     = t_startIdx (traceRun dist n)
  /\ splits (loopRun dist time hr watts mode n)
     = imap (fun k b => closeSplit dist time hr watts mode k (fst b) (snd b))
         0 (t_bounds (traceRun dist n)).
Proof.
  induction n as [|n (Hk & Hs & Hsp)].
  - repeat split.
  - rewrite loopRun_S, traceRun_S. unfold loopStep, traceStep.
    rewrite <- Hk.
    destruct (Qle_bool (nextKm (loopRun dist time hr watts mode n))
                (at_index dist n)); simpl.
    + rewrite Hk, Hs. repeat split.
      rewrite imap_snoc. simpl. rewrite Hsp at 1.
      now rewrite Hsp, imap_length.
    + auto.
Qed.

(** The traced pairs form a chain from sample 0 to the current opening
    index, inside the iterations done so far. *)
Lemma trace_chain (n : nat) :
  chained 0 (t_bounds (traceRun dist n))
  /\ t_startIdx (traceRun dist n) = lastClose 0 (t_bounds (traceRun dist n))
  /\ Forall (fun b => (fst b <= snd b < n)%nat) (t_bounds (traceRun dist n))
  /\ (t_startIdx (traceRun dist n) <= n - 1)%nat.
Proof.
  induction n as [|n (Hc & Hl & Hf & Hi)].
  - simpl. repeat split; auto.
  - rewrite traceRun_S. unfold traceStep.
    destruct (Qle_bool _ _); simpl.
    + repeat split.
      * now apply chained_snoc.
      * now rewrite lastClose_snoc.
      * apply Forall_app. split.
        -- eapply Forall_impl; [|exact Hf]. simpl. intros b Hb. lia.
        -- constructor; [simpl; lia | constructor].
      * lia.
    + repeat split; auto.
      * eapply Forall_impl; [|exact Hf]. simpl. intros b Hb. lia.
      * lia.
Qed.

Lemma imap_meters (bs : list (nat * nat)) (k : nat) :
  map meters
    (imap (fun k b => closeSplit dist time hr watts mode k (fst b) (snd b))
       k bs)
  = map (fun b => at_index dist (snd b) - at_index dist (fst b)) bs.
Proof.
  revert k. induction bs as [|b bs IH]; intro k; simpl; [reflexivity|].
  now rewrite IH.
Qed.

Lemma imap_seconds (bs : list (nat * nat)) (k : nat) :
  map seconds
    (imap (fun k b => closeSplit dist time hr watts mode k (fst b) (snd b))
       k bs)
  = map (fun b => at_index time (snd b) - at_index time (fst b)) bs.
Proof.
  revert k. induction bs as [|b bs IH]; intro k; simpl; [reflexivity|].
  now rewrite IH.
Qed.
End Loop.

Lemma computeSplits1km_valid (dist time : list Q)
  (hr watts : option (list jsval)) (mode : Mode) :
  List.length dist = List.length time ->
  computeSplits1km (streamsOf dist time hr watts) mode
  = splits (loopRun dist time hr watts mode (List.length dist)).
Proof.
  intro H. unfold computeSplits1km, streamsOf. simpl.
  apply Nat.eqb_eq in H. now rewrite H.
Qed.

(** C9.  When the distance array or the time array is missing, or their
    lengths differ, [computeSplits1km] returns the empty split list.  The
    function is total on every streams object: the guard is reached through
    optional chaining only, so no path of a malformed input raises. *)
Theorem computeSplits1km_malformed_empty (streams : option Streams)
  (mode : Mode) :
  malformed streams -> computeSplits1km streams mode = [].
Proof.
  unfold malformed, computeSplits1km.
  destruct streams as [s|]; [|reflexivity].
  destruct (distance s) as [dist|], (time s) as [time|]; try reflexivity.
  intro H. apply Nat.eqb_neq in H. now rewrite H.
Qed.

Lemma computeSplits1km_malformed_empty_witness :
  malformed (Some {| distance := Some [0; 600; 1200]; time := Some [0; 180];
                     heartrate := None; watts := None |})
  /\ computeSplits1km
       (Some {| distance := Some [0; 600; 1200]; time := Some [0; 180];
                heartrate := None; watts := None |}) Pace = [].
Proof.
  split.
  - simpl. lia.
  - apply computeSplits1km_malformed_empty. simpl. lia.
Defined.

Lemma stepsWithin_at (bound : Q) (dist : list Q) (i : nat) :
  stepsWithin bound dist = true ->
  (S i < List.length dist)%nat ->
  at_index dist i <= at_index dist (S i)
  /\ at_index dist (S i) <= at_index dist i + bound.
Proof.
  revert i. induction dist as [|a rest IH]; intros i H Hi.
  - simpl in Hi. lia.
  - destruct rest as [|b rest']; [simpl in Hi; lia|].
    cbn [stepsWithin] in H.
    apply andb_true_iff in H. destruct H as [H Hrest].
    apply andb_true_iff in H. destruct H as [H1 H2].
    apply Qle_bool_iff in H1, H2.
    destruct i as [|i].
    + unfold at_index. simpl. split; assumption.
    + apply (IH i Hrest). simpl in Hi |- *. lia.
Qed.

Lemma Qfloor_unique (x : Q) (k : Z) :
  inject_Z k <= x -> x < inject_Z k + 1 -> Qfloor x = k.
Proof.
  intros Hlo Hhi. apply Z.le_antisymm.
  - assert (H : (Qfloor x < k + 1)%Z).
    { rewrite Zlt_Qlt, inject_Z_plus.
      eapply Qle_lt_trans; [apply Qfloor_le | exact Hhi]. }
    lia.
  - rewrite <- (Qfloor_Z k). now apply Qfloor_resp_le.
Qed.

Lemma Qdiv_1000 (x : Q) : x / 1000 == x * (1 # 1000).
Proof. unfold Qdiv. reflexivity. Qed.

Section Count.
Variables (dist time : list Q) (hr watts : option (list jsval)) (mode : Mode).
Hypothesis first_lo : 0 <= at_index dist 0.
Hypothesis first_hi : at_index dist 0 < 2000.
Hypothesis steps : stepsWithin 1000 dist = true.

(** After [n] iterations the threshold is one segment above the segments
    already emitted, and the last sample seen lies in the current one. *)
Lemma count_invariant (n : nat) :
  (n <= List.length dist)%nat ->
  let st := loopRun dist time hr watts mode n in
  nextKm st == 1000 * countQ (splits st) + 1000
  /\ ((0 < n)%nat ->
      1000 * countQ (splits st) <= at_index dist (n - 1)
      /\ at_index dist (n - 1) < 1000 * countQ (splits st) + 1000).
Proof.
  induction n as [|n IH]; intro Hn; cbv zeta.
  - split; [|lia]. rewrite loopRun_0. cbn [nextKm splits loopInit].
    change (countQ []) with 0. lra.
  - destruct IH as [Hk Hd]; [lia|].
    rewrite loopRun_S. unfold loopStep.
    replace (S n - 1)%nat with n by lia.
    set (st := loopRun dist time hr watts mode n) in *.
    assert (Hprev : (0 < n)%nat ->
              at_index dist (n - 1) <= at_index dist n
              /\ at_index dist n <= at_index dist (n - 1) + 1000).
    { intro Hpos.
      assert (Hi : (S (n - 1) < List.length dist)%nat) by lia.
      pose proof (stepsWithin_at 1000 dist (n - 1) steps Hi) as HH.
      replace (S (n - 1)) with n in HH by lia. exact HH. }
    destruct (Qle_bool (nextKm st) (at_index dist n)) eqn:E;
    cbn [nextKm splits].
    + apply Qle_bool_iff in E. rewrite countQ_snoc.
      split; [lra|]. intros _.
      destruct n as [|n].
      * unfold st in *. rewrite loopRun_0 in *.
        cbn [nextKm splits loopInit] in *.
        change (countQ []) with 0 in *. lra.
      * destruct Hd as [Hd1 Hd2]; [lia|].
        destruct Hprev as [Hp1 Hp2]; [lia|]. lra.
    + assert (E' : at_index dist n < nextKm st).
      { apply Qnot_le_lt. intro Hle. apply Qle_bool_iff in Hle. congruence. }
      split; [exact Hk|]. intros _.
      destruct n as [|n].
      * unfold st in *. rewrite loopRun_0 in *.
        cbn [nextKm splits loopInit] in *.
        change (countQ []) with 0 in *. lra.
      * destruct Hd as [Hd1 Hd2]; [lia|].
        destruct Hprev as [Hp1 Hp2]; [lia|]. lra.
Qed.
End Count.

(** C1 (amended).  When the distances start in [[0, 2000)], never decrease
    and advance by at most 1000 m per sample, the number of splits is the
    floor of the final cumulative distance over 1000 m; the samples after
    the last threshold reached add no split. *)
Theorem computeSplits1km_count (dist time : list Q)
  (hr watts : option (list jsval)) (mode : Mode) :
  List.length dist = List.length time ->
  0 <= at_index dist 0 ->
  at_index dist 0 < 2000 ->
  stepsWithin 1000 dist = true ->
  Z.of_nat (List.length (computeSplits1km (streamsOf dist time hr watts) mode))
  = Qfloor (totalDistance dist / 1000).
Proof.
  intros Hlen Hlo Hhi Hsteps.
  rewrite (computeSplits1km_valid _ _ _ _ _ Hlen).
  destruct (count_invariant dist time hr watts mode Hlo Hhi Hsteps
              (List.length dist) (Nat.le_refl _)) as [_ Hd].
  symmetry. unfold totalDistance.
  destruct (List.length dist) as [|n] eqn:En.
  - apply length_zero_iff_nil in En. subst dist. reflexivity.
  - destruct Hd as [Hd1 Hd2]; [lia|].
    unfold countQ in *.
    apply Qfloor_unique; rewrite Qdiv_1000; lra.
Qed.

Lemma computeSplits1km_count_witness :
  Z.of_nat (List.length
              (computeSplits1km
                 (streamsOf [0; 500; 1001; 1500; 2000; 2400]
                            [0; 150; 300; 450; 600; 720] None None) Pace))
  = Qfloor (totalDistance [0; 500; 1001; 1500; 2000; 2400] / 1000).
Proof.
  apply computeSplits1km_count.
  - reflexivity.
  - unfold at_index; simpl; lra.
  - unfold at_index; simpl; lra.
  - reflexivity.
Defined.

(** C1 as stated fails: a single sample that crosses two thresholds closes
    one split only. *)
Lemma computeSplits1km_count_counterexample :
  ~ (forall (dist time : list Q) (hr watts : option (list jsval)) (mode : Mode),
        List.length dist = List.length time ->
        Z.of_nat (List.length
                    (computeSplits1km (streamsOf dist time hr watts) mode))
        = Qfloor (totalDistance dist / 1000)).
Proof.
  intro H. specialize (H [0; 2500] [0; 100] None None Pace eq_refl).
  vm_compute in H. discriminate H.
Qed.

Section Length.
Variables (dist time : list Q) (hr watts : option (list jsval)) (mode : Mode).
Variable bound : Q.
Hypothesis first_lo : 0 <= at_index dist 0.
Hypothesis first_step : at_index dist 0 <= bound.
Hypothesis first_hi : at_index dist 0 < 1000.
Hypothesis bound_hi : bound <= 1000.
Hypothesis steps : stepsWithin bound dist = true.

End Length.




End SplitsFacts.

(* ================================================================== *)
(** * Properties of the pacing classifier *)
(* ================================================================== *)

Module PacingFacts.
Import Formatters StreamAnalysis JsFacts.

Lemma slice_0 {A : Type} (n : nat) (l : list A) : slice 0 n l = firstn n l.
Proof. unfold slice. simpl. now rewrite Nat.sub_0_r. Qed.

Lemma filter_length_le {A : Type} (f : A -> bool) (l : list A) :
  (List.length (filter f l) <= List.length l)%nat.
Proof.
  induction l as [|x l IH]; simpl; [lia|].
  destruct (f x); simpl; lia.
Qed.

Lemma Qlt_bool_false (x y : Q) : Qlt_bool x y = false <-> y <= x.
Proof.
  unfold Qlt_bool. rewrite negb_false_iff. apply Qle_bool_iff.
Qed.

End PacingFacts.

(* ================================================================== *)
(** * Properties of the delta engine *)
(* ================================================================== *)

Module DeltaFacts.
Import Formatters StreamAnalysis Store MatcherSpec.

Lemma isPaceBased_run (sport : option string) :
  isPaceBased (Some "run"%string) sport = true.
Proof. reflexivity. Qed.

Lemma avgPace_3600 :
  avgPaceSecPerKm (JNumber 10000) (JNumber 3600) = Some (3600 / (10000 / 1000)).
Proof. reflexivity. Qed.

Lemma avgPace_3660 :
  avgPaceSecPerKm (JNumber 10000) (JNumber 3660) = Some (3660 / (10000 / 1000)).
Proof. reflexivity. Qed.

(** C7.  For a current run of 3600 s over 10000 m and a matched prior run
    of 3660 s over 10000 m, [compareCurrentVsPrev] reports mode pace and a
    pace delta that is negative and equal to [3600/10 - 3660/10] seconds
    per km, of magnitude [3660/10 - 3600/10]. *)
Theorem compareCurrentVsPrev_pace_delta (current prev : StoreRecord) :
  type (activity current) = Some "run"%string ->
  type (activity prev) = Some "run"%string ->
  moving_time_s (activity current) = JNumber 3600 ->
  distance_m (activity current) = JNumber 10000 ->
  moving_time_s (activity prev) = JNumber 3660 ->
  distance_m (activity prev) = JNumber 10000 ->
  exists (c : Comparison.t) (q : Q),
    compareCurrentVsPrev current (Some prev) = Some c
    /\ Comparison.mode c = Pace
    /\ Delta.avg_pace_sec_per_km (Comparison.delta c) = Some q
    /\ q < 0
    /\ q == 3600 / 10 - 3660 / 10
    /\ Qabs q == 3660 / 10 - 3600 / 10.
Proof.
  intros Tc Tp Mc Dc Mp Dp.
  unfold compareCurrentVsPrev.
  rewrite Tc, Mc, Dc, Mp, Dp, isPaceBased_run, avgPace_3600, avgPace_3660.
  eexists. exists (3600 / (10000 / 1000) - 3660 / (10000 / 1000)).
  split; [reflexivity|]. cbn [Comparison.mode Comparison.delta
                              Delta.avg_pace_sec_per_km diff].
  split; [reflexivity|]. split; [reflexivity|].
  split; [reflexivity|]. split; reflexivity.
Qed.

Lemma compareCurrentVsPrev_pace_delta_witness :
  exists (c : Comparison.t) (q : Q),
    compareCurrentVsPrev (runOf 2 "2024-03-11T07:00:00Z" 10000 3600)
      (Some (runOf 1 "2024-03-02T07:00:00Z" 10000 3660)) = Some c
    /\ Comparison.mode c = Pace
    /\ Delta.avg_pace_sec_per_km (Comparison.delta c) = Some q
    /\ q < 0
    /\ q == 3600 / 10 - 3660 / 10
    /\ Qabs q == 3660 / 10 - 3600 / 10.
Proof.
  apply compareCurrentVsPrev_pace_delta; reflexivity.
Defined.

End DeltaFacts.

(* ================================================================== *)
(** * Properties of the historical matcher *)
(* ================================================================== *)

Module MatcherFacts.
Import Formatters StreamAnalysis Store MatcherSpec.

Lemma sort_insert_head {A : Type} (cmp : A -> A -> Z) (x : A) (l : list A) :
  hd_error (sort_insert cmp x l)
  = match hd_error l with
    | None => Some x
    | Some h => if (cmp x h <=? 0)%Z then Some x else Some h
    end.
Proof.
  destruct l as [|y l]; simpl; [reflexivity|].
  destruct (cmp x y <=? 0)%Z; reflexivity.
Qed.

Lemma Array_sort_head {A : Type} (cmp : A -> A -> Z) (l : list A) :
  hd_error (Array_sort cmp l) = sortHead cmp l.
Proof.
  induction l as [|x l IH]; simpl; [reflexivity|].
  now rewrite sort_insert_head, IH.
Qed.

Lemma sortHead_none {A : Type} (cmp : A -> A -> Z) (l : list A) :
  sortHead cmp l = None <-> l = [].
Proof.
  destruct l as [|x l]; simpl; [tauto|].
  split; [|discriminate].
  destruct (sortHead cmp l); [destruct (cmp x a <=? 0)%Z|]; discriminate.
Qed.

Lemma option_eqb_string (x y : option string) :
  option_eqb String.eqb x y = true <-> x = y.
Proof.
  destruct x as [a|], y as [b|]; simpl; split; intro H;
    try discriminate; try reflexivity.
  - apply String.eqb_eq in H. now subst.
  - inversion H. apply String.eqb_refl.
Qed.

Lemma option_eqb_Z (i : Z) (y : option Z) :
  option_eqb Z.eqb (Some i) y = true <-> y = Some i.
Proof.
  destruct y as [b|]; simpl; split; intro H; try discriminate.
  - apply Z.eqb_eq in H. now subst.
  - inversion H. apply Z.eqb_refl.
Qed.

Section Matcher.
Variable Date_parse : string -> option Z.

Lemma otherId_iff (current r : StoreRecord) :
  otherId current r = true <-> otherIdP current r.
Proof.
  unfold otherId, otherIdP. destruct (id (activity r)) as [i|].
  - rewrite andb_true_iff, !negb_true_iff. split.
    + intros [Hz Hne]. exists i. repeat split.
      * intro E. subst i. discriminate Hz.
      * intro E. apply option_eqb_Z in E. congruence.
    + intros (j & Ej & Hz & Hne). inversion Ej. subst j. split.
      * now apply Z.eqb_neq.
      * destruct (option_eqb Z.eqb (Some i) (id (activity current))) eqn:E;
          [|reflexivity].
        apply option_eqb_Z in E. contradiction.
  - split; [discriminate|]. intros (j & Ej & _). discriminate.
Qed.

Lemma inWindow_iff (curStart : Z) (r : StoreRecord) :
  inWindow Date_parse (curStart - fortnight_ms) (curStart - week_ms) r = true
  <-> inWindowP Date_parse curStart r.
Proof.
  unfold inWindow, inWindowP.
  destruct (startTime Date_parse (activity r) 0) as [dt|].
  - rewrite andb_true_iff, !Z.leb_le. split.
    + intro H. exists dt. split; [reflexivity | exact H].
    + intros (dt' & E & H). inversion E. now subst.
  - split; [discriminate|]. intros (dt' & E & _). discriminate.
Qed.

Lemma similarDistance_iff (current r : StoreRecord) :
  similarDistance (safeNum (distance_m (activity current))) r = true
  <-> similarDistanceP current r.
Proof.
  unfold similarDistance, similarDistanceP.
  destruct (safeNum (distance_m (activity current))) as [c|].
  - destruct (safeNum (distance_m (activity r))) as [d|].
    + destruct (Qle_bool d 0) eqn:Ed.
      * split; [discriminate|]. intro H.
        destruct (H c eq_refl) as (d' & E & Hpos & _). inversion E. subst d'.
        apply Qle_bool_iff in Ed. exfalso. apply (Qlt_not_le _ _ Hpos Ed).
      * assert (Hpos : 0 < d).
        { apply Qnot_le_lt. intro Hle. apply Qle_bool_iff in Hle. congruence. }
        destruct (Qeq_bool c 0) eqn:Ec.
        -- split; [discriminate|]. intro H.
           destruct (H c eq_refl) as (d' & _ & _ & Hnz & _).
           apply Qeq_bool_iff in Ec. contradiction.
        -- apply Qeq_bool_neq in Ec. rewrite Qle_bool_iff. split.
           ++ intros H c' E. inversion E. subst c'. exists d. auto.
           ++ intro H. destruct (H c eq_refl) as (d' & E & _ & _ & Hle).
              inversion E. now subst.
    + split; [discriminate|]. intro H.
      destruct (H c eq_refl) as (d' & E & _). discriminate.
  - split; [|reflexivity]. intros _ c E. discriminate.
Qed.

End Matcher.

End MatcherFacts.

(* ================================================================== *)
(** * Properties of the sort *)
(* ================================================================== *)

Module SortFacts.

Section Sort.
Context {A : Type}.
Variable cmp : A -> A -> Z.

Lemma sort_insert_perm (x : A) (l : list A) :
  Permutation (sort_insert cmp x l) (x :: l).
Proof.
  induction l as [|y l IH]; simpl; [reflexivity|].
  destruct (cmp x y <=? 0)%Z; [reflexivity|].
  rewrite IH. apply perm_swap.
Qed.

Lemma Array_sort_perm (l : list A) : Permutation (Array_sort cmp l) l.
Proof.
  induction l as [|x l IH]; simpl; [reflexivity|].
  rewrite sort_insert_perm. now apply perm_skip.
Qed.

(** An array already in order is left as it is. *)
Lemma Array_sort_sorted_id (l : list A) :
  StronglySorted (fun a b => (cmp a b <= 0)%Z) l -> Array_sort cmp l = l.
Proof.
  induction 1 as [|x l Hs IH Hx]; simpl; [reflexivity|].
  rewrite IH. destruct l as [|y l]; simpl; [reflexivity|].
  inversion Hx as [|? ? Hxy _]; subst.
  apply Z.leb_le in Hxy. now rewrite Hxy.
Qed.

(** The result is in order for every total preorder [le] that the
    comparator decides. *)
Variable le : A -> A -> Prop.
Hypothesis le_trans : forall x y z, le x y -> le y z -> le x z.
Hypothesis cmp_le : forall x y, (cmp x y <= 0)%Z -> le x y.
Hypothesis cmp_gt : forall x y, (0 < cmp x y)%Z -> le y x.

Lemma sort_insert_sorted (x : A) (l : list A) :
  StronglySorted le l -> StronglySorted le (sort_insert cmp x l).
Proof.
  induction 1 as [|y l Hs IH Hy]; simpl.
  - constructor; constructor.
  - destruct (cmp x y <=? 0)%Z eqn:E.
    + apply Z.leb_le in E. constructor; [now constructor|].
      constructor; [now apply cmp_le|].
      eapply Forall_impl; [|exact Hy]. intros z Hz.
      apply le_trans with y; [now apply cmp_le | exact Hz].
    + apply Z.leb_gt in E. constructor; [exact IH|].
      assert (Hall : Forall (le y) (x :: l))
        by (constructor; [now apply cmp_gt | exact Hy]).
      apply Forall_forall. intros z Hz.
      rewrite Forall_forall in Hall. apply Hall.
      apply (Permutation_in z (sort_insert_perm x l) Hz).
Qed.

Lemma Array_sort_sorted (l : list A) : StronglySorted le (Array_sort cmp l).
Proof.
  induction l as [|x l IH]; simpl; [constructor|].
  now apply sort_insert_sorted.
Qed.
End Sort.

Lemma sorted_app_le {A : Type} (le : A -> A -> Prop) (l1 l2 : list A) :
  StronglySorted le (l1 ++ l2) ->
  forall x y, In x l1 -> In y l2 -> le x y.
Proof.
  induction l1 as [|a l1 IH]; intros Hs x y Hx Hy; [contradiction|].
  simpl in Hs. inversion Hs as [|? ? Hs' Ha]; subst.
  destruct Hx as [E | Hx].
  - subst a. rewrite Forall_forall in Ha. apply Ha.
    apply in_or_app. now right.
  - now apply IH.
Qed.

End SortFacts.

(* ================================================================== *)
(** * Properties of the ledger *)
(* ================================================================== *)

Module LedgerFacts.
Import Ledger LedgerSpec SortFacts.

Lemma delete_in (k : string) (obj : Processed) (e : string * option Z) :
  In e (delete k obj) <-> In e obj /\ fst e <> k.
Proof.
  unfold delete. rewrite filter_In, negb_true_iff. split; intros [H1 H2].
  - split; [exact H1|]. now apply String.eqb_neq.
  - split; [exact H1|]. now apply String.eqb_neq.
Qed.

Lemma deleteAll_in (ds obj : Processed) (e : string * option Z) :
  In e (deleteAll ds obj) <-> In e obj /\ ~ In (fst e) (keys ds).
Proof.
  revert obj. induction ds as [|d ds IH]; intro obj; simpl.
  - tauto.
  - unfold deleteAll in *. simpl. rewrite IH, delete_in. split.
    + intros [[H1 H2] H3]. split; [exact H1|]. intros [E | H]; auto.
    + intros [H1 H2]. repeat split; auto.
  Qed.

Lemma deleteAll_NoDup (ds obj : Processed) :
  NoDup obj -> NoDup (deleteAll ds obj).
Proof.
  revert obj. induction ds as [|d ds IH]; intros obj H; simpl; [exact H|].
  apply IH. unfold delete. now apply NoDup_filter.
Qed.

Lemma oldestFirst_sorted (l : Processed) :
  StronglySorted olderEq (Array_sort oldestFirst l).
Proof.
  apply Array_sort_sorted; unfold olderEq, oldestFirst; intros; lia.
Qed.

Lemma keys_disjoint (l1 l2 : Processed) (x y : string * option Z) :
  NoDup (keys (l1 ++ l2)) -> In x l1 -> In y l2 -> fst x <> fst y.
Proof.
  unfold keys. induction l1 as [|a l1 IH]; intros Hnd Hx Hy; [contradiction|].
  simpl in Hnd. inversion Hnd as [|? ? Hna Hnd']; subst.
  destruct Hx as [E | Hx].
  - subst a. intro E. apply Hna. rewrite E.
    apply in_map. apply in_or_app. now right.
  - now apply IH.
Qed.

Section Prune.
Variable state : State.
Variable maxItems : nat.
Hypothesis unique_keys : NoDup (keys (processed state)).
Hypothesis too_many : (maxItems < List.length (processed state))%nat.

Lemma prune_processed :
  processed (pruneProcessed state maxItems)
  = deleteAll (firstn (toDelete state maxItems) (sorted state))
      (processed state).
Proof.
  unfold pruneProcessed.
  assert (E : (List.length (processed state) <=? maxItems)%nat = false)
    by (apply Nat.leb_gt; exact too_many).
  rewrite E. reflexivity.
Qed.

Lemma sorted_split :
  Permutation (processed state)
    (firstn (toDelete state maxItems) (sorted state)
     ++ skipn (toDelete state maxItems) (sorted state)).
Proof.
  rewrite firstn_skipn. symmetry. apply Array_sort_perm.
Qed.

(** What remains is what the sort placed after the deleted prefix. *)
Lemma prune_keeps (e : string * option Z) :
  In e (processed (pruneProcessed state maxItems))
  <-> In e (skipn (toDelete state maxItems) (sorted state)).
Proof.
  rewrite prune_processed, deleteAll_in.
  pose proof sorted_split as Hp.
  assert (Hnd : NoDup (keys (firstn (toDelete state maxItems) (sorted state)
                         ++ skipn (toDelete state maxItems) (sorted state)))).
  { unfold keys. apply (Permutation_NoDup (Permutation_map fst Hp)).
    exact unique_keys. }
  split.
  - intros [Hin Hk].
    apply (Permutation_in e Hp) in Hin. apply in_app_or in Hin.
    destruct Hin as [Hd | Hs]; [|exact Hs].
    exfalso. apply Hk. unfold keys. now apply in_map.
  - intro Hs. split.
    + apply (Permutation_in e (Permutation_sym Hp)).
      apply in_or_app. now right.
    + intro Hk. unfold keys in Hk. apply in_map_iff in Hk.
      destruct Hk as (d & Ed & Hd).
      apply (keys_disjoint _ _ d e Hnd Hd Hs). exact Ed.
Qed.

Lemma prune_length :
  List.length (processed (pruneProcessed state maxItems)) = maxItems.
Proof.
  assert (Hp : Permutation (processed (pruneProcessed state maxItems))
                 (skipn (toDelete state maxItems) (sorted state))).
  { apply NoDup_Permutation.
    - rewrite prune_processed. apply deleteAll_NoDup.
      apply (NoDup_map_inv fst). exact unique_keys.
    - pose proof sorted_split as Hs.
      assert (Hnd : NoDup (firstn (toDelete state maxItems) (sorted state)
                     ++ skipn (toDelete state maxItems) (sorted state))).
      { apply (Permutation_NoDup Hs).
        apply (NoDup_map_inv fst). exact unique_keys. }
      now apply NoDup_app_remove_l in Hnd.
    - apply prune_keeps. }
  rewrite (Permutation_length Hp), length_skipn.
  unfold sorted. rewrite (Permutation_length (Array_sort_perm _ _)).
  unfold toDelete. lia.
Qed.

Lemma prune_oldest (e e' : string * option Z) :
  In e (processed state) ->
  ~ In e (processed (pruneProcessed state maxItems)) ->
  In e' (processed (pruneProcessed state maxItems)) ->
  olderEq e e'.
Proof.
  intros Hin Hdel Hkept.
  apply prune_keeps in Hkept. rewrite prune_keeps in Hdel.
  apply (Permutation_in e sorted_split) in Hin. apply in_app_or in Hin.
  destruct Hin as [Hd | Hs]; [|contradiction].
  apply (sorted_app_le olderEq (firstn (toDelete state maxItems) (sorted state))
           (skipn (toDelete state maxItems) (sorted state))); try assumption.
  rewrite firstn_skipn. apply oldestFirst_sorted.
Qed.
End Prune.

Lemma prune_small (state : State) (maxItems : nat) :
  (List.length (processed state) <= maxItems)%nat ->
  pruneProcessed state maxItems = state.
Proof.
  intro H. unfold pruneProcessed. apply Nat.leb_le in H. now rewrite H.
Qed.

Lemma markProcessed_markWith (state : State) (m : string * Z) :
  markProcessed state (fst m) (snd m) = markWith 4000 state m.
Proof. reflexivity. Qed.

Lemma has_iff (k : string) (obj : Processed) :
  has k obj = true <-> In k (keys obj).
Proof.
  unfold has, keys. rewrite existsb_exists, in_map_iff. split.
  - intros (e & He & E). apply String.eqb_eq in E. now exists e.
  - intros (e & E & He). exists e. split; [exact He|].
    now apply String.eqb_eq.
Qed.

Lemma has_false (k : string) (obj : Processed) :
  ~ In k (keys obj) -> has k obj = false.
Proof.
  intro H. destruct (has k obj) eqn:E; [|reflexivity].
  apply has_iff in E. contradiction.
Qed.

Lemma replace_keys (k : string) (v : option Z) (obj : Processed) :
  keys (replace k v obj) = keys obj.
Proof.
  unfold keys. induction obj as [|[k' v'] obj IH]; simpl; [reflexivity|].
  destruct (String.eqb k' k) eqn:E; simpl.
  - apply String.eqb_eq in E. now subst.
  - now rewrite IH.
Qed.

Lemma insertIndex_perm (n : N) (k : string) (v : option Z) (obj : Processed) :
  Permutation (insertIndex n k v obj) ((k, v) :: obj).
Proof.
  induction obj as [|[k' v'] obj IH]; simpl; [reflexivity|].
  destruct (arrayIndex k') as [n'|]; [|reflexivity].
  destruct (n' <? n)%N; [|reflexivity].
  eapply perm_trans; [apply perm_skip; exact IH | apply perm_swap].
Qed.

(** A new key is added to the entries, at the place its kind gives it. *)
Lemma assign_fresh (k : string) (v : option Z) (obj : Processed) :
  ~ In k (keys obj) -> Permutation (assign k v obj) ((k, v) :: obj).
Proof.
  intro H. unfold assign. rewrite (has_false k obj H).
  destruct (arrayIndex k) as [n|].
  - apply insertIndex_perm.
  - symmetry. apply Permutation_cons_append.
Qed.

Lemma assign_present (k : string) (v : option Z) (obj : Processed) :
  In k (keys obj) -> keys (assign k v obj) = keys obj.
Proof.
  intro H. unfold assign. apply has_iff in H. rewrite H.
  apply replace_keys.
Qed.

Lemma assign_keys (k : string) (v : option Z) (obj : Processed) :
  NoDup (keys obj) -> NoDup (keys (assign k v obj)).
Proof.
  intro H. destruct (in_dec string_dec k (keys obj)) as [Hin | Hout].
  - now rewrite assign_present.
  - apply (Permutation_NoDup (l := k :: keys obj)).
    + symmetry. apply (Permutation_map fst (assign_fresh k v obj Hout)).
    + now constructor.
Qed.

Lemma assign_length (k : string) (v : option Z) (obj : Processed) :
  In k (keys obj) -> List.length (assign k v obj) = List.length obj.
Proof.
  intro H. pose proof (assign_present k v obj H) as E.
  apply (f_equal (@List.length string)) in E.
  unfold keys in E. now rewrite !length_map in E.
Qed.

Lemma assign_fresh_length (k : string) (v : option Z) (obj : Processed) :
  ~ In k (keys obj) -> List.length (assign k v obj) = S (List.length obj).
Proof.
  intro H. now rewrite (Permutation_length (assign_fresh k v obj H)).
Qed.

Lemma delete_absent (k : string) (obj : Processed) :
  ~ In k (keys obj) -> delete k obj = obj.
Proof.
  unfold delete.
  induction obj as [|[k' v'] obj IH]; intro H; cbn [filter fst];
    [reflexivity|].
  destruct (String.eqb k' k) eqn:E.
  - apply String.eqb_eq in E. exfalso. apply H. now left.
  - cbn [negb]. rewrite IH; [reflexivity|].
    intro Hin. apply H. now right.
Qed.

Lemma keys_entries (marks : list (string * Z)) :
  keys (map entry marks) = map fst marks.
Proof. unfold keys. rewrite map_map. reflexivity. Qed.

Lemma entry_eq_dec (a b : string * option Z) : {a = b} + {a <> b}.
Proof.
  destruct a as [ka va], b as [kb vb].
  destruct (string_dec ka kb) as [Ek | Nk];
    [|right; intro E; apply Nk; congruence].
  destruct va as [x|], vb as [y|].
  - destruct (Z.eq_dec x y) as [Ev | Nv];
      [left; congruence | right; intro E; apply Nv; congruence].
  - right. congruence.
  - right. congruence.
  - left. congruence.
Qed.

(** While the ledger has room, marking fresh identifiers only adds their
    entries. *)
Lemma markWith_room (n : nat) (marks : list (string * Z)) (state : State) :
  NoDup (keys (processed state) ++ map fst marks) ->
  (List.length (processed state) + List.length marks <= n)%nat ->
  Permutation (processed (fold_left (markWith n) marks state))
    (processed state ++ map entry marks).
Proof.
  revert state. induction marks as [|m marks IH]; intros state Hnd Hlen; simpl.
  - now rewrite app_nil_r.
  - assert (Hfresh : ~ In (fst m) (keys (processed state))).
    { intro Hin. apply NoDup_remove_2 in Hnd. apply Hnd.
      apply in_or_app. now left. }
    assert (Hstep : Permutation (processed (markWith n state m))
                      (entry m :: processed state)).
    { unfold markWith. rewrite prune_small.
      - cbn [processed]. now apply assign_fresh.
      - cbn [processed]. rewrite (assign_fresh_length _ _ _ Hfresh).
        simpl in Hlen. lia. }
    eapply perm_trans; [apply IH|].
    + apply (Permutation_NoDup
               (l := keys (processed state) ++ fst m :: map fst marks));
        [|exact Hnd].
      eapply perm_trans; [symmetry; apply Permutation_middle|].
      change (fst m :: keys (processed state) ++ map fst marks)
        with ((fst m :: keys (processed state)) ++ map fst marks).
      apply Permutation_app_tail. symmetry.
      apply (Permutation_map fst Hstep).
    + rewrite (Permutation_length Hstep). simpl in *. lia.
    + eapply perm_trans; [apply Permutation_app_tail; exact Hstep|].
      apply (Permutation_middle (processed state) (map entry marks) (entry m)).
Qed.

(** Marking one identifier more than the ledger holds, at strictly
    increasing times, evicts the first mark and nothing else. *)
Lemma markWith_overflow (n : nat) (m0 : string * Z)
  (rest : list (string * Z)) :
  List.length rest = n ->
  NoDup (map fst (m0 :: rest)) ->
  StronglySorted Z.lt (map snd (m0 :: rest)) ->
  Permutation (processed (fold_left (markWith n) (m0 :: rest) emptyState))
    (map entry rest).
Proof.
  intros Hlen Hnd Hinc.
  assert (Hne : m0 :: rest <> []) by discriminate.
  destruct (exists_last Hne) as (front & m & E).
  assert (Hfront : List.length front = n).
  { apply (f_equal (@List.length _)) in E. rewrite length_app in E.
    cbn [List.length] in E. lia. }
  rewrite E, fold_left_app. cbn [fold_left].
  set (full := fold_left (markWith n) front emptyState).
  assert (Hroom : Permutation (processed full) (map entry front)).
  { apply (markWith_room n front emptyState).
    - cbn [processed emptyState keys map app].
      rewrite E, map_app in Hnd. now apply NoDup_app_remove_r in Hnd.
    - cbn [processed emptyState List.length]. lia. }
  assert (Hfresh : ~ In (fst m) (keys (processed full))).
  { intro Hin. unfold keys in Hin.
    apply (Permutation_in _ (Permutation_map fst Hroom)) in Hin.
    change (map fst (map entry front)) with (keys (map entry front)) in Hin.
    rewrite keys_entries in Hin. rewrite E, map_app in Hnd.
    apply NoDup_remove_2 in Hnd. apply Hnd. now rewrite app_nil_r. }
  unfold markWith.
  set (st := {| lastCheckedAt := lastCheckedAt full;
                processed := assign (fst m) (Some (snd m)) (processed full) |}).
  assert (Hall : Permutation (processed st) (map entry (m0 :: rest))).
  { cbn [st processed]. eapply perm_trans; [now apply assign_fresh|].
    rewrite E, map_app. cbn [map].
    eapply perm_trans; [apply perm_skip; exact Hroom|].
    apply Permutation_cons_append. }
  assert (Hkeys : NoDup (keys (processed st))).
  { apply (Permutation_NoDup (l := map fst (m0 :: rest))); [|exact Hnd].
    rewrite <- keys_entries. symmetry. apply (Permutation_map fst Hall). }
  assert (Hmany : (n < List.length (processed st))%nat).
  { rewrite (Permutation_length Hall), length_map. cbn [List.length]. lia. }
  pose proof (prune_length st n Hkeys Hmany) as Hpl.
  assert (Hsub : forall e, In e (processed (pruneProcessed st n)) ->
                           In e (processed st)).
  { intros e He. rewrite (prune_processed st n Hmany) in He.
    apply deleteAll_in in He. tauto. }
  assert (Hlater : forall e, In e (map entry rest) ->
                             (snd m0 < stamp (snd e))%Z).
  { intros e He. apply in_map_iff in He. destruct He as (m' & <- & Hm').
    cbn [map] in Hinc. apply StronglySorted_inv in Hinc.
    destruct Hinc as [_ Hall']. rewrite Forall_forall in Hall'.
    unfold entry. cbn [snd stamp]. apply Hall'. now apply in_map. }
  assert (Hgone : ~ In (entry m0) (processed (pruneProcessed st n))).
  { intro Hin.
    assert (Hincl : incl (processed st) (processed (pruneProcessed st n))).
    { intros e He.
      destruct (in_dec entry_eq_dec e (processed (pruneProcessed st n)))
        as [Hk | Hd]; [exact Hk|]. exfalso.
      pose proof (prune_oldest st n Hkeys Hmany e (entry m0) He Hd Hin)
        as Hold.
      apply (Permutation_in _ Hall) in He. cbn [map] in He.
      destruct He as [<- | He]; [contradiction|].
      apply Hlater in He. unfold olderEq, entry in Hold.
      cbn [snd stamp] in Hold. lia. }
    apply NoDup_incl_length in Hincl;
      [lia | apply (NoDup_map_inv fst); exact Hkeys]. }
  apply NoDup_Permutation_bis.
  - rewrite (prune_processed st n Hmany). apply deleteAll_NoDup.
    apply (NoDup_map_inv fst). exact Hkeys.
  - rewrite Hpl, length_map. lia.
  - intros e He. pose proof (Hsub e He) as Hs.
    apply (Permutation_in _ Hall) in Hs. cbn [map] in Hs.
    destruct Hs as [<- | Hs]; [contradiction | exact Hs].
Qed.

Lemma olderEq_notNewer (k k' : string) (v v' : option Z) :
  olderEq (k, v) (k', v') -> notNewer v v'.
Proof.
  unfold olderEq, notNewer. cbn [snd].
  destruct v as [t|], v' as [t'|]; cbn [stamp]; intro H; try exact H.
  exact I.
Qed.

(** C5.  When the processed map holds more than [maxItems] entries,
    [pruneProcessed] leaves exactly [maxItems] of them, deletes entries
    only, and every deleted entry carries a mark time no later than the
    mark time of every entry kept (a null mark counting as time 0).  In
    particular 4001 distinct identifiers marked one after the other at
    strictly increasing times leave exactly 4000 entries: those of all the
    identifiers but the first, oldest one, whatever the order in which the
    object enumerates its keys.  A map of at most [maxItems] entries is
    left unchanged. *)
Theorem pruneProcessed_evicts_oldest :
  (forall (state : State) (maxItems : nat),
      NoDup (keys (processed state)) ->
      (maxItems < List.length (processed state))%nat ->
      let pruned := pruneProcessed state maxItems in
      List.length (processed pruned) = maxItems
      /\ (forall e, In e (processed pruned) -> In e (processed state))
      /\ (forall (k k' : string) (v v' : option Z),
             In (k, v) (processed state) ->
             ~ In (k, v) (processed pruned) ->
             In (k', v') (processed pruned) -> notNewer v v')
      /\ lastCheckedAt pruned = lastCheckedAt state)
  /\ (forall (m0 : string * Z) (rest : list (string * Z)),
         List.length rest = 4000%nat ->
         NoDup (map fst (m0 :: rest)) ->
         StronglySorted Z.lt (map snd (m0 :: rest)) ->
         let final := markAll (m0 :: rest) emptyState in
         Permutation (processed final) (map entry rest)
         /\ List.length (processed final) = 4000%nat
         /\ ~ In (fst m0) (keys (processed final)))
  /\ (forall (state : State) (maxItems : nat),
         (List.length (processed state) <= maxItems)%nat ->
         pruneProcessed state maxItems = state).
Proof.
  split; [|split].
  - intros state maxItems Hnd Hmany pruned. subst pruned.
    split; [now apply prune_length|].
    split.
    + intros e He. rewrite (prune_processed state maxItems Hmany) in He.
      apply deleteAll_in in He. tauto.
    + split.
      * intros k k' v v' Hin Hdel Hkept.
        apply (olderEq_notNewer k k').
        now apply (prune_oldest state maxItems Hnd Hmany).
      * unfold pruneProcessed.
        destruct (List.length (processed state) <=? maxItems)%nat;
          reflexivity.
  - intros m0 rest Hlen Hnd Hinc final.
    assert (Hall : Permutation (processed final) (map entry rest))
      by (apply (markWith_overflow 4000 m0 rest Hlen Hnd Hinc)).
    split; [exact Hall|]. split.
    + now rewrite (Permutation_length Hall), length_map.
    + intro Hin. unfold keys in Hin.
      apply (Permutation_in _ (Permutation_map fst Hall)) in Hin.
      change (map fst (map entry rest)) with (keys (map entry rest)) in Hin.
      rewrite keys_entries in Hin. cbn [map] in Hnd.
      now inversion Hnd.
  - exact prune_small.
Qed.

Lemma distinctb_NoDup (l : list string) : distinctb l = true -> NoDup l.
Proof.
  induction l as [|x l IH]; intro H; [constructor|].
  simpl in H. apply andb_true_iff in H. destruct H as [Hx Hl].
  constructor; [|now apply IH].
  intro Hin. apply negb_true_iff in Hx.
  assert (E : existsb (String.eqb x) l = true).
  { apply existsb_exists. exists x.
    split; [exact Hin | apply String.eqb_refl]. }
  congruence.
Qed.

Lemma increasingb_sorted (l : list Z) :
  increasingb l = true -> StronglySorted Z.lt l.
Proof.
  intro H. apply Sorted_StronglySorted; [exact Z.lt_trans|].
  induction l as [|a l IH]; [constructor|].
  destruct l as [|b l].
  - constructor; constructor.
  - cbn [increasingb] in H. apply andb_true_iff in H. destruct H as [Hab Hl].
    constructor; [now apply IH|]. constructor. now apply Z.ltb_lt.
Qed.

(** Distinct numbers have distinct decimal forms. *)
Lemma String_of_Z_of_nat_inj (i j : nat) :
  String_of_Z (Z.of_nat i) = String_of_Z (Z.of_nat j) -> i = j.
Proof.
  unfold String_of_Z. intro H.
  assert (Hnil : forall n : N, N.to_uint n <> Decimal.Nil).
  { intros [|p]; [discriminate | apply DecimalPos.Unsigned.to_uint_nonnil]. }
  assert (E : Some (N.to_uint (Z.to_N (Z.of_nat i)))
              = Some (N.to_uint (Z.to_N (Z.of_nat j)))).
  { rewrite <- (NilZero.usu _ (Hnil (Z.to_N (Z.of_nat i)))).
    rewrite <- (NilZero.usu _ (Hnil (Z.to_N (Z.of_nat j)))).
    now rewrite H. }
  inversion E as [E']. apply DecimalN.Unsigned.to_uint_inj in E'.
  apply Z2N.inj in E'; [|lia|lia]. now apply Nat2Z.inj.
Qed.

Lemma manyMarks_distinct : NoDup (map fst manyMarks).
Proof.
  unfold manyMarks. rewrite map_map.
  apply NoDup_map_NoDup_ForallPairs; [|apply seq_NoDup].
  intros i j Hi Hj E. apply in_seq in Hi, Hj.
  unfold markAt in E. cbn [fst] in E.
  assert (Bi : (Z.of_nat i < 5000)%Z) by lia.
  assert (Bj : (Z.of_nat j < 5000)%Z) by lia.
  rewrite <- (Z2Nat.id (5000 - Z.of_nat i)) in E by lia.
  rewrite <- (Z2Nat.id (5000 - Z.of_nat j)) in E by lia.
  apply String_of_Z_of_nat_inj in E. lia.
Qed.

Lemma manyMarks_cons : manyMarks = firstMark :: laterMarks.
Proof. reflexivity. Qed.

Lemma laterMarks_length : List.length laterMarks = 4000%nat.
Proof. unfold laterMarks. now rewrite length_map, length_seq. Qed.

Lemma pruneProcessed_evicts_oldest_witness :
  processed
    (pruneProcessed
       {| lastCheckedAt := 7;
          processed := [("11", Some 30); ("12", None); ("13", Some 20);
                        ("14", Some 10)]%string%Z |} 2)
  = [("11", Some 30); ("13", Some 20)]%string%Z
  /\ processed
       (markProcessed
          {| lastCheckedAt := 7;
             processed := [("7", Some 30); ("15000000001", Some 40)]
                            %string%Z |} "5" 50)
     = [("5", Some 50); ("7", Some 30); ("15000000001", Some 40)]%string%Z
  /\ List.length
       (processed
          (pruneProcessed
             {| lastCheckedAt := 7;
                processed := [("11", Some 30); ("12", None); ("13", Some 20);
                              ("14", Some 10)]%string%Z |} 2)) = 2%nat
  /\ Permutation (processed (markAll manyMarks emptyState))
       (map entry laterMarks)
  /\ List.length (processed (markAll manyMarks emptyState)) = 4000%nat
  /\ ~ In (fst firstMark) (keys (processed (markAll manyMarks emptyState)))
  /\ pruneProcessed
       {| lastCheckedAt := 7;
          processed := [("11", Some 30); ("12", None)]%string%Z |} 2
     = {| lastCheckedAt := 7;
          processed := [("11", Some 30); ("12", None)]%string%Z |}.
Proof.
  destruct pruneProcessed_evicts_oldest as (Hprune & Hmarks & Hsmall).
  split; [reflexivity|]. split; [reflexivity|].
  split; [|split].
  - apply Hprune.
    + apply distinctb_NoDup. vm_compute. reflexivity.
    + simpl. lia.
  - rewrite manyMarks_cons.
    apply (Hmarks firstMark laterMarks laterMarks_length).
    + rewrite <- manyMarks_cons. exact manyMarks_distinct.
    + apply increasingb_sorted. vm_compute. reflexivity.
  - rewrite manyMarks_cons. split; [|split].
    + apply (Hmarks firstMark laterMarks laterMarks_length).
      * rewrite <- manyMarks_cons. exact manyMarks_distinct.
      * apply increasingb_sorted. vm_compute. reflexivity.
    + apply (Hmarks firstMark laterMarks laterMarks_length).
      * rewrite <- manyMarks_cons. exact manyMarks_distinct.
      * apply increasingb_sorted. vm_compute. reflexivity.
    + apply Hsmall. simpl. lia.
Defined.

End LedgerFacts.

(* ================================================================== *)
(** * Properties of the record log *)
(* ================================================================== *)

Module LogFacts.
Import Log LogSpec.

Lemma append_assoc (a b c : string) : ((a ++ b) ++ c = a ++ (b ++ c))%string.
Proof. induction a as [|x a IH]; simpl; [reflexivity | now rewrite IH]. Qed.

Lemma append_nil_r (a : string) : (a ++ EmptyString)%string = a.
Proof. induction a as [|x a IH]; simpl; [reflexivity | now rewrite IH]. Qed.

Lemma String_split_nonnil (sep : ascii) (s : string) : String_split sep s <> [].
Proof.
  destruct s as [|c s]; simpl; [discriminate|].
  destruct (Ascii.eqb c sep); [discriminate|].
  destruct (String_split sep s); discriminate.
Qed.

(** A line followed by a line feed is the first piece of the split. *)
Lemma String_split_line (line rest : string) :
  newline_free line = true ->
  String_split LF (line ++ String LF rest)%string
  = line :: String_split LF rest.
Proof.
  induction line as [|c line IH]; intro H; simpl.
  - reflexivity.
  - simpl in H. apply andb_true_iff in H. destruct H as [Hc Hl].
    apply negb_true_iff in Hc. rewrite Hc, (IH Hl). reflexivity.
Qed.

Lemma String_split_joined (lines : list string) :
  Forall (fun l => newline_free l = true) lines ->
  String_split LF (joined lines) = lines ++ [EmptyString].
Proof.
  induction 1 as [|l lines Hl _ IH]; simpl; [reflexivity|].
  now rewrite String_split_line, IH.
Qed.

Lemma joined_snoc (lines : list string) (l : string) :
  joined (lines ++ [l]) = (joined lines ++ l ++ String LF EmptyString)%string.
Proof.
  induction lines as [|x lines IH]; simpl.
  - reflexivity.
  - rewrite IH, append_assoc. reflexivity.
Qed.

Section Codec.
Context {R : Type}.
Variable JSON_stringify : R -> string.
Variable JSON_parse : string -> option R.

Lemma writeLine_content (f : File) (e : R + string) :
  content (writeLine JSON_stringify f e)
  = (content f ++ text JSON_stringify e ++ String LF EmptyString)%string.
Proof. destruct e; reflexivity. Qed.

Lemma writeAll_snoc (es : list (R + string)) (e : R + string) (f : File) :
  writeAll JSON_stringify (es ++ [e]) f
  = writeLine JSON_stringify (writeAll JSON_stringify es f) e.
Proof. unfold writeAll. now rewrite fold_left_app. Qed.

(** The log written from scratch holds the lines, one per entry. *)
Lemma writeAll_content (es : list (R + string)) :
  content (writeAll JSON_stringify es None)
  = joined (map (text JSON_stringify) es).
Proof.
  induction es as [|e es IH] using rev_ind; [reflexivity|].
  rewrite writeAll_snoc, writeLine_content, IH, map_app. simpl.
  now rewrite joined_snoc.
Qed.

Lemma writeAll_exists (es : list (R + string)) :
  es <> [] ->
  writeAll JSON_stringify es None
  = Some (content (writeAll JSON_stringify es None)).
Proof.
  induction es as [|e es _] using rev_ind; intro H; [contradiction|].
  rewrite writeAll_snoc. destruct e; reflexivity.
Qed.

Lemma wellWritten_newline_free (es : list (R + string)) :
  Forall (wellWritten JSON_stringify JSON_parse) es ->
  Forall (fun l => newline_free l = true) (map (text JSON_stringify) es).
Proof.
  induction 1 as [|e es He _ IH]; simpl; constructor; [|exact IH].
  destruct e as [r|g]; simpl in *; [apply He | apply He].
Qed.

(** Parsing the non-empty lines gives back the records, the corrupted
    lines being skipped. *)
Lemma parseLines_records (es : list (R + string)) :
  Forall (wellWritten JSON_stringify JSON_parse) es ->
  parseLines JSON_parse (filter nonempty (map (text JSON_stringify) es))
  = records es.
Proof.
  induction 1 as [|e es He _ IH]; simpl; [reflexivity|].
  destruct e as [r|g]; simpl in *.
  - destruct He as (Hp & _ & Hne).
    destruct (JSON_stringify r) eqn:E; [contradiction|].
    simpl. rewrite Hp, IH. reflexivity.
  - destruct He as (Hp & _).
    destruct g as [|c g]; simpl; [exact IH|].
    now rewrite Hp, IH.
Qed.

Lemma filter_snoc_empty (lines : list string) :
  filter nonempty (lines ++ [EmptyString]) = filter nonempty lines.
Proof. rewrite filter_app. simpl. now rewrite app_nil_r. Qed.

Lemma readStore_all (es : list (R + string)) (limit : nat) :
  Forall (wellWritten JSON_stringify JSON_parse) es ->
  (List.length es <= limit)%nat ->
  readStore JSON_parse (writeAll JSON_stringify es None) limit = records es.
Proof.
  intros Hw Hlen.
  destruct es as [|e es]; [reflexivity|].
  rewrite writeAll_exists by discriminate.
  unfold readStore. rewrite writeAll_content.
  rewrite (String_split_joined _ (wellWritten_newline_free _ Hw)).
  rewrite filter_snoc_empty.
  set (lines := filter nonempty _).
  assert (Hl : (List.length lines <= limit)%nat).
  { unfold lines.
    pose proof (PacingFacts.filter_length_le nonempty
                  (map (text JSON_stringify) (e :: es))) as H.
    rewrite length_map in H. lia. }
  replace (List.length lines - limit)%nat with 0%nat by lia.
  unfold slice_from. cbn [skipn]. unfold lines.
  now apply parseLines_records.
Qed.
End Codec.

Lemma writeAll_appended {R : Type} (JSON_stringify : R -> string)
  (rs : list R) (f : File) :
  writeAll JSON_stringify (map inl rs) f
  = fold_left (appendStore JSON_stringify) rs f.
Proof.
  revert f. induction rs as [|r rs IH]; intro f; simpl; [reflexivity|].
  apply IH.
Qed.

Lemma records_appended {R : Type} (rs : list R) :
  records (map (@inl R string) rs) = rs.
Proof. induction rs as [|r rs IH]; simpl; [reflexivity | now rewrite IH]. Qed.

(** C6 (amended).  Appending N serializable records to a fresh log and
    reading with any [limit >= N] returns the N records in their original
    order.  When corrupted lines are written among them, reading with a
    [limit] of at least the number of lines of the log (records and
    corrupted lines together) returns all the records in their original
    order, the corrupted lines being skipped. *)
Theorem readStore_roundtrip (R : Type) (JSON_stringify : R -> string)
  (JSON_parse : string -> option R) :
  (forall (rs : list R) (limit : nat),
      Forall (serializable JSON_stringify JSON_parse) rs ->
      (List.length rs <= limit)%nat ->
      readStore JSON_parse (fold_left (appendStore JSON_stringify) rs None)
        limit = rs)
  /\ (forall (es : list (R + string)) (limit : nat),
         Forall (wellWritten JSON_stringify JSON_parse) es ->
         (List.length es <= limit)%nat ->
         readStore JSON_parse (writeAll JSON_stringify es None) limit
         = records es).
Proof.
  split.
  - intros rs limit Hs Hlen.
    rewrite <- writeAll_appended.
    rewrite readStore_all; [apply records_appended | |].
    + apply Forall_forall. intros e He. apply in_map_iff in He.
      destruct He as (r & Er & Hr). subst e. simpl.
      rewrite Forall_forall in Hs. now apply Hs.
    + now rewrite length_map.
  - intros es limit Hw Hlen. now apply readStore_all.
Qed.

Lemma serializable_nat (n : nat) :
  parseNat (stringifyNat n) = Some n ->
  newline_free (stringifyNat n) = true ->
  nonempty (stringifyNat n) = true ->
  serializable stringifyNat parseNat n.
Proof.
  intros Hp Hn He. repeat split; try assumption.
  intro E. rewrite E in He. discriminate He.
Qed.

Lemma readStore_roundtrip_witness :
  readStore parseNat
    (fold_left (appendStore stringifyNat) [7; 8; 9]%nat None) 3
  = [7; 8; 9]%nat
  /\ readStore parseNat
       (writeAll stringifyNat [inl 7; inr "{oops"%string; inl 8; inl 9]%nat
          None) 4
     = [7; 8; 9]%nat.
Proof.
  destruct (readStore_roundtrip nat stringifyNat parseNat) as [Hplain Hmixed].
  split.
  - apply Hplain; [|simpl; lia].
    repeat constructor; apply serializable_nat; reflexivity.
  - apply (Hmixed [inl 7; inr "{oops"%string; inl 8; inl 9]%nat 4%nat);
      [|simpl; lia].
    repeat constructor; try (apply serializable_nat; reflexivity).
Defined.

(** C6 as stated fails: the limit counts the lines of the log, corrupted
    ones included, so a limit equal to the number of records can cut a
    valid record off. *)
Lemma readStore_roundtrip_counterexample :
  ~ (forall (R : Type) (JSON_stringify : R -> string)
            (JSON_parse : string -> option R)
            (es : list (R + string)) (limit : nat),
        Forall (wellWritten JSON_stringify JSON_parse) es ->
        (List.length (records es) <= limit)%nat ->
        readStore JSON_parse (writeAll JSON_stringify es None) limit
        = records es).
Proof.
  intro H.
  assert (E : readStore parseNat
                (writeAll stringifyNat [inl 7; inl 8; inr "{oops"%string]%nat
                   None) 2
              = [7; 8]%nat).
  { apply (H nat stringifyNat parseNat
             [inl 7; inl 8; inr "{oops"%string]%nat 2%nat); [|simpl; lia].
    repeat constructor; try (apply serializable_nat; reflexivity). }
  vm_compute in E. discriminate E.
Qed.

End LogFacts.

(* ================================================================== *)
(** * Properties of the text formatters *)
(* ================================================================== *)

Module TextFacts.
Import Text TextSpec JsFacts.

Lemma replaceAll_flat_map (c : N) (by_ : jstring) (f : N -> jstring)
  (s : jstring) :
  replaceAll c by_ (flat_map f s) = flat_map (fun u => replaceAll c by_ (f u)) s.
Proof.
  unfold replaceAll. induction s as [|u s IH]; simpl; [reflexivity|].
  now rewrite flat_map_app, IH.
Qed.

Lemma replaceAll_one (c : N) (by_ : jstring) (u : N) :
  replaceAll c by_ [u] = if (u =? c)%N then by_ else [u].
Proof. unfold replaceAll. simpl. now rewrite app_nil_r. Qed.

(** The five replacements in sequence act on a code unit as one escape
    does: no later replacement touches an entity written earlier. *)
Lemma escape_chain_unit (u : N) :
  replaceAll APOS (lit "&#39;")
    (replaceAll QUOT (lit "&quot;")
       (replaceAll GT (lit "&gt;")
          (replaceAll LT (lit "&lt;")
             (replaceAll AMP (lit "&amp;") [u]))))
  = escapeUnit u.
Proof.
  unfold escapeUnit. rewrite replaceAll_one.
  destruct (N.eqb_spec u AMP) as [E|_]; [reflexivity|].
  rewrite replaceAll_one.
  destruct (N.eqb_spec u LT) as [E|_]; [reflexivity|].
  rewrite replaceAll_one.
  destruct (N.eqb_spec u GT) as [E|_]; [reflexivity|].
  rewrite replaceAll_one.
  destruct (N.eqb_spec u QUOT) as [E|_]; [reflexivity|].
  rewrite replaceAll_one.
  destruct (N.eqb_spec u APOS) as [E|_]; reflexivity.
Qed.

Lemma replaceAll_as_flat_map (c : N) (by_ : jstring) (s : jstring) :
  replaceAll c by_ s = flat_map (fun u => replaceAll c by_ [u]) s.
Proof.
  unfold replaceAll. apply flat_map_ext. intro u. simpl.
  now rewrite app_nil_r.
Qed.

Lemma escapeHtml_flat (s : jstring) :
  escapeHtml (Some s) = flat_map escapeUnit s.
Proof.
  unfold escapeHtml.
  rewrite (replaceAll_as_flat_map AMP), !replaceAll_flat_map.
  apply flat_map_ext. intro u. apply escape_chain_unit.
Qed.

Lemma escapeUnit_no_markup (u v : N) :
  In v (escapeUnit u) -> isMarkup v = false.
Proof.
  unfold escapeUnit.
  destruct (N.eqb_spec u AMP) as [E|Ha].
  { intro H. simpl in H.
    repeat (destruct H as [H|H]; [subst v; reflexivity|]). contradiction. }
  destruct (N.eqb_spec u LT) as [E|Hl].
  { intro H. simpl in H.
    repeat (destruct H as [H|H]; [subst v; reflexivity|]). contradiction. }
  destruct (N.eqb_spec u GT) as [E|Hg].
  { intro H. simpl in H.
    repeat (destruct H as [H|H]; [subst v; reflexivity|]). contradiction. }
  destruct (N.eqb_spec u QUOT) as [E|Hq].
  { intro H. simpl in H.
    repeat (destruct H as [H|H]; [subst v; reflexivity|]). contradiction. }
  destruct (N.eqb_spec u APOS) as [E|Hp].
  { intro H. simpl in H.
    repeat (destruct H as [H|H]; [subst v; reflexivity|]). contradiction. }
  intros [E|[]]. subst v. unfold isMarkup.
  apply N.eqb_neq in Hl, Hg, Hq, Hp. now rewrite Hl, Hg, Hq, Hp.
Qed.

(** X1.  [escapeHtml] rewrites each code unit on its own, as a single
    pass would, and its result holds no [<], [>], double quote or single
    quote; a null or undefined argument gives the empty string. *)
Theorem escapeHtml_clean (s : option jstring) :
  escapeHtml s
  = flat_map escapeUnit (match s with Some v => v | None => [] end)
  /\ Forall (fun u => isMarkup u = false) (escapeHtml s).
Proof.
  assert (E : escapeHtml s
              = flat_map escapeUnit (match s with Some v => v | None => [] end)).
  { destruct s as [v|]; [apply escapeHtml_flat | reflexivity]. }
  split; [exact E|]. rewrite E. apply Forall_forall. intros v Hv.
  apply in_flat_map in Hv. destruct Hv as (u & _ & Hu).
  now apply (escapeUnit_no_markup u).
Qed.

Lemma unescape_escapeUnit (u : N) (r : jstring) :
  unescape (escapeUnit u ++ r) = u :: unescape r.
Proof.
  unfold escapeUnit.
  destruct (N.eqb_spec u AMP) as [E|Ha]; [subst u; reflexivity|].
  destruct (N.eqb_spec u LT) as [E|Hl]; [subst u; reflexivity|].
  destruct (N.eqb_spec u GT) as [E|Hg]; [subst u; reflexivity|].
  destruct (N.eqb_spec u QUOT) as [E|Hq]; [subst u; reflexivity|].
  destruct (N.eqb_spec u APOS) as [E|Hp]; [subst u; reflexivity|].
  cbn [app unescape]. apply N.eqb_neq in Ha. now rewrite Ha.
Qed.

Lemma unescape_escapeHtml (s : jstring) : unescape (escapeHtml (Some s)) = s.
Proof.
  rewrite escapeHtml_flat. induction s as [|u s IH]; [reflexivity|].
  cbn [flat_map]. now rewrite unescape_escapeUnit, IH.
Qed.

(** X2.  [escapeHtml] loses nothing: two texts with the same escape are
    the same text, and the entities read back give the text. *)
Theorem escapeHtml_injective (s1 s2 : jstring) :
  escapeHtml (Some s1) = escapeHtml (Some s2) -> s1 = s2.
Proof.
  intro H. rewrite <- (unescape_escapeHtml s1), <- (unescape_escapeHtml s2).
  now rewrite H.
Qed.

Lemma escapeHtml_injective_witness :
  [60; 98; 62; 38]%N = lit "<b>&".
Proof.
  apply escapeHtml_injective. reflexivity.
Defined.

Lemma lastIndexOf_bound (c : N) (from : nat) (s : jstring) (k : nat) :
  lastIndexOf c from s = Some k -> (k <= from)%nat.
Proof.
  revert from k. induction s as [|u s IH]; intros from k H;
    cbn [lastIndexOf] in H; [discriminate|].
  destruct from as [|f].
  - destruct (u =? c)%N; inversion H. lia.
  - destruct (lastIndexOf c f s) as [j|] eqn:E; cbn [option_map] in H.
    + inversion H. specialize (IH f j E). lia.
    + destruct (u =? c)%N; inversion H. lia.
Qed.

(** With a positive bound, the cut is positive and not above the bound. *)
Lemma cutPoint_bounds (maxLen : nat) (rest : jstring) :
  (1 <= maxLen)%nat ->
  (1 <= cutPoint maxLen rest <= maxLen)%nat.
Proof.
  intro Hm. unfold cutPoint.
  destruct (lastIndexOf NL maxLen rest) as [k|] eqn:E; [|lia].
  apply lastIndexOf_bound in E.
  destruct (Qlt_bool _ _) eqn:El; [lia|].
  apply PacingFacts.Qlt_bool_false in El.
  split; [|exact E].
  destruct k as [|k]; [|lia]. exfalso.
  assert (H1 : inject_Z 1 <= inject_Z (Z.of_nat maxLen))
    by (rewrite <- Zle_Qle; lia).
  change (inject_Z 1) with 1 in H1.
  change (inject_Z (Z.of_nat 0)) with 0 in El. lra.
Qed.

(** With a zero bound, the cut is zero. *)
Lemma cutPoint_zero (rest : jstring) : cutPoint 0 rest = 0%nat.
Proof.
  unfold cutPoint. destruct (lastIndexOf NL 0 rest) as [k|] eqn:E; [|reflexivity].
  apply lastIndexOf_bound in E. destruct (Qlt_bool _ _); lia.
Qed.

Lemma stripLeadingNL_split (s : jstring) :
  exists g, lineFeeds g /\ s = g ++ stripLeadingNL s.
Proof.
  induction s as [|u s (g & Hg & E)].
  - exists []. split; [constructor | reflexivity].
  - cbn [stripLeadingNL]. destruct (N.eqb_spec u NL) as [Eu|Hu].
    + exists (u :: g). split; [now constructor|]. cbn [app]. now rewrite <- E.
    + exists []. split; [constructor | reflexivity].
Qed.

Lemma stripLeadingNL_length (s : jstring) :
  (List.length (stripLeadingNL s) <= List.length s)%nat.
Proof.
  induction s as [|u s IH]; [simpl; lia|].
  cbn [stripLeadingNL]. destruct (u =? NL)%N; simpl in *; lia.
Qed.

Lemma stripLeadingNL_hasText (s : jstring) :
  hasText s -> hasText (stripLeadingNL s).
Proof.
  induction s as [|u s IH]; intro H; [exact H|].
  cbn [stripLeadingNL]. destruct (N.eqb_spec u NL) as [Eu|Hu]; [|exact H].
  apply IH. destruct H as (v & [E|Hv] & Hne).
  - congruence.
  - now exists v.
Qed.

Lemma interleave_snoc (parts gaps : list jstring) (p g : jstring) :
  List.length gaps = List.length parts ->
  interleave (parts ++ [p]) (gaps ++ [g]) = interleave parts gaps ++ p ++ g.
Proof.
  revert gaps. induction parts as [|q parts IH]; intros [|h gaps] H;
    try discriminate; cbn [app interleave].
  - now rewrite !app_nil_r.
  - rewrite IH by (simpl in H; lia). now rewrite <- !app_assoc.
Qed.

(** The loop, given more fuel than the rest is long, ends; it appends
    parts of 1 to [maxLen] code units and leaves a rest of at most
    [maxLen]; the parts, each followed by the line feeds dropped after it,
    and the final rest make up the rest it started from. *)
Lemma chunkLoop_ends (maxLen : nat) :
  (1 <= maxLen)%nat ->
  forall (fuel : nat) (parts : list jstring) (rest : jstring),
    (List.length rest < fuel)%nat ->
    exists (new gaps : list jstring) (rest' : jstring),
      chunkLoop fuel maxLen parts rest = Some (parts ++ new, rest')
      /\ (List.length rest' <= maxLen)%nat
      /\ Forall (fun p => (1 <= List.length p <= maxLen)%nat) new
      /\ List.length gaps = List.length new
      /\ Forall lineFeeds gaps
      /\ rest = interleave new gaps ++ rest'.
Proof.
  intro Hm. induction fuel as [|fuel IH]; intros parts rest Hf; [lia|].
  cbn [chunkLoop]. destruct (maxLen <? List.length rest)%nat eqn:El.
  - apply Nat.ltb_lt in El.
    pose proof (cutPoint_bounds maxLen rest Hm) as [Hc1 Hc2].
    set (cut := cutPoint maxLen rest) in *.
    destruct (stripLeadingNL_split (skipn cut rest)) as (g & Hg & Eg).
    pose proof (stripLeadingNL_length (skipn cut rest)) as Hs.
    rewrite length_skipn in Hs.
    destruct (IH (parts ++ [firstn cut rest])
                (stripLeadingNL (skipn cut rest)))
      as (new & gaps & rest' & Hrun & Hr & Hnew & Hlen & Hgaps & Erest);
      [lia|].
    exists (firstn cut rest :: new), (g :: gaps), rest'.
    rewrite Hrun, <- app_assoc. cbn [app].
    repeat split; try assumption.
    + constructor; [|exact Hnew]. rewrite length_firstn. lia.
    + simpl. now rewrite Hlen.
    + now constructor.
    + cbn [interleave]. rewrite <- !app_assoc, <- Erest, <- Eg.
      now rewrite firstn_skipn.
  - apply Nat.ltb_ge in El. exists [], [], rest.
    rewrite app_nil_r. repeat split; try assumption; constructor.
Qed.

(** X3.  For a positive [maxLen], [chunkText] ends within as many
    iterations as the text is long; a text of at most [maxLen] code units
    is returned whole, and otherwise every part, before its numbering, is
    non-empty and at most [maxLen] code units long. *)
Theorem chunkText_parts_bounded (text : jstring) (maxLen fuel : nat) :
  (1 <= maxLen)%nat ->
  (List.length text < fuel)%nat ->
  ((List.length text <= maxLen)%nat -> chunkText fuel text maxLen = Some [text])
  /\ ((maxLen < List.length text)%nat ->
      exists bodies : list jstring,
        chunkBodies fuel text maxLen = Some bodies
        /\ chunkText fuel text maxLen
           = Some (if (1 <? List.length bodies)%nat
                   then mapIndexed (numbered (List.length bodies)) 0 bodies
                   else bodies)
        /\ bodies <> []
        /\ Forall (fun p => (1 <= List.length p <= maxLen)%nat) bodies).
Proof.
  intros Hm Hf. split.
  - intro Hs. unfold chunkText. apply Nat.leb_le in Hs. now rewrite Hs.
  - intro Hl.
    destruct (chunkLoop_ends maxLen Hm fuel [] text Hf)
      as (new & gaps & rest' & Hrun & Hr & Hnew & Hlen & Hgaps & Erest).
    cbn [app] in Hrun.
    assert (Hne : new <> []).
    { intro E. subst new. destruct gaps; [|discriminate].
      cbn [interleave app] in Erest. subst rest'. lia. }
    set (bodies := match rest' with [] => new | _ :: _ => new ++ [rest'] end).
    assert (Hb : chunkBodies fuel text maxLen = Some bodies)
      by (unfold chunkBodies; now rewrite Hrun).
    exists bodies. split; [exact Hb|]. split.
    + unfold chunkText. apply Nat.leb_gt in Hl. now rewrite Hl, Hb.
    + unfold bodies. destruct rest' as [|u r]; [now split|]. split.
      * intro E. now apply app_eq_nil in E.
      * apply Forall_app. split; [exact Hnew|].
        constructor; [|constructor]. simpl in *. lia.
Qed.

Lemma chunkText_parts_bounded_witness :
  chunkText 12 (lit "ab" ++ [NL] ++ lit "cdef") 3
  = Some [lit "<b>(1/3)</b>" ++ [NL] ++ lit "ab";
          lit "<b>(2/3)</b>" ++ [NL] ++ lit "cde";
          lit "<b>(3/3)</b>" ++ [NL] ++ lit "f"]
  /\ exists bodies : list jstring,
       chunkBodies 12 (lit "ab" ++ [NL] ++ lit "cdef") 3 = Some bodies
       /\ Forall (fun p => (1 <= List.length p <= 3)%nat) bodies.
Proof.
  split; [reflexivity|].
  destruct (chunkText_parts_bounded (lit "ab" ++ [NL] ++ lit "cdef") 3 12)
    as [_ H]; [lia | simpl; lia |].
  destruct H as (bodies & Hb & _ & _ & Hall); [simpl; lia|].
  exists bodies. now split.
Defined.

(** X4.  Nothing but line feeds is dropped by [chunkText]: for a positive
    [maxLen] the part bodies, in order, each followed by a run of line
    feeds (the ones removed at its cut, possibly none), make up the
    text. *)
Theorem chunkText_rebuilds (text : jstring) (maxLen fuel : nat) :
  (1 <= maxLen)%nat ->
  (List.length text < fuel)%nat ->
  exists bodies gaps : list jstring,
    chunkBodies fuel text maxLen = Some bodies
    /\ List.length gaps = List.length bodies
    /\ Forall lineFeeds gaps
    /\ text = interleave bodies gaps.
Proof.
  intros Hm Hf.
  destruct (chunkLoop_ends maxLen Hm fuel [] text Hf)
    as (new & gaps & rest' & Hrun & Hr & Hnew & Hlen & Hgaps & Erest).
  cbn [app] in Hrun. unfold chunkBodies. rewrite Hrun.
  destruct rest' as [|u r].
  - exists new, gaps. rewrite app_nil_r in Erest. now repeat split.
  - exists (new ++ [u :: r]), (gaps ++ [[]]). split; [reflexivity|].
    split; [rewrite !length_app; simpl; lia|]. split.
    + apply Forall_app. split; [exact Hgaps|]. repeat constructor.
    + rewrite interleave_snoc by exact Hlen. now rewrite app_nil_r.
Qed.

Lemma chunkText_rebuilds_witness :
  exists bodies gaps : list jstring,
    chunkBodies 12 (lit "ab" ++ [NL] ++ lit "cdef") 3 = Some bodies
    /\ List.length gaps = List.length bodies
    /\ Forall lineFeeds gaps
    /\ lit "ab" ++ [NL] ++ lit "cdef" = interleave bodies gaps.
Proof.
  apply chunkText_rebuilds; [lia | simpl; lia].
Defined.

(** With a zero bound the loop makes no progress on a rest that holds
    anything but line feeds. *)
Lemma chunkLoop_zero_diverges (fuel : nat) :
  forall (parts : list jstring) (rest : jstring),
    hasText rest -> chunkLoop fuel 0 parts rest = None.
Proof.
  induction fuel as [|fuel IH]; intros parts rest H; [reflexivity|].
  cbn [chunkLoop].
  assert (El : (0 <? List.length rest)%nat = true).
  { apply Nat.ltb_lt. destruct H as (u & Hu & _).
    destruct rest; [contradiction | simpl; lia]. }
  rewrite El, cutPoint_zero. cbn [skipn]. apply IH.
  now apply stripLeadingNL_hasText.
Qed.

(** X5.  With [maxLen = 0] and a text holding anything but line feeds,
    the loop of [chunkText] never ends: no number of iterations gives a
    result. *)
Theorem chunkText_zero_never_ends (text : jstring) (fuel : nat) :
  hasText text -> chunkText fuel text 0 = None.
Proof.
  intro H. unfold chunkText.
  assert (El : (List.length text <=? 0)%nat = false).
  { apply Nat.leb_gt. destruct H as (u & Hu & _).
    destruct text; [contradiction | simpl; lia]. }
  rewrite El. unfold chunkBodies.
  now rewrite (chunkLoop_zero_diverges fuel [] text H).
Qed.

Lemma chunkText_zero_never_ends_witness :
  chunkText 1000 (lit "hello") 0 = None.
Proof.
  apply chunkText_zero_never_ends. exists 104%N. split.
  - simpl. now left.
  - discriminate.
Defined.

End TextFacts.

(* ================================================================== *)
(** * Properties of the number formatters *)
(* ================================================================== *)

Module DisplayFacts.
Import Formatters Display.

Lemma Qdiv_const (x : Q) (k : positive) :
  x / inject_Z (Zpos k) == x * (1 # k).
Proof. unfold Qdiv. reflexivity. Qed.

(** Below and above the floor of a quotient by a positive constant. *)
Lemma floor_div_bounds (x : Q) (k : positive) :
  inject_Z (Zpos k) * inject_Z (Qfloor (x / inject_Z (Zpos k))) <= x
  /\ x < inject_Z (Zpos k) * inject_Z (Qfloor (x / inject_Z (Zpos k)))
         + inject_Z (Zpos k).
Proof.
  pose proof (Qfloor_le (x / inject_Z (Zpos k))) as Hlo.
  pose proof (Qlt_floor (x / inject_Z (Zpos k))) as Hhi.
  rewrite inject_Z_plus in Hhi. change (inject_Z 1) with 1 in Hhi.
  assert (Hk : 0 < inject_Z (Zpos k)) by reflexivity.
  assert (Ex : x == inject_Z (Zpos k) * (x / inject_Z (Zpos k))).
  { rewrite Qmult_div_r; [reflexivity|]. intro E. rewrite E in Hk.
    apply (Qlt_irrefl 0 Hk). }
  set (q := x / inject_Z (Zpos k)) in *.
  set (f := inject_Z (Qfloor q)) in *.
  split.
  - apply Qle_trans with (inject_Z (Z.pos k) * q).
    + apply Qmult_le_l; assumption.
    + rewrite <- Ex. apply Qle_refl.
  - apply Qle_lt_trans with (inject_Z (Z.pos k) * q).
    + rewrite <- Ex. apply Qle_refl.
    + setoid_replace (inject_Z (Z.pos k) * f + inject_Z (Z.pos k))
        with (inject_Z (Z.pos k) * (f + 1)) by ring.
      apply Qmult_lt_l; assumption.
Qed.

Lemma Qnum_nonneg (x : Q) : 0 <= x -> (0 <= Qnum x)%Z.
Proof. unfold Qle. simpl. lia. Qed.

Lemma Qtrunc_nonneg (x : Q) : 0 <= x -> Qtrunc x = Qfloor x.
Proof.
  intro H. destruct x as [n d]. unfold Qtrunc, Qfloor. cbn [Qnum Qden].
  apply Qnum_nonneg in H. cbn [Qnum] in H.
  apply Z.quot_div_nonneg; lia.
Qed.

Lemma Qdiv_nonneg (x : Q) (k : positive) :
  0 <= x -> 0 <= x / inject_Z (Zpos k).
Proof. intro H. rewrite Qdiv_const. apply Qmult_le_0_compat; [exact H|]. discriminate. Qed.

(** The remainder of a non-negative number by a positive constant. *)
Lemma js_rem_nonneg (x : Q) (k : positive) :
  0 <= x ->
  js_rem x (inject_Z (Zpos k))
  = x - inject_Z (Zpos k) * inject_Z (Qfloor (x / inject_Z (Zpos k))).
Proof.
  intro H. unfold js_rem. now rewrite (Qtrunc_nonneg _ (Qdiv_nonneg x k H)).
Qed.

Lemma Math_round_bounds (x : Q) :
  x - (1 # 2) < inject_Z (Math_round x) /\ inject_Z (Math_round x) <= x + (1 # 2).
Proof.
  unfold Math_round.
  pose proof (Qfloor_le (x + (1 # 2))) as Hlo.
  pose proof (Qlt_floor (x + (1 # 2))) as Hhi.
  rewrite inject_Z_plus in Hhi. change (inject_Z 1) with 1 in Hhi.
  split; lra.
Qed.

(** An integer strictly between [lo - 1] and [hi + 1], all integers. *)
Lemma between_integers (z lo hi : Z) (x : Q) :
  inject_Z lo <= x -> x < inject_Z hi ->
  inject_Z z <= x -> x < inject_Z z + 1 ->
  (lo <= z < hi)%Z.
Proof.
  intros H1 H2 H3 H4. split.
  - assert (H : inject_Z lo < inject_Z (z + 1))
      by (rewrite inject_Z_plus; change (inject_Z 1) with 1; lra).
    rewrite <- Zlt_Qlt in H. lia.
  - rewrite Zlt_Qlt. lra.
Qed.

(** The parts shown for a non-negative duration. *)
Lemma hms_parts (sec : Q) :
  0 <= sec ->
  let h := Math_floor (sec / 3600) in
  let m := Math_floor (js_rem sec 3600 / 60) in
  let s := Math_round (js_rem sec 60) in
  (0 <= h)%Z /\ (0 <= m <= 59)%Z /\ (0 <= s <= 60)%Z
  /\ sec - (1 # 2) < inject_Z (3600 * h + 60 * m + s)
  /\ inject_Z (3600 * h + 60 * m + s) <= sec + (1 # 2).
Proof.
  intros Hsec h m s.
  change 3600 with (inject_Z (Zpos 3600)) in h, m.
  change 60 with (inject_Z (Zpos 60)) in m, s.
  unfold Math_floor in h, m.
  pose proof (floor_div_bounds sec 3600) as [Hh1 Hh2]. fold h in Hh1, Hh2.
  pose proof (floor_div_bounds sec 60) as [Hk1 Hk2].
  set (k := Qfloor (sec / inject_Z (Zpos 60))) in *.
  assert (Er1 : js_rem sec (inject_Z (Zpos 3600))
                == sec - inject_Z (Zpos 3600) * inject_Z h).
  { rewrite (js_rem_nonneg sec 3600 Hsec). reflexivity. }
  assert (Er2 : js_rem sec (inject_Z (Zpos 60))
                == sec - inject_Z (Zpos 60) * inject_Z k).
  { rewrite (js_rem_nonneg sec 60 Hsec). reflexivity. }
  pose proof (floor_div_bounds (js_rem sec (inject_Z (Zpos 3600))) 60)
    as [Hm1 Hm2].
  fold m in Hm1, Hm2. rewrite Er1 in Hm1, Hm2.
  pose proof (Math_round_bounds (js_rem sec (inject_Z (Zpos 60)))) as [Hs1 Hs2].
  fold s in Hs1, Hs2. rewrite Er2 in Hs1, Hs2.
  change (inject_Z (Zpos 3600)) with 3600 in *.
  change (inject_Z (Zpos 60)) with 60 in *.
  (* the minutes of the hour and the hours make up the whole minutes *)
  assert (Ek : k = (60 * h + m)%Z).
  { assert (Hb : (60 * h + m <= k < 60 * h + m + 1)%Z).
    { apply (between_integers k (60 * h + m) (60 * h + m + 1) (sec * (1 # 60))).
      - rewrite inject_Z_plus, inject_Z_mult.
        change (inject_Z 60) with 60. lra.
      - rewrite !inject_Z_plus, inject_Z_mult.
        change (inject_Z 60) with 60. change (inject_Z 1) with 1. lra.
      - lra.
      - lra. }
    lia. }
  assert (Hh : (0 <= h)%Z).
  { assert (Hx : inject_Z (-1) < inject_Z h)
      by (change (inject_Z (-1)) with (-1); lra).
    rewrite <- Zlt_Qlt in Hx. lia. }
  assert (Hm : (0 <= m <= 59)%Z).
  { assert (Hb : (0 <= m < 60)%Z).
    { apply (between_integers m 0 60 ((sec - 3600 * inject_Z h) * (1 # 60))).
      - change (inject_Z 0) with 0. lra.
      - change (inject_Z 60) with 60. lra.
      - lra.
      - lra. }
    lia. }
  assert (Hs : (0 <= s <= 60)%Z).
  { split.
    - assert (Hx : inject_Z (-1) < inject_Z s)
        by (change (inject_Z (-1)) with (-1); lra).
      rewrite <- Zlt_Qlt in Hx. lia.
    - assert (Hx : inject_Z s < inject_Z 61)
        by (change (inject_Z 61) with 61; lra).
      rewrite <- Zlt_Qlt in Hx. lia. }
  repeat split; try lia.
  - replace (3600 * h + 60 * m + s)%Z with (60 * k + s)%Z by lia.
    rewrite inject_Z_plus, inject_Z_mult. change (inject_Z 60) with 60. lra.
  - replace (3600 * h + 60 * m + s)%Z with (60 * k + s)%Z by lia.
    rewrite inject_Z_plus, inject_Z_mult. change (inject_Z 60) with 60. lra.
Qed.

(** X6.  For a non-negative duration [secToHMS] shows hours (left out when
    zero), minutes from 0 to 59 and seconds from 0 to 60, and the time
    shown is within half a second of the duration. *)
Theorem secToHMS_accurate (sec : Q) :
  0 <= sec ->
  exists h m s : Z,
    secToHMS (Some sec)
    = (if (0 <? h)%Z
       then (String_of_int h ++ ":" ++ padStart2 (String_of_int m) ++ ":"
             ++ padStart2 (String_of_int s))%string
       else (String_of_int m ++ ":" ++ padStart2 (String_of_int s))%string)
    /\ (0 <= h)%Z /\ (0 <= m <= 59)%Z /\ (0 <= s <= 60)%Z
    /\ ((0 <? h)%Z = false -> h = 0%Z)
    /\ sec - (1 # 2) < inject_Z (3600 * h + 60 * m + s)
    /\ inject_Z (3600 * h + 60 * m + s) <= sec + (1 # 2).
Proof.
  intro Hsec. destruct (hms_parts sec Hsec) as (Hh & Hm & Hs & Hlo & Hhi).
  exists (Math_floor (sec / 3600)), (Math_floor (js_rem sec 3600 / 60)),
    (Math_round (js_rem sec 60)).
  split; [reflexivity|]. repeat split; try assumption; try lia.
Qed.

Lemma secToHMS_accurate_witness :
  secToHMS (Some (37255 # 10)) = "1:02:06"%string
  /\ exists h m s : Z,
       (0 <= m <= 59)%Z /\ (0 <= s <= 60)%Z
       /\ (37255 # 10) - (1 # 2) < inject_Z (3600 * h + 60 * m + s)
       /\ inject_Z (3600 * h + 60 * m + s) <= (37255 # 10) + (1 # 2).
Proof.
  split; [reflexivity|].
  destruct (secToHMS_accurate (37255 # 10)) as (h & m & s & H);
    [discriminate|].
  exists h, m, s. tauto.
Defined.

(** X7.  For a positive pace [secToPace] shows whole minutes and seconds
    from 0 to 60, within half a second of the pace; it shows [n/d] for a
    pace that is zero, negative or not a finite number. *)
Theorem secToPace_accurate :
  secToPace None = "n/d"%string
  /\ (forall x : Q, x <= 0 -> secToPace (Some x) = "n/d"%string)
  /\ (forall x : Q,
         0 < x ->
         exists m s : Z,
           secToPace (Some x)
           = (String_of_Z m ++ ":" ++ padStart2 (String_of_Z s) ++ "/km")%string
           /\ (0 <= m)%Z /\ (0 <= s <= 60)%Z
           /\ x - (1 # 2) < inject_Z (60 * m + s)
           /\ inject_Z (60 * m + s) <= x + (1 # 2)).
Proof.
  split; [reflexivity|]. split.
  - intros x Hx. unfold secToPace. apply Qle_bool_iff in Hx. now rewrite Hx.
  - intros x Hx.
    exists (Math_floor (x / 60)),
      (Math_round (x - inject_Z (60 * Math_floor (x / 60)))).
    assert (E : Qle_bool x 0 = false).
    { destruct (Qle_bool x 0) eqn:E; [|reflexivity].
      apply Qle_bool_iff in E. exfalso. apply (Qlt_not_le _ _ Hx E). }
    split; [unfold secToPace; now rewrite E|].
    unfold Math_floor.
    change 60 with (inject_Z (Zpos 60)).
    pose proof (floor_div_bounds x 60) as [Hk1 Hk2].
    set (k := Qfloor (x / inject_Z (Zpos 60))) in *.
    pose proof (Math_round_bounds (x - inject_Z (60 * k))) as [Hs1 Hs2].
    set (s := Math_round (x - inject_Z (60 * k))) in *.
    rewrite inject_Z_mult in Hs1, Hs2.
    change (inject_Z (Zpos 60)) with 60 in *. change (inject_Z 60) with 60 in *.
    assert (Hk : (0 <= k)%Z).
    { assert (Hx' : inject_Z (-1) < inject_Z k)
        by (change (inject_Z (-1)) with (-1); lra).
      rewrite <- Zlt_Qlt in Hx'. lia. }
    assert (Hs : (0 <= s <= 60)%Z).
    { split.
      - assert (Hx' : inject_Z (-1) < inject_Z s)
          by (change (inject_Z (-1)) with (-1); lra).
        rewrite <- Zlt_Qlt in Hx'. lia.
      - assert (Hx' : inject_Z s < inject_Z 61)
          by (change (inject_Z 61) with 61; lra).
        rewrite <- Zlt_Qlt in Hx'. lia. }
    repeat split; try lia.
    + rewrite inject_Z_plus, inject_Z_mult. change (inject_Z 60) with 60. lra.
    + rewrite inject_Z_plus, inject_Z_mult. change (inject_Z 60) with 60. lra.
Qed.

Lemma secToPace_accurate_witness :
  secToPace (Some (-3)) = "n/d"%string
  /\ exists m s : Z,
       secToPace (Some (2997 # 10))
       = (String_of_Z m ++ ":" ++ padStart2 (String_of_Z s) ++ "/km")%string
       /\ (0 <= s <= 60)%Z.
Proof.
  destruct secToPace_accurate as (_ & Hneg & Hpos). split.
  - apply Hneg. discriminate.
  - destruct (Hpos (2997 # 10)) as (m & s & H); [reflexivity|].
    exists m, s. tauto.
Defined.

End DisplayFacts.

(* ================================================================== *)
(** * Properties of the sample statistics and the averages *)
(* ================================================================== *)

Module StatsFacts.
Import Formatters StreamAnalysis.




Lemma fold_plus_acc (xs : list Q) (acc : Q) :
  fold_left Qplus xs acc == acc + sumQ xs.
Proof.
  unfold sumQ. revert acc. induction xs as [|x xs IH]; intro acc; simpl.
  - lra.
  - rewrite (IH (acc + x)), (IH (0 + x)). lra.
Qed.

Lemma sumQ_cons (x : Q) (xs : list Q) : sumQ (x :: xs) == x + sumQ xs.
Proof. unfold sumQ at 1. simpl. rewrite fold_plus_acc. lra. Qed.










End StatsFacts.

(* ================================================================== *)
(** * Further properties of the segmenter and the classifier *)
(* ================================================================== *)

Module SplitsMoreFacts.
Import Formatters StreamAnalysis SplitsSpec SplitsMoreSpec.

Lemma imap_km (dist time : list Q) (hr watts : option (list jsval))
  (mode : Mode) (bs : list (nat * nat)) (k : nat) :
  map km
    (imap (fun k b => closeSplit dist time hr watts mode k (fst b) (snd b))
       k bs)
  = seq (k + 1) (List.length bs).
Proof.
  revert k. induction bs as [|b bs IH]; intro k; simpl; [reflexivity|].
  rewrite IH. now rewrite Nat.add_succ_l.
Qed.


(** The splits of a valid activity are splits closed by [closeSplit],
    numbered from 1. *)
Lemma splits_closed (dist time : list Q) (hr watts : option (list jsval))
  (mode : Mode) :
  List.length dist = List.length time ->
  computeSplits1km (streamsOf dist time hr watts) mode
  = imap (fun k b => closeSplit dist time hr watts mode k (fst b) (snd b))
      0 (splitBounds dist).
Proof.
  intro Hlen. rewrite (SplitsFacts.computeSplits1km_valid _ _ _ _ _ Hlen).
  apply (SplitsFacts.trace_simulates dist time hr watts mode).
Qed.

(** X11.  The ordinals of the splits of a valid activity are 1, 2, ... in
    order, with no gap and no repeat. *)
Theorem computeSplits1km_ordinals (dist time : list Q)
  (hr watts : option (list jsval)) (mode : Mode) :
  List.length dist = List.length time ->
  map km (computeSplits1km (streamsOf dist time hr watts) mode)
  = seq 1 (List.length (computeSplits1km (streamsOf dist time hr watts) mode)).
Proof.
  intro Hlen. rewrite (splits_closed _ _ _ _ _ Hlen).
  now rewrite imap_km, SplitsFacts.imap_length.
Qed.

Lemma computeSplits1km_ordinals_witness :
  map km (computeSplits1km
            (streamsOf [0; 500; 1001; 1500; 2000; 2400; 3100]
                       [0; 150; 300; 450; 600; 720; 900] None None) Speed)
  = [1; 2; 3]%nat.
Proof.
  rewrite computeSplits1km_ordinals; reflexivity.
Defined.




Lemma at_index_firstn (l : list Q) (n i : nat) :
  (i < n)%nat -> at_index (firstn n l) i = at_index l i.
Proof.
  unfold at_index. revert n i. induction l as [|x l IH]; intros n i H.
  - now rewrite firstn_nil.
  - destruct n as [|n]; [lia|]. destruct i as [|i]; [reflexivity|].
    simpl. apply IH. lia.
Qed.

Lemma slice_firstn {A : Type} (l : list A) (n s e : nat) :
  (e <= n)%nat -> slice s e (firstn n l) = slice s e l.
Proof.
  intro H. unfold slice. rewrite skipn_firstn_comm, firstn_firstn.
  f_equal. lia.
Qed.

Lemma segStats_truncated (a : option (list jsval)) (len n s i : nat) :
  aligned len a -> (n <= len)%nat -> (i < n)%nat ->
  segStats (truncated n a) n s i = segStats a len s i.
Proof.
  intros Ha Hn Hi. destruct a as [l|]; [|reflexivity].
  simpl in Ha. unfold segStats, truncated. cbn [option_map].
  rewrite length_firstn, Ha.
  replace (Init.Nat.min n len) with n by lia.
  rewrite !Nat.eqb_refl. rewrite slice_firstn by lia. reflexivity.
Qed.

Section Prefix.
Variables (dist time : list Q) (hr watts : option (list jsval)) (mode : Mode).
Variable n : nat.
Hypothesis hr_aligned : aligned (List.length dist) hr.
Hypothesis watts_aligned : aligned (List.length dist) watts.
Hypothesis in_range : (n <= List.length dist)%nat.

Lemma closeSplit_truncated (k s i : nat) :
  (s <= i)%nat -> (i < n)%nat ->
  closeSplit (firstn n dist) (firstn n time) (truncated n hr)
    (truncated n watts) mode k s i
  = closeSplit dist time hr watts mode k s i.
Proof.
  intros Hs Hi. unfold closeSplit.
  rewrite !at_index_firstn by lia.
  rewrite length_firstn. replace (Init.Nat.min n (List.length dist)) with n by lia.
  rewrite (segStats_truncated hr (List.length dist) n s i hr_aligned in_range Hi).
  rewrite (segStats_truncated watts (List.length dist) n s i watts_aligned
             in_range Hi).
  reflexivity.
Qed.

(** On the first [n] samples the loop runs as on the whole activity. *)
Lemma loopRun_truncated (k : nat) :
  (k <= n)%nat ->
  loopRun (firstn n dist) (firstn n time) (truncated n hr) (truncated n watts)
    mode k
  = loopRun dist time hr watts mode k.
Proof.
  induction k as [|k IH]; intro Hk; [reflexivity|].
  rewrite !SplitsFacts.loopRun_S, IH by lia. unfold loopStep.
  rewrite at_index_firstn by lia.
  destruct (Qle_bool _ _); [|reflexivity].
  rewrite closeSplit_truncated; [reflexivity| |lia].
  destruct (SplitsFacts.trace_simulates dist time hr watts mode k)
    as (_ & Es & _).
  destruct (SplitsFacts.trace_chain dist k) as (_ & _ & _ & Hi).
  rewrite Es. lia.
Qed.

(** Later iterations only append splits. *)
Lemma loopRun_extends (k j : nat) :
  exists later,
    splits (loopRun dist time hr watts mode (k + j))
    = splits (loopRun dist time hr watts mode k) ++ later.
Proof.
  induction j as [|j (later & E)].
  - exists []. now rewrite Nat.add_0_r, app_nil_r.
  - rewrite Nat.add_succ_r, SplitsFacts.loopRun_S. unfold loopStep.
    destruct (Qle_bool _ _); cbn [splits].
    + eexists. rewrite E, <- app_assoc. reflexivity.
    + now exists later.
Qed.
End Prefix.

(** X13.  Splits are final once emitted: the splits of the first [n]
    samples of an activity (its optional streams missing or aligned) are
    the first splits of the whole activity. *)
Theorem computeSplits1km_prefix_stable (dist time : list Q)
  (hr watts : option (list jsval)) (mode : Mode) (n : nat) :
  List.length dist = List.length time ->
  aligned (List.length dist) hr ->
  aligned (List.length dist) watts ->
  (n <= List.length dist)%nat ->
  exists later : list Split,
    computeSplits1km (streamsOf dist time hr watts) mode
    = computeSplits1km
        (streamsOf (firstn n dist) (firstn n time) (truncated n hr)
           (truncated n watts)) mode
      ++ later.
Proof.
  intros Hlen Hhr Hw Hn.
  rewrite (SplitsFacts.computeSplits1km_valid _ _ _ _ _ Hlen).
  rewrite SplitsFacts.computeSplits1km_valid
    by (rewrite !length_firstn; lia).
  rewrite length_firstn.
  replace (Init.Nat.min n (List.length dist)) with n by lia.
  rewrite (loopRun_truncated dist time hr watts mode n Hhr Hw Hn n
             (Nat.le_refl n)).
  destruct (loopRun_extends dist time hr watts mode n (List.length dist - n))
    as [later E].
  replace (n + (List.length dist - n))%nat with (List.length dist) in E by lia.
  now exists later.
Qed.

Lemma computeSplits1km_prefix_stable_witness :
  exists later : list Split,
    computeSplits1km
      (streamsOf [0; 600; 1200; 1800; 2400] [0; 200; 400; 600; 800]
         (Some [JNumber 120; JNumber 130; JNull; JNumber 150; JNumber 155])
         None) Pace
    = computeSplits1km
        (streamsOf [0; 600; 1200] [0; 200; 400]
           (Some [JNumber 120; JNumber 130; JNull]) None) Pace
      ++ later.
Proof.
  apply (computeSplits1km_prefix_stable
           [0; 600; 1200; 1800; 2400] [0; 200; 400; 600; 800]
           (Some [JNumber 120; JNumber 130; JNull; JNumber 150; JNumber 155])
           None Pace 3); simpl; try reflexivity; lia.
Defined.

Lemma filter_idempotent {A : Type} (f : A -> bool) (l : list A) :
  filter f (filter f l) = filter f l.
Proof.
  induction l as [|x l IH]; simpl; [reflexivity|].
  destruct (f x) eqn:E; simpl; [now rewrite E, IH | exact IH].
Qed.

(** X14.  [pacingInsight] looks at the splits with a finite pace only:
    removing the other splits from the list never changes its answer. *)
Theorem pacingInsight_ignores_invalid (l : list Split) :
  pacingInsight (filter validPace l) = pacingInsight l.
Proof.
  unfold pacingInsight. rewrite filter_idempotent.
  pose proof (PacingFacts.filter_length_le validPace l) as Hle.
  destruct (List.length (filter validPace l) <? 4)%nat eqn:Ev.
  - now destruct (List.length l <? 4)%nat.
  - apply Nat.ltb_ge in Ev.
    assert (El : (List.length l <? 4)%nat = false) by (apply Nat.ltb_ge; lia).
    now rewrite El.
Qed.

End SplitsMoreFacts.

(* ================================================================== *)
(** * Further properties of the record log *)
(* ================================================================== *)

Module LogMoreFacts.
Import Log LogSpec StoreMoreSpec.

Lemma String_split_app (sep : ascii) (a b : string) :
  String_split sep (a ++ String sep b)%string
  = String_split sep a ++ String_split sep b.
Proof.
  induction a as [|c a IH]; cbn [String.append String_split].
  - now rewrite Ascii.eqb_refl.
  - destruct (Ascii.eqb c sep); [now rewrite IH|].
    rewrite IH.
    destruct (String_split sep a) as [|p ps] eqn:E; [|reflexivity].
    exfalso. now apply (LogFacts.String_split_nonnil sep a).
Qed.

Section Codec.
Context {R : Type}.
Variable JSON_stringify : R -> string.
Variable JSON_parse : string -> option R.

Lemma parseLines_app (a b : list string) :
  parseLines JSON_parse (a ++ b)
  = parseLines JSON_parse a ++ parseLines JSON_parse b.
Proof.
  induction a as [|l a IH]; simpl; [reflexivity|].
  destruct (JSON_parse l); simpl; now rewrite IH.
Qed.

Lemma parseLines_length (a : list string) :
  (List.length (parseLines JSON_parse a) <= List.length a)%nat.
Proof.
  induction a as [|l a IH]; simpl; [lia|].
  destruct (JSON_parse l); simpl; lia.
Qed.

(** The non-empty lines of a log after one more record. *)
Lemma lines_after_append (f : File) (r : R) :
  lineTerminated f ->
  newline_free (JSON_stringify r) = true ->
  JSON_stringify r <> EmptyString ->
  filter nonempty
    (String_split LF (content (appendStore JSON_stringify f r)))
  = filter nonempty (String_split LF (content f)) ++ [JSON_stringify r].
Proof.
  intros Hf Hn Hne. cbn [appendStore content].
  assert (Hline : filter nonempty
                    (String_split LF
                       (JSON_stringify r ++ String LF EmptyString))
                  = [JSON_stringify r]).
  { rewrite LogFacts.String_split_line by exact Hn. cbn.
    destruct (JSON_stringify r); [contradiction | reflexivity]. }
  destruct Hf as [E | (c & E)]; rewrite E.
  - change (EmptyString ++ JSON_stringify r ++ String LF EmptyString)%string
      with (JSON_stringify r ++ String LF EmptyString)%string.
    rewrite Hline. reflexivity.
  - rewrite LogFacts.append_assoc.
    change (String LF EmptyString
            ++ JSON_stringify r ++ String LF EmptyString)%string
      with (String LF (JSON_stringify r ++ String LF EmptyString)).
    rewrite (String_split_app LF c (JSON_stringify r ++ String LF EmptyString)),
      (String_split_app LF c EmptyString), !filter_app, Hline. cbn.
    now rewrite app_nil_r.
Qed.
End Codec.

(** X15.  [readStore] never returns more than [limit] records; it returns
    none for a missing log or a zero limit. *)
Theorem readStore_bounded (R : Type) (JSON_parse : string -> option R)
  (f : File) (limit : nat) :
  (List.length (readStore JSON_parse f limit) <= limit)%nat
  /\ readStore JSON_parse None limit = []
  /\ readStore JSON_parse f 0 = [].
Proof.
  split; [|split].
  - destruct f as [c|]; [|simpl; lia]. unfold readStore, slice_from.
    eapply Nat.le_trans; [apply parseLines_length|].
    rewrite length_skipn. lia.
  - reflexivity.
  - destruct f as [c|]; [|reflexivity]. unfold readStore, slice_from.
    rewrite Nat.sub_0_r, skipn_all. reflexivity.
Qed.

(** X16.  Reading after an append: on a log that is empty or ends with a
    line feed, appending a serializable record and reading with limit
    [n + 1] gives what reading with limit [n] gave before, followed by
    the record. *)
Theorem readStore_after_append (R : Type) (JSON_stringify : R -> string)
  (JSON_parse : string -> option R) (f : File) (r : R) (n : nat) :
  lineTerminated f ->
  serializable JSON_stringify JSON_parse r ->
  readStore JSON_parse (appendStore JSON_stringify f r) (S n)
  = readStore JSON_parse f n ++ [r].
Proof.
  intros Hf (Hp & Hn & Hne).
  assert (Hold : readStore JSON_parse f n
                 = parseLines JSON_parse
                     (skipn (List.length
                               (filter nonempty (String_split LF (content f)))
                             - n)
                        (filter nonempty (String_split LF (content f))))).
  { destruct f as [c|]; [reflexivity|]. reflexivity. }
  rewrite Hold. clear Hold.
  change (readStore JSON_parse (appendStore JSON_stringify f r) (S n))
    with (parseLines JSON_parse
            (slice_from
               (List.length
                  (filter nonempty
                     (String_split LF
                        (content (appendStore JSON_stringify f r)))) - S n)
               (filter nonempty
                  (String_split LF
                     (content (appendStore JSON_stringify f r)))))).
  rewrite (lines_after_append JSON_stringify f r Hf Hn Hne).
  set (lines := filter nonempty (String_split LF (content f))).
  unfold slice_from. rewrite length_app. cbn [List.length].
  replace (List.length lines + 1 - S n)%nat with (List.length lines - n)%nat
    by lia.
  rewrite skipn_app.
  replace (List.length lines - n - List.length lines)%nat with 0%nat by lia.
  cbn [skipn]. rewrite parseLines_app. cbn [parseLines]. now rewrite Hp.
Qed.

Lemma readStore_after_append_witness :
  readStore parseNat
    (appendStore stringifyNat
       (Some ("7" ++ String LF ("{oops" ++ String LF EmptyString))%string)
       8%nat) 2
  = readStore parseNat
      (Some ("7" ++ String LF ("{oops" ++ String LF EmptyString))%string) 1
    ++ [8%nat].
Proof.
  apply readStore_after_append.
  - right. exists ("7" ++ String LF "{oops")%string. reflexivity.
  - apply LogFacts.serializable_nat; reflexivity.
Defined.

(** X17.  A larger limit only adds older records: what [readStore]
    returns for a limit is the end of what it returns for any larger
    limit. *)
Theorem readStore_limit_monotone (R : Type) (JSON_parse : string -> option R)
  (f : File) (limit1 limit2 : nat) :
  (limit1 <= limit2)%nat ->
  exists older : list R,
    readStore JSON_parse f limit2 = older ++ readStore JSON_parse f limit1.
Proof.
  intro H. destruct f as [c|]; [|now exists []].
  unfold readStore, slice_from.
  set (lines := filter nonempty (String_split LF c)).
  set (a := (List.length lines - limit2)%nat).
  set (b := (List.length lines - limit1)%nat).
  assert (Hab : (a <= b)%nat) by (unfold a, b; lia).
  exists (parseLines JSON_parse (firstn (b - a) (skipn a lines))).
  rewrite <- parseLines_app. f_equal.
  rewrite <- (firstn_skipn (b - a) (skipn a lines)) at 1. f_equal.
  rewrite skipn_skipn. f_equal. lia.
Qed.

Lemma readStore_limit_monotone_witness :
  exists older : list nat,
    readStore parseNat
      (Some ("7" ++ String LF ("8" ++ String LF ("9" ++ String LF EmptyString)))
         %string) 3
    = older
      ++ readStore parseNat
           (Some ("7" ++ String LF ("8" ++ String LF
                                      ("9" ++ String LF EmptyString)))
              %string) 1.
Proof.
  apply readStore_limit_monotone. lia.
Defined.

End LogMoreFacts.

(* ================================================================== *)
(** * Further properties of the ledger of processed identifiers *)
(* ================================================================== *)

Module LedgerMoreFacts.
Import Ledger LedgerSpec LedgerAccess MatcherSpec StoreMoreSpec.

Lemma filter_filter_and {A : Type} (f g : A -> bool) (l : list A) :
  filter f (filter g l) = filter (fun x => g x && f x) l.
Proof.
  induction l as [|x l IH]; simpl; [reflexivity|].
  destruct (g x); simpl; [destruct (f x)|]; now rewrite IH.
Qed.

Lemma filter_all {A : Type} (l : list A) : filter (fun _ => true) l = l.
Proof. induction l as [|x l IH]; simpl; [reflexivity | now rewrite IH]. Qed.

Lemma deleteAll_filter (ds obj : Processed) :
  deleteAll ds obj = filter (fun e => negb (keyIn ds (fst e))) obj.
Proof.
  revert obj. induction ds as [|d ds IH]; intro obj.
  - cbn. symmetry. apply filter_all.
  - change (deleteAll (d :: ds) obj) with (deleteAll ds (delete (fst d) obj)).
    rewrite IH. unfold delete. rewrite filter_filter_and.
    apply filter_ext. intro e. unfold keyIn. cbn [map existsb].
    now rewrite negb_orb.
Qed.

Lemma keys_filter_NoDup (f : string * option Z -> bool) (obj : Processed) :
  NoDup (keys obj) -> NoDup (keys (filter f obj)).
Proof.
  unfold keys. induction obj as [|e obj IH]; intro H; simpl; [constructor|].
  inversion H as [|? ? Hn Hnd]; subst.
  destruct (f e); simpl; [|now apply IH].
  constructor; [|now apply IH].
  intro Hin. apply Hn. apply in_map_iff in Hin.
  destruct Hin as (x & Ex & Hx). apply filter_In in Hx.
  apply in_map_iff. exists x. tauto.
Qed.

Lemma prune_bounded (state : State) (maxItems : nat) :
  NoDup (keys (processed state)) ->
  NoDup (keys (processed (pruneProcessed state maxItems)))
  /\ (List.length (processed (pruneProcessed state maxItems)) <= maxItems)%nat.
Proof.
  intro H.
  destruct (Nat.leb_spec (List.length (processed state)) maxItems) as [L | L].
  - rewrite LedgerFacts.prune_small by exact L. split; assumption.
  - split.
    + rewrite LedgerFacts.prune_processed by exact L.
      rewrite deleteAll_filter. now apply keys_filter_NoDup.
    + rewrite LedgerFacts.prune_length by assumption. lia.
Qed.

Lemma get_replace (k : string) (v : option Z) (obj : Processed) :
  In k (keys obj) -> get k (replace k v obj) = Some v.
Proof.
  unfold keys. induction obj as [|[k' v'] obj IH]; intro H; [contradiction|].
  simpl. destruct (String.eqb k' k) eqn:E; simpl.
  - now rewrite String.eqb_refl.
  - rewrite E. apply IH. destruct H as [H | H]; [|exact H].
    apply String.eqb_neq in E. contradiction.
Qed.

Lemma get_insertIndex (n : N) (k : string) (v : option Z) (obj : Processed) :
  ~ In k (keys obj) -> get k (insertIndex n k v obj) = Some v.
Proof.
  unfold keys. induction obj as [|[k' v'] obj IH]; intro H; simpl.
  - now rewrite String.eqb_refl.
  - destruct (arrayIndex k') as [n'|];
      [destruct (n' <? n)%N|]; simpl; try now rewrite String.eqb_refl.
    assert (E : String.eqb k' k = false).
    { apply String.eqb_neq. intro E. apply H. now left. }
    rewrite E. apply IH. intro Hin. apply H. now right.
Qed.

Lemma get_append (k : string) (v : option Z) (obj : Processed) :
  ~ In k (keys obj) -> get k (obj ++ [(k, v)]) = Some v.
Proof.
  unfold keys. induction obj as [|[k' v'] obj IH]; intro H; simpl.
  - now rewrite String.eqb_refl.
  - assert (E : String.eqb k' k = false).
    { apply String.eqb_neq. intro E. apply H. now left. }
    rewrite E. apply IH. intro Hin. apply H. now right.
Qed.

Lemma get_assign (k : string) (v : option Z) (obj : Processed) :
  get k (assign k v obj) = Some v.
Proof.
  unfold assign. destruct (has k obj) eqn:E.
  - apply get_replace. now apply LedgerFacts.has_iff.
  - assert (H : ~ In k (keys obj)).
    { intro H. apply LedgerFacts.has_iff in H. congruence. }
    destruct (arrayIndex k) as [n|];
      [now apply get_insertIndex | now apply get_append].
Qed.

Lemma get_delete_other (k k' : string) (obj : Processed) :
  k <> k' -> get k (delete k' obj) = get k obj.
Proof.
  intro H. unfold delete.
  induction obj as [|[a v] obj IH]; simpl; [reflexivity|].
  destruct (String.eqb a k') eqn:E; simpl.
  - apply String.eqb_eq in E. subst a.
    assert (N : String.eqb k' k = false)
      by (apply String.eqb_neq; congruence).
    now rewrite N.
  - destruct (String.eqb a k); [reflexivity | exact IH].
Qed.

(** On a ledger whose marks are all older, the entry just written is not
    the one the sort puts first. *)
Lemma oldest_not_new (obj : Processed) (key : string) (now : Z)
  (h : string * option Z) (tl : Processed) :
  obj <> [] ->
  markedBefore now obj ->
  ~ In key (keys obj) ->
  Array_sort oldestFirst (assign key (Some now) obj) = h :: tl ->
  In h obj.
Proof.
  intros Hne Hst Hout Es.
  pose proof (SortFacts.Array_sort_perm oldestFirst
                (assign key (Some now) obj)) as Hp.
  pose proof (LedgerFacts.oldestFirst_sorted (assign key (Some now) obj))
    as Hs.
  rewrite Es in Hp, Hs.
  apply StronglySorted_inv in Hs. destruct Hs as [_ Hmin].
  rewrite Forall_forall in Hmin.
  pose proof (LedgerFacts.assign_fresh key (Some now) obj Hout) as Hnew.
  assert (Hh : In h ((key, Some now) :: obj)).
  { apply (Permutation_in _ Hnew). apply (Permutation_in _ Hp). now left. }
  destruct Hh as [E | Hh]; [|exact Hh]. exfalso. subst h.
  destruct obj as [|x0 rest]; [congruence|].
  assert (Hx : In x0 ((key, Some now) :: tl)).
  { apply (Permutation_in _ (Permutation_sym Hp)).
    apply (Permutation_in _ (Permutation_sym Hnew)). right. now left. }
  destruct Hx as [E | Hx].
  - apply Hout. rewrite <- E. now left.
  - apply Hmin in Hx. unfold olderEq in Hx. cbn [snd stamp] in Hx.
    unfold markedBefore in Hst. apply Forall_inv in Hst.
    destruct (snd x0) as [t|]; cbn [stamp] in Hx; lia.
Qed.

(** X18.  [markProcessed] keeps the ledger well formed and bounded: with
    one entry per key before, there is one entry per key after, and never
    more than 4000 entries. *)
Theorem markProcessed_bounded (state : State) (key : string) (now : Z) :
  NoDup (keys (processed state)) ->
  NoDup (keys (processed (markProcessed state key now)))
  /\ (List.length (processed (markProcessed state key now)) <= 4000)%nat.
Proof.
  intro H. unfold markProcessed. apply prune_bounded.
  cbn [processed]. now apply LedgerFacts.assign_keys.
Qed.

Lemma markProcessed_bounded_witness :
  NoDup (keys (processed
                 (markProcessed
                    {| lastCheckedAt := 7;
                       processed := [("11", Some 30); ("12", None)]%string%Z |}
                    "12" 40)))
  /\ (List.length
        (processed
           (markProcessed
              {| lastCheckedAt := 7;
                 processed := [("11", Some 30); ("12", None)]%string%Z |}
              "12" 40)) <= 4000)%nat.
Proof.
  apply markProcessed_bounded.
  apply LedgerFacts.distinctb_NoDup. reflexivity.
Defined.

(** X19.  An identifier that was just marked is found: when the ledger
    holds at most 4000 entries, all of them marked before the clock
    reading [now], the entry of [key] after [markProcessed] is [now], so
    the pruning never evicts the mark it follows, wherever the object
    enumerates the key; the test [state.processed[key]] of the callers
    then succeeds unless [now] is zero. *)
Theorem markProcessed_found (state : State) (key : string) (now : Z) :
  (List.length (processed state) <= 4000)%nat ->
  markedBefore now (processed state) ->
  get key (processed (markProcessed state key now)) = Some (Some now)
  /\ (now <> 0%Z -> isProcessed (markProcessed state key now) key = true).
Proof.
  intros Hlen Hst.
  assert (G : get key (processed (markProcessed state key now))
              = Some (Some now)).
  { unfold markProcessed.
    set (st' := {| lastCheckedAt := lastCheckedAt state;
                   processed := assign key (Some now) (processed state) |}).
    destruct (Nat.leb_spec (List.length (processed st')) 4000) as [L | L].
    - rewrite LedgerFacts.prune_small by exact L. apply get_assign.
    - destruct (in_dec string_dec key (keys (processed state)))
        as [Hin | Hout].
      { exfalso. cbn [st' processed] in L.
        rewrite LedgerFacts.assign_length in L by exact Hin. lia. }
      rewrite LedgerFacts.prune_processed by exact L.
      unfold toDelete, sorted. cbn [st' processed] in *.
      rewrite (LedgerFacts.assign_fresh_length _ _ _ Hout) in *.
      replace (S (List.length (processed state)) - 4000)%nat with 1%nat
        by lia.
      destruct (Array_sort oldestFirst
                  (assign key (Some now) (processed state)))
        as [|h tl] eqn:Es.
      + cbn. apply get_assign.
      + apply oldest_not_new in Es; try assumption.
        * cbn [firstn deleteAll fold_left].
          rewrite get_delete_other; [apply get_assign|].
          intro E. apply Hout. rewrite E. unfold keys. now apply in_map.
        * intro E. rewrite E in L. cbn in L. lia. }
  split; [exact G|].
  intro Hz. unfold isProcessed. rewrite G.
  apply negb_true_iff. now apply Z.eqb_neq.
Qed.

Lemma markProcessed_found_witness :
  get "5" (processed
             (markProcessed
                {| lastCheckedAt := 7;
                   processed := [("11", Some 30); ("15000000001", None)]
                                  %string%Z |}
                "5" 40)) = Some (Some 40%Z)
  /\ (40%Z <> 0%Z ->
      isProcessed
        (markProcessed
           {| lastCheckedAt := 7;
              processed := [("11", Some 30); ("15000000001", None)]
                             %string%Z |}
           "5" 40) "5" = true).
Proof.
  apply markProcessed_found.
  - cbn. lia.
  - repeat constructor; cbn; lia.
Defined.

(** X20.  [pruneProcessed] only removes entries: what it keeps is the
    object filtered by key, so kept entries stay in their order with their
    values; and on an object with one entry per key, pruning twice with
    the same bound is pruning once. *)
Theorem pruneProcessed_stable (state : State) (maxItems : nat) :
  processed (pruneProcessed state maxItems)
  = filter (fun e => negb (keyIn (firstn (toDelete state maxItems)
                                     (sorted state)) (fst e)))
      (processed state)
  /\ (NoDup (keys (processed state)) ->
      pruneProcessed (pruneProcessed state maxItems) maxItems
      = pruneProcessed state maxItems).
Proof.
  split.
  - destruct (Nat.leb_spec (List.length (processed state)) maxItems)
      as [L | L].
    + rewrite LedgerFacts.prune_small by exact L.
      unfold toDelete.
      replace (List.length (processed state) - maxItems)%nat with 0%nat by lia.
      cbn. symmetry. apply filter_all.
    + rewrite LedgerFacts.prune_processed by exact L.
      apply deleteAll_filter.
  - intro H. apply LedgerFacts.prune_small.
    now apply prune_bounded.
Qed.

Lemma pruneProcessed_stable_witness :
  processed
    (pruneProcessed
       {| lastCheckedAt := 7;
          processed := [("11", Some 30); ("12", None); ("13", Some 20);
                        ("14", Some 10)]%string%Z |} 2)
  = [("11", Some 30); ("13", Some 20)]%string%Z
  /\ pruneProcessed
       (pruneProcessed
          {| lastCheckedAt := 7;
             processed := [("11", Some 30); ("12", None); ("13", Some 20);
                           ("14", Some 10)]%string%Z |} 2) 2
     = pruneProcessed
         {| lastCheckedAt := 7;
            processed := [("11", Some 30); ("12", None); ("13", Some 20);
                          ("14", Some 10)]%string%Z |} 2.
Proof.
  split; [reflexivity|].
  apply (pruneProcessed_stable
           {| lastCheckedAt := 7;
              processed := [("11", Some 30); ("12", None); ("13", Some 20);
                            ("14", Some 10)]%string%Z |} 2).
  apply LedgerFacts.distinctb_NoDup. reflexivity.
Defined.

End LedgerMoreFacts.

(* ================================================================== *)
(** * Further properties of the historical match *)
(* ================================================================== *)

Module MatcherMoreFacts.
Import Formatters StreamAnalysis Store MatcherSpec StoreMoreSpec.

Lemma filter_split_inv {A : Type} (f : A -> bool) (l l1 l2 : list A) (r : A) :
  filter f l = l1 ++ r :: l2 ->
  exists h1 h2 : list A,
    l = h1 ++ r :: h2 /\ filter f h1 = l1 /\ filter f h2 = l2.
Proof.
  revert l1. induction l as [|x l IH]; intros l1 H; simpl in H.
  - destruct l1; discriminate.
  - destruct (f x) eqn:Fx.
    + destruct l1 as [|y l1]; simpl in H.
      * injection H as -> <-. exists [], l. repeat split.
      * injection H as -> H. destruct (IH _ H) as (h1 & h2 & E & E1 & E2).
        exists (y :: h1), h2. subst l. simpl. rewrite Fx, E1.
        repeat split. exact E2.
    + destruct (IH _ H) as (h1 & h2 & E & E1 & E2).
      exists (x :: h1), h2. subst l. simpl. rewrite Fx.
      repeat split; assumption.
Qed.

(** The head of the sort is the first element of the list that no later
    element precedes. *)
Lemma sortHead_first {A : Type} (cmp : A -> A -> Z) (l : list A) (r : A) :
  sortHead cmp l = Some r ->
  exists l1 l2 : list A,
    l = l1 ++ r :: l2 /\ Forall (fun x => (0 < cmp x r)%Z) l1.
Proof.
  revert r. induction l as [|x l IH]; intros r H; simpl in H; [discriminate|].
  destruct (sortHead cmp l) as [h|] eqn:E.
  - destruct (cmp x h <=? 0)%Z eqn:C.
    + injection H as <-. exists [], l. split; [reflexivity | constructor].
    + injection H as <-. destruct (IH h eq_refl) as (l1 & l2 & El & Hall).
      exists (x :: l1), l2. subst l. split; [reflexivity|].
      constructor; [|exact Hall]. apply Z.leb_gt in C. exact C.
  - injection H as <-. apply MatcherFacts.sortHead_none in E. subst l.
    exists [], []. split; [reflexivity | constructor].
Qed.

Section Matcher.
Variable Date_parse : string -> option Z.

Lemma candidates_passes (current : StoreRecord) (curStart : Z)
  (history : list StoreRecord) :
  filter (similarDistance (safeNum (distance_m (activity current))))
    (filter (inWindow Date_parse (curStart - fortnight_ms)
               (curStart - week_ms))
       (filter (sameType (type (activity current)))
          (filter (otherId current) history)))
  = filter (passes Date_parse current curStart) history.
Proof.
  rewrite !LedgerMoreFacts.filter_filter_and. apply filter_ext.
  intro x. unfold passes. now rewrite !andb_assoc.
Qed.

Lemma passes_iff (current : StoreRecord) (curStart : Z) (r : StoreRecord) :
  passes Date_parse current curStart r = true
  <-> eligible Date_parse current curStart r.
Proof.
  unfold passes, eligible. rewrite !andb_true_iff.
  rewrite MatcherFacts.otherId_iff, MatcherFacts.inWindow_iff,
    MatcherFacts.similarDistance_iff.
  unfold sameType, sameTypeP. rewrite MatcherFacts.option_eqb_string.
  tauto.
Qed.

End Matcher.

(** X21.  Ties go to the earlier record: every passing record that stands
    before the returned one in the history started strictly earlier than
    it.  With the maximality of its start time, the returned record is the
    first, in history order, of the passing records with the latest
    start. *)
Theorem pickComparableLastWeek_first_of_latest
  (Date_parse : string -> option Z) (now : Z) (current : StoreRecord)
  (history : list StoreRecord) (curStart : Z) (r : StoreRecord) :
  startTime Date_parse (activity current) now = Some curStart ->
  pickComparableLastWeek Date_parse now current history = Some r ->
  exists before after : list StoreRecord,
    history = before ++ r :: after
    /\ forall (x : StoreRecord) (dt dx : Z),
         In x before ->
         eligible Date_parse current curStart x ->
         startOf Date_parse r = Some dt ->
         startOf Date_parse x = Some dx ->
         (dx < dt)%Z.
Proof.
  intros E H. unfold pickComparableLastWeek in H. rewrite E in H.
  cbv zeta in H. rewrite MatcherFacts.Array_sort_head in H.
  rewrite candidates_passes in H.
  destruct (sortHead_first _ _ _ H) as (l1 & l2 & El & Hall).
  destruct (filter_split_inv _ _ _ _ _ El) as (h1 & h2 & Eh & E1 & _).
  exists h1, h2. split; [exact Eh|].
  intros x dt dx Hin Hel Hdt Hdx.
  assert (Hx : In x l1).
  { rewrite <- E1. apply filter_In. split; [exact Hin|].
    now apply passes_iff. }
  rewrite Forall_forall in Hall. specialize (Hall x Hx).
  unfold newestFirst in Hall. unfold startOf in Hdt, Hdx.
  rewrite Hdx, Hdt in Hall. lia.
Qed.

Lemma pickComparableLastWeek_first_of_latest_witness :
  exists before after : list StoreRecord,
    [ runAt 30 "2024-03-09T07:00:00Z" 10000;
      runAt 10 "2024-03-10T07:00:00Z" 9000;
      runAt 20 "2024-03-10T07:00:00Z" 11000 ]
    = before ++ runAt 10 "2024-03-10T07:00:00Z" 9000 :: after
    /\ forall (x : StoreRecord) (dt dx : Z),
         In x before ->
         eligible isoDate currentRun 1710918000000 x ->
         startOf isoDate (runAt 10 "2024-03-10T07:00:00Z" 9000) = Some dt ->
         startOf isoDate x = Some dx ->
         (dx < dt)%Z.
Proof.
  apply (pickComparableLastWeek_first_of_latest isoDate 0 currentRun).
  - reflexivity.
  - vm_compute. reflexivity.
Defined.

End MatcherMoreFacts.

(* ================================================================== *)
(** * Further properties of the delta engine *)
(* ================================================================== *)

Module DeltaMoreFacts.
Import Formatters StreamAnalysis Store MatcherSpec StoreMoreSpec.

Lemma diff_opposite (x y : option Q) : opposite (diff x y) (diff y x).
Proof.
  destruct x as [a|], y as [b|]; simpl; try exact I. ring.
Qed.

Lemma Qdiv_positive (a b : Q) : 0 < a -> 0 < b -> 0 < a / b.
Proof.
  intros Ha Hb. unfold Qdiv. apply Qmult_lt_0_compat; [exact Ha|].
  now apply Qinv_lt_0_compat.
Qed.

Lemma guard_positive (d t : Q) :
  Qeq_bool d 0 || Qeq_bool t 0 || Qle_bool d 0 || Qle_bool t 0 = false ->
  0 < d /\ 0 < t.
Proof.
  intro H. apply orb_false_iff in H. destruct H as [H Ht].
  apply orb_false_iff in H. destruct H as [_ Hd].
  split; apply Qnot_le_lt; intro L; apply Qle_bool_iff in L; congruence.
Qed.

Lemma avgPaceSecPerKm_positive (d t : jsval) (p : Q) :
  avgPaceSecPerKm d t = Some p -> 0 < p.
Proof.
  unfold avgPaceSecPerKm.
  destruct (safeNum d) as [x|]; [|discriminate].
  destruct (safeNum t) as [y|]; [|discriminate].
  destruct (_ || _) eqn:G; [discriminate|].
  intro E. injection E as <-. apply guard_positive in G.
  now apply Qdiv_positive.
Qed.

Lemma avgSpeedKmh_positive (d t : jsval) (v : Q) :
  avgSpeedKmh d t = Some v -> 0 < v.
Proof.
  unfold avgSpeedKmh.
  destruct (safeNum d) as [x|]; [|discriminate].
  destruct (safeNum t) as [y|]; [|discriminate].
  destruct (_ || _) eqn:G; [discriminate|].
  intro E. injection E as <-. apply guard_positive in G.
  unfold msToKmh. apply Qmult_lt_0_compat; [|reflexivity].
  now apply Qdiv_positive.
Qed.

(** The relative delta of two values of which the older, when present, is
    positive is there exactly when the absolute delta is. *)
Lemma pct_with_diff (x y : option Q) :
  (forall b : Q, y = Some b -> 0 < b) ->
  (pct x y = None <-> diff x y = None).
Proof.
  intro Hy. destruct x as [a|], y as [b|]; simpl; try tauto.
  destruct (Qeq_bool b 0) eqn:E.
  - apply Qeq_bool_iff in E. specialize (Hy b eq_refl).
    rewrite E in Hy. discriminate.
  - split; discriminate.
Qed.

(** X23.  [compareCurrentVsPrev] answers [null] without a prior record.
    With one, the comparison identifies it and is expressed in one unit
    only: in pace mode both speed deltas are missing, in speed mode both
    pace deltas; and the relative pace or speed delta is present exactly
    when the absolute one is. *)
Theorem compareCurrentVsPrev_one_unit (current prev : StoreRecord) :
  compareCurrentVsPrev current None = None
  /\ exists c : Comparison.t,
       compareCurrentVsPrev current (Some prev) = Some c
       /\ Comparison.prev_activity_id c = id (activity prev)
       /\ (Comparison.mode c = Pace ->
           Delta.avg_speed_kmh (Comparison.delta c) = None
           /\ Delta.avg_speed_pct (Comparison.delta c) = None)
       /\ (Comparison.mode c = Speed ->
           Delta.avg_pace_sec_per_km (Comparison.delta c) = None
           /\ Delta.avg_pace_pct (Comparison.delta c) = None)
       /\ (Delta.avg_pace_pct (Comparison.delta c) = None
           <-> Delta.avg_pace_sec_per_km (Comparison.delta c) = None)
       /\ (Delta.avg_speed_pct (Comparison.delta c) = None
           <-> Delta.avg_speed_kmh (Comparison.delta c) = None).
Proof.
  split; [reflexivity|].
  unfold compareCurrentVsPrev. eexists. split; [reflexivity|].
  cbn [Comparison.prev_activity_id Comparison.mode Comparison.delta
       Delta.avg_speed_kmh Delta.avg_speed_pct Delta.avg_pace_sec_per_km
       Delta.avg_pace_pct].
  split; [reflexivity|].
  destruct (isPaceBased (type (activity current))
              (sport_type (activity current))); cbn [negb].
  - split; [intros _; split; reflexivity|].
    split; [discriminate|].
    split; [|split; reflexivity].
    apply pct_with_diff. intros b Hb.
    now apply avgPaceSecPerKm_positive in Hb.
  - split; [discriminate|].
    split; [intros _; split; reflexivity|].
    split; [split; reflexivity|].
    apply pct_with_diff. intros b Hb.
    now apply avgSpeedKmh_positive in Hb.
Qed.

(** X24.  Swapping the two records negates the deltas: for any two
    records the distance, time, elevation, heart-rate and power deltas of
    [prev] against [current] are the opposites of those of [current]
    against [prev]; when both records are of the same kind (both
    pace-based or both not) the two comparisons also share their mode and
    the pace and speed deltas are opposites too. *)
Theorem compareCurrentVsPrev_swap (a b : StoreRecord) :
  exists c1 c2 : Comparison.t,
    compareCurrentVsPrev a (Some b) = Some c1
    /\ compareCurrentVsPrev b (Some a) = Some c2
    /\ opposite (Delta.distance_m (Comparison.delta c1))
         (Delta.distance_m (Comparison.delta c2))
    /\ opposite (Delta.moving_time_s (Comparison.delta c1))
         (Delta.moving_time_s (Comparison.delta c2))
    /\ opposite (Delta.elevation_gain_m (Comparison.delta c1))
         (Delta.elevation_gain_m (Comparison.delta c2))
    /\ opposite (Delta.hr_avg (Comparison.delta c1))
         (Delta.hr_avg (Comparison.delta c2))
    /\ opposite (Delta.hr_max (Comparison.delta c1))
         (Delta.hr_max (Comparison.delta c2))
    /\ opposite (Delta.power_avg_w (Comparison.delta c1))
         (Delta.power_avg_w (Comparison.delta c2))
    /\ (isPaceBased (type (activity a)) (sport_type (activity a))
        = isPaceBased (type (activity b)) (sport_type (activity b)) ->
        Comparison.mode c1 = Comparison.mode c2
        /\ opposite (Delta.avg_pace_sec_per_km (Comparison.delta c1))
             (Delta.avg_pace_sec_per_km (Comparison.delta c2))
        /\ opposite (Delta.avg_speed_kmh (Comparison.delta c1))
             (Delta.avg_speed_kmh (Comparison.delta c2))).
Proof.
  unfold compareCurrentVsPrev.
  eexists. eexists. split; [reflexivity|]. split; [reflexivity|].
  cbn [Comparison.mode Comparison.delta Delta.distance_m Delta.moving_time_s
       Delta.elevation_gain_m Delta.avg_pace_sec_per_km Delta.avg_speed_kmh
       Delta.hr_avg Delta.hr_max Delta.power_avg_w].
  do 6 (split; [apply diff_opposite|]).
  intro H. rewrite H. split; [reflexivity|].
  split; apply diff_opposite.
Qed.

Lemma compareCurrentVsPrev_swap_witness :
  exists c1 c2 : Comparison.t,
    compareCurrentVsPrev (runOf 2 "2024-03-11T07:00:00Z" 10000 3600)
      (Some (runOf 1 "2024-03-02T07:00:00Z" 9000 3660)) = Some c1
    /\ compareCurrentVsPrev (runOf 1 "2024-03-02T07:00:00Z" 9000 3660)
         (Some (runOf 2 "2024-03-11T07:00:00Z" 10000 3600)) = Some c2
    /\ opposite (Delta.distance_m (Comparison.delta c1))
         (Delta.distance_m (Comparison.delta c2))
    /\ Comparison.mode c1 = Comparison.mode c2
    /\ opposite (Delta.avg_pace_sec_per_km (Comparison.delta c1))
         (Delta.avg_pace_sec_per_km (Comparison.delta c2))
    /\ opposite (Delta.avg_speed_kmh (Comparison.delta c1))
         (Delta.avg_speed_kmh (Comparison.delta c2)).
Proof.
  destruct (compareCurrentVsPrev_swap
              (runOf 2 "2024-03-11T07:00:00Z" 10000 3600)
              (runOf 1 "2024-03-02T07:00:00Z" 9000 3660))
    as (c1 & c2 & E1 & E2 & Hd & _ & _ & _ & _ & _ & Hsame).
  exists c1, c2. split; [exact E1|]. split; [exact E2|].
  split; [exact Hd|]. apply Hsame. reflexivity.
Defined.

End DeltaMoreFacts.

(* ================================================================== *)
(** * The pacing classifier in binary64 *)
(* ================================================================== *)

Module PacingFacts64.
Import Binary64 StreamAnalysis64 PacingSpec64.

Lemma fold_pace_add (l : list Split) (acc : float) :
  fold_left (fun a b => add a (paceOf b)) l acc
  = fold_left add (map paceOf l) acc.
Proof.
  revert acc. induction l as [|s l IH]; intro acc; simpl; [reflexivity|].
  apply IH.
Qed.

Lemma avgPace_meanPace (l : list Split) : avgPace l = meanPace l.
Proof. unfold avgPace, meanPace. now rewrite fold_pace_add. Qed.

(** The verdict of [pacingInsight] once four valid splits are present, in
    terms of the difference of the two half means. *)
Lemma pacingInsight_verdict (l : list Split) :
  (4 <= List.length (filter validPace l))%nat ->
  let valid := filter validPace l in
  let mid := (List.length valid / 2)%nat in
  let diff := sub (meanPace (skipn mid valid)) (meanPace (firstn mid valid)) in
  pacingInsight l
  = if ltb (abs diff) (of_Z 5) then Some StreamAnalysis.Stable
    else if ltb diff zero then Some StreamAnalysis.NegativeSplit
    else Some StreamAnalysis.Fade.
Proof.
  intros H valid mid diff. unfold pacingInsight.
  pose proof (PacingFacts.filter_length_le validPace l) as Hle.
  assert (E1 : (List.length l <? 4)%nat = false) by (apply Nat.ltb_ge; lia).
  assert (E2 : (List.length (filter validPace l) <? 4)%nat = false)
    by (apply Nat.ltb_ge; lia).
  rewrite E1, E2. rewrite PacingFacts.slice_0. unfold slice_from.
  rewrite !avgPace_meanPace. reflexivity.
Qed.

Lemma pacingInsight_needs_four (l : list Split) :
  (List.length (filter validPace l) < 4)%nat -> pacingInsight l = None.
Proof.
  intro H. unfold pacingInsight.
  destruct (List.length l <? 4)%nat; [reflexivity|].
  apply Nat.ltb_lt in H. now rewrite H.
Qed.

(** A number is below zero, above zero, a zero or NaN; a zero is within
    any positive bound. *)
Lemma sign_cases (d : float) :
  ltb (abs d) (of_Z 5) = true \/ ltb d zero = true \/ ltb zero d = true
  \/ d = nan.
Proof.
  destruct d as [s|s| |s m e].
  - left. reflexivity.
  - right. destruct s; [left | right; left]; reflexivity.
  - right. right. right. reflexivity.
  - right. destruct s; [left | right; left]; reflexivity.
Qed.

Lemma above_zero_not_below (d : float) :
  ltb zero d = true -> ltb d zero = false.
Proof.
  destruct d as [s|s| |s m e]; try destruct s; try discriminate; reflexivity.
Qed.

(** At least 5 below zero: outside the stable band and negative. *)
Lemma at_most_minus_five (d : float) :
  leb d (of_Z (-5)) = true
  <-> ltb (abs d) (of_Z 5) = false /\ ltb d zero = true.
Proof.
  change (of_Z (-5)) with (S754_finite true 5629499534213120 (-50)).
  change (of_Z 5) with (S754_finite false 5629499534213120 (-50)).
  unfold leb, ltb, abs, zero, SFleb, SFltb, SFabs.
  destruct d as [s|s| |s m e].
  - unfold SFcompare. split; [destruct s; discriminate|].
    intros [H _]. discriminate H.
  - unfold SFcompare.
    destruct s; split; try discriminate; try (intros [_ H]; discriminate H);
      try reflexivity; intro; split; reflexivity.
  - unfold SFcompare. split; [discriminate | intros [_ H]; discriminate H].
  - destruct s.
    + unfold SFcompare.
      destruct (e ?= -50)%Z;
        [destruct (Pos.compare_cont Eq m 5629499534213120)| |];
        unfold CompOpp; split; try discriminate; try reflexivity;
        try (intros [H _]; discriminate H); intro; split; reflexivity.
    + unfold SFcompare. split; [discriminate | intros [_ H]; discriminate H].
Qed.

(** At least 5 above zero, or not a number: outside the stable band and
    not negative. *)
Lemma at_least_five (d : float) :
  leb (of_Z 5) d = true \/ d = nan
  <-> ltb (abs d) (of_Z 5) = false /\ ltb d zero = false.
Proof.
  change (of_Z 5) with (S754_finite false 5629499534213120 (-50)).
  unfold leb, ltb, abs, zero, nan, SFleb, SFltb, SFabs.
  destruct d as [s|s| |s m e].
  - unfold SFcompare. split; [intros [H | H]; discriminate H|].
    intros [H _]. discriminate H.
  - unfold SFcompare.
    destruct s; split; try (intros [H | H]; discriminate H);
      try (intros [_ H]; discriminate H);
      try (intro; split; reflexivity); intro; left; reflexivity.
  - unfold SFcompare. split; [intro; split; reflexivity|].
    intro. right. reflexivity.
  - destruct s.
    + unfold SFcompare. split; [intros [H | H]; discriminate H|].
      intros [_ H]. discriminate H.
    + unfold SFcompare.
      assert (Hc : Pos.compare_cont Eq 5629499534213120 m
                   = CompOpp (Pos.compare_cont Eq m 5629499534213120))
        by (symmetry; apply (Pos.compare_cont_antisym m 5629499534213120 Eq)).
      rewrite (Z.compare_antisym e (-50)), Hc.
      destruct (e ?= -50)%Z;
        [destruct (Pos.compare_cont Eq m 5629499534213120)| |];
        unfold CompOpp; split; try (intros [H | H]; discriminate H);
        try (intros [H _]; discriminate H);
        try (intro; split; reflexivity); intro; left; reflexivity.
Qed.

Lemma four_valid (s1 s2 s3 s4 : Split) (p1 p2 p3 p4 : float) :
  secPerKm s1 = Number p1 -> secPerKm s2 = Number p2 ->
  secPerKm s3 = Number p3 -> secPerKm s4 = Number p4 ->
  isFinite p1 = true -> isFinite p2 = true ->
  isFinite p3 = true -> isFinite p4 = true ->
  filter validPace [s1; s2; s3; s4] = [s1; s2; s3; s4]
  /\ sub (meanPace [s3; s4]) (meanPace [s1; s2]) = halfDiff p1 p2 p3 p4.
Proof.
  intros H1 H2 H3 H4 F1 F2 F3 F4. split.
  - cbn [filter]. unfold validPace, Number_isFinite.
    now rewrite H1, H2, H3, H4, F1, F2, F3, F4.
  - unfold meanPace, halfDiff, paceOf. cbn [map fold_left List.length].
    now rewrite H1, H2, H3, H4.
Qed.

(** C8.  With at least four splits of finite pace, [pacingInsight] keeps
    the valid-pace splits, cuts that list at the floor of half its length,
    takes the mean pace of each half and the difference second minus
    first, all in the arithmetic of the program, and answers: stable when
    the absolute difference is under 5 (checked first), else negative
    split for a negative difference and fade for a positive one.  The only
    other case is a difference that is not a number, which the program
    also answers with fade. *)
Theorem pacingInsight_classification (l : list Split) :
  (4 <= List.length (filter validPace l))%nat ->
  let valid := filter validPace l in
  let mid := (List.length valid / 2)%nat in
  let diff := sub (meanPace (skipn mid valid)) (meanPace (firstn mid valid)) in
  (ltb (abs diff) (of_Z 5) = true ->
   pacingInsight l = Some StreamAnalysis.Stable)
  /\ (ltb (abs diff) (of_Z 5) = false -> ltb diff zero = true ->
      pacingInsight l = Some StreamAnalysis.NegativeSplit)
  /\ (ltb (abs diff) (of_Z 5) = false -> ltb zero diff = true ->
      pacingInsight l = Some StreamAnalysis.Fade)
  /\ (ltb (abs diff) (of_Z 5) = true \/ ltb diff zero = true
      \/ ltb zero diff = true
      \/ (diff = nan /\ pacingInsight l = Some StreamAnalysis.Fade)).
Proof.
  intros H valid mid diff.
  pose proof (pacingInsight_verdict l H) as E. cbv zeta in E.
  fold valid mid diff in E. rewrite E. clear E.
  split; [intro Ea; now rewrite Ea|].
  split; [intros Ea Eb; now rewrite Ea, Eb|].
  split.
  - intros Ea Eb. now rewrite Ea, (above_zero_not_below diff Eb).
  - destruct (sign_cases diff) as [Hc | [Hc | [Hc | Hc]]]; auto.
    right. right. right. split; [exact Hc|]. rewrite Hc. reflexivity.
Qed.

Lemma pacingInsight_classification_witness :
  pacingInsight
    (map (paceSplit 1)
       [Number (of_Z 291); Null; Number (of_Z 299); paceFor 298 10100;
        paceFor 308 10100])
  = Some StreamAnalysis.Fade.
Proof.
  apply (pacingInsight_classification
           (map (paceSplit 1)
              [Number (of_Z 291); Null; Number (of_Z 299); paceFor 298 10100;
               paceFor 308 10100])).
  - vm_compute. lia.
  - vm_compute. reflexivity.
  - vm_compute. reflexivity.
Defined.

(** C3 (amended).  [pacingInsight] gives no verdict when fewer than four
    splits have a finite pace.  For exactly four splits of finite pace,
    strictly decreasing or not, the verdict is negative split exactly when
    the half-mean difference, in the arithmetic of the program, is at most
    -5, stable exactly when its absolute value is under 5, and fade
    exactly when it is at least 5 or not a number. *)
Theorem pacingInsight_few_or_four :
  (forall l : list Split,
      (List.length (filter validPace l) < 4)%nat -> pacingInsight l = None)
  /\ (forall (s1 s2 s3 s4 : Split) (p1 p2 p3 p4 : float),
         secPerKm s1 = Number p1 -> secPerKm s2 = Number p2 ->
         secPerKm s3 = Number p3 -> secPerKm s4 = Number p4 ->
         isFinite p1 = true -> isFinite p2 = true ->
         isFinite p3 = true -> isFinite p4 = true ->
         let diff := halfDiff p1 p2 p3 p4 in
         (leb diff (of_Z (-5)) = true
          <-> pacingInsight [s1; s2; s3; s4] = Some StreamAnalysis.NegativeSplit)
         /\ (ltb (abs diff) (of_Z 5) = true
             <-> pacingInsight [s1; s2; s3; s4] = Some StreamAnalysis.Stable)
         /\ (leb (of_Z 5) diff = true \/ diff = nan
             <-> pacingInsight [s1; s2; s3; s4] = Some StreamAnalysis.Fade)).
Proof.
  split; [exact pacingInsight_needs_four|].
  intros s1 s2 s3 s4 p1 p2 p3 p4 H1 H2 H3 H4 F1 F2 F3 F4 diff.
  destruct (four_valid s1 s2 s3 s4 p1 p2 p3 p4 H1 H2 H3 H4 F1 F2 F3 F4)
    as [Hf Hd].
  fold diff in Hd.
  assert (Hlen : (4 <= List.length (filter validPace [s1; s2; s3; s4]))%nat)
    by (rewrite Hf; simpl; lia).
  pose proof (pacingInsight_verdict _ Hlen) as E. cbv zeta in E.
  rewrite Hf in E. cbn [List.length Nat.div Nat.divmod fst skipn firstn] in E.
  rewrite Hd in E. rewrite E. clear E.
  rewrite at_most_minus_five, at_least_five.
  destruct (ltb (abs diff) (of_Z 5)); destruct (ltb diff zero);
    (split; [|split]); split; try discriminate; try reflexivity;
    try (intros [A B]; discriminate); try (intro; split; reflexivity).
Qed.

Lemma pacingInsight_few_or_four_witness :
  pacingInsight
    (map (paceSplit 1)
       [Number (of_Z 330); Null; Number (of_Z 320); Number (of_Z 310)])
  = None
  /\ pacingInsight
       (map (paceSplit 1)
          [paceFor 318 10000; paceFor 317 10000; paceFor 315 10048;
           paceFor 313 10048])
     = Some StreamAnalysis.NegativeSplit
  /\ pacingInsight
       (map (paceSplit 1)
          [Number (of_Z 300); Number (of_Z 299); Number (of_Z 298);
           Number (of_Z 297)])
     = Some StreamAnalysis.Stable.
Proof.
  destruct pacingInsight_few_or_four as [Hfew Hfour].
  split; [|split].
  - apply Hfew. vm_compute. lia.
  - apply (Hfour (paceSplit 1 (paceFor 318 10000))
             (paceSplit 1 (paceFor 317 10000))
             (paceSplit 1 (paceFor 315 10048))
             (paceSplit 1 (paceFor 313 10048)) _ _ _ _
             eq_refl eq_refl eq_refl eq_refl); vm_compute; reflexivity.
  - apply (Hfour (paceSplit 1 (Number (of_Z 300)))
             (paceSplit 1 (Number (of_Z 299)))
             (paceSplit 1 (Number (of_Z 298)))
             (paceSplit 1 (Number (of_Z 297))) _ _ _ _
             eq_refl eq_refl eq_refl eq_refl); vm_compute; reflexivity.
Defined.

(** C3 as stated fails: four strictly decreasing paces whose half means
    differ by less than 5 are classified as stable. *)
Lemma pacingInsight_four_decreasing_counterexample :
  ~ (forall (s1 s2 s3 s4 : Split) (p1 p2 p3 p4 : float),
        secPerKm s1 = Number p1 -> secPerKm s2 = Number p2 ->
        secPerKm s3 = Number p3 -> secPerKm s4 = Number p4 ->
        isFinite p1 = true -> isFinite p2 = true ->
        isFinite p3 = true -> isFinite p4 = true ->
        ltb p2 p1 = true -> ltb p3 p2 = true -> ltb p4 p3 = true ->
        pacingInsight [s1; s2; s3; s4] = Some StreamAnalysis.NegativeSplit).
Proof.
  intro H.
  assert (E : pacingInsight
                [paceSplit 1 (Number (of_Z 300));
                 paceSplit 2 (Number (of_Z 299));
                 paceSplit 3 (Number (of_Z 298));
                 paceSplit 4 (Number (of_Z 297))]
              = Some StreamAnalysis.NegativeSplit).
  { apply (H _ _ _ _ (of_Z 300) (of_Z 299) (of_Z 298) (of_Z 297));
      reflexivity. }
  vm_compute in E. discriminate E.
Qed.

End PacingFacts64.

(* ================================================================== *)
(** * The segmenter in binary64 *)
(* ================================================================== *)

Module SplitsFacts64.
Import Binary64 StreamAnalysis64 SplitsSpec64.

(** Along a chain of intervals the exact lengths telescope. *)
Lemma chained_telescope (f : nat -> Q) (bs : list (nat * nat)) (from : nat) :
  SplitsSpec.chained from bs ->
  sumQ (map (fun b => f (snd b) - f (fst b)) bs)
  == f (SplitsSpec.lastClose from bs) - f from.
Proof.
  revert from. induction bs as [|[s c] bs IH]; intros from H.
  - cbn. unfold sumQ. cbn. lra.
  - cbn [SplitsSpec.chained] in H. destruct H as [-> H].
    cbn [map SplitsSpec.lastClose fst snd].
    rewrite StatsFacts.sumQ_cons, (IH c H). lra.
Qed.

Section Loop.
Variables (dist time : list float) (hr watts : option (list value))
  (mode : StreamAnalysis.Mode).

Lemma loopRun_step (n : nat) :
  loopRun dist time hr watts mode (S n)
  = loopStep dist time hr watts mode (loopRun dist time hr watts mode n) n.
Proof.
  unfold loopRun. rewrite seq_S, fold_left_app. reflexivity.
Qed.

Lemma traceRun_step (n : nat) :
  traceRun dist (S n) = traceStep dist (traceRun dist n) n.
Proof.
  unfold traceRun. rewrite seq_S, fold_left_app. reflexivity.
Qed.

(** The instrumented loop follows the loop: same threshold, same opening
    index, and the splits are the traced pairs closed by [closeSplit]. *)
Lemma trace_follows (n : nat) :
  nextKm (loopRun dist time hr watts mode n) = t_nextKm (traceRun dist n)
  /\ startIdx (loopRun dist time hr watts mode n)
     = t_startIdx (traceRun dist n)
  /\ splits (loopRun dist time hr watts mode n)
     = SplitsSpec.imap
         (fun k b => closeSplit dist time hr watts mode k (fst b) (snd b))
         0 (t_bounds (traceRun dist n)).
Proof.
  induction n as [|n (Hk & Hs & Hsp)].
  - repeat split.
  - rewrite loopRun_step, traceRun_step. unfold loopStep, traceStep.
    rewrite <- Hk.
    destruct (leb (nextKm (loopRun dist time hr watts mode n))
                (at_index dist n)); simpl.
    + rewrite Hk, Hs. repeat split.
      rewrite SplitsFacts.imap_snoc. simpl. rewrite Hsp at 1.
      now rewrite Hsp, SplitsFacts.imap_length.
    + auto.
Qed.

(** The traced pairs form a chain from sample 0 to the current opening
    index, inside the iterations done so far. *)
Lemma trace_chained (n : nat) :
  SplitsSpec.chained 0 (t_bounds (traceRun dist n))
  /\ t_startIdx (traceRun dist n)
     = SplitsSpec.lastClose 0 (t_bounds (traceRun dist n))
  /\ Forall (fun b => (fst b <= snd b < n)%nat) (t_bounds (traceRun dist n))
  /\ (t_startIdx (traceRun dist n) <= n - 1)%nat.
Proof.
  induction n as [|n (Hc & Hl & Hf & Hi)].
  - simpl. repeat split; auto.
  - rewrite traceRun_step. unfold traceStep.
    destruct (leb _ _); simpl.
    + repeat split.
      * now apply SplitsFacts.chained_snoc.
      * now rewrite SplitsFacts.lastClose_snoc.
      * apply Forall_app. split.
        -- eapply Forall_impl; [|exact Hf]. simpl. intros b Hb. lia.
        -- constructor; [simpl; lia | constructor].
      * lia.
    + repeat split; auto.
      * eapply Forall_impl; [|exact Hf]. simpl. intros b Hb. lia.
      * lia.
Qed.

Lemma imap_meters_sub (bs : list (nat * nat)) (k : nat) :
  map meters
    (SplitsSpec.imap
       (fun k b => closeSplit dist time hr watts mode k (fst b) (snd b))
       k bs)
  = map (fun b => sub (at_index dist (snd b)) (at_index dist (fst b))) bs.
Proof.
  revert k. induction bs as [|b bs IH]; intro k; simpl; [reflexivity|].
  now rewrite IH.
Qed.

Lemma imap_seconds_sub (bs : list (nat * nat)) (k : nat) :
  map seconds
    (SplitsSpec.imap
       (fun k b => closeSplit dist time hr watts mode k (fst b) (snd b))
       k bs)
  = map (fun b => sub (at_index time (snd b)) (at_index time (fst b))) bs.
Proof.
  revert k. induction bs as [|b bs IH]; intro k; simpl; [reflexivity|].
  now rewrite IH.
Qed.
End Loop.

Lemma computeSplits1km_loop (dist time : list float)
  (hr watts : option (list value)) (mode : StreamAnalysis.Mode) :
  List.length dist = List.length time ->
  computeSplits1km (streamsOf dist time hr watts) mode
  = splits (loopRun dist time hr watts mode (List.length dist)).
Proof.
  intro H. unfold computeSplits1km, streamsOf. simpl.
  apply Nat.eqb_eq in H. now rewrite H.
Qed.

(** C10 (amended).  On every valid input the emitted splits are
    boundary-adjacent: split [k+1] opens at the sample index where split
    [k] closed (the first opens at sample 0) and every boundary is a
    sample index.  The [meters] field of a split is the difference of the
    distance samples at its two boundaries as the program subtracts them,
    and its [seconds] field that of the time samples.  The intervals tile
    the samples from 0 to [iN], the closing index of the last split, so
    their exact lengths sum to [dist[iN] - dist[0]] and
    [time[iN] - time[0]]; the fields are these lengths each rounded. *)
Theorem computeSplits1km_boundary_adjacent (dist time : list float)
  (hr watts : option (list value)) (mode : StreamAnalysis.Mode) :
  List.length dist = List.length time ->
  let sp := computeSplits1km (streamsOf dist time hr watts) mode in
  let bs := splitBounds dist in
  map meters sp
  = map (fun b => sub (at_index dist (snd b)) (at_index dist (fst b))) bs
  /\ map seconds sp
     = map (fun b => sub (at_index time (snd b)) (at_index time (fst b))) bs
  /\ SplitsSpec.chained 0 bs
  /\ Forall (fun b => (fst b <= snd b < List.length dist)%nat) bs
  /\ sumQ (map (exactSpan dist) bs)
     == toQ (at_index dist (SplitsSpec.lastClose 0 bs))
        - toQ (at_index dist 0)
  /\ sumQ (map (exactSpan time) bs)
     == toQ (at_index time (SplitsSpec.lastClose 0 bs))
        - toQ (at_index time 0).
Proof.
  intros Hlen sp bs. subst sp bs.
  rewrite (computeSplits1km_loop _ _ _ _ _ Hlen). unfold splitBounds.
  destruct (trace_follows dist time hr watts mode (List.length dist))
    as (_ & _ & Hsp).
  destruct (trace_chained dist (List.length dist)) as (Hc & Hl & Hf & _).
  rewrite Hsp, imap_meters_sub, imap_seconds_sub.
  split; [reflexivity|]. split; [reflexivity|].
  split; [exact Hc|]. split; [exact Hf|].
  split.
  - apply (chained_telescope (fun i => toQ (at_index dist i))). exact Hc.
  - apply (chained_telescope (fun i => toQ (at_index time i))). exact Hc.
Qed.

Lemma computeSplits1km_boundary_adjacent_witness :
  let dist := tenths [24; 5000; 10013; 15000; 20007; 24000]%Z in
  let time := map of_Z [0; 150; 300; 450; 600; 720]%Z in
  let sp := computeSplits1km (streamsOf dist time None None)
              StreamAnalysis.Pace in
  splitBounds dist = [(0, 2); (2, 4)]%nat
  /\ map meters sp
     = [sub (decimal 10013 10) (decimal 24 10);
        sub (decimal 20007 10) (decimal 10013 10)]
  /\ map seconds sp = [of_Z 300; of_Z 300]
  /\ sumQ (map (exactSpan dist) (splitBounds dist))
     == toQ (decimal 20007 10) - toQ (decimal 24 10).
Proof.
  intros dist time sp.
  destruct (computeSplits1km_boundary_adjacent dist time None None
              StreamAnalysis.Pace eq_refl) as (Hm & Hs & _ & _ & Hd & _).
  split; [reflexivity|].
  split; [exact Hm|].
  split; [unfold sp; rewrite Hs; reflexivity | exact Hd].
Defined.

(** C10 as stated fails: for the distance samples 2.4, 500.0, 1001.3,
    1500.0 and 2000.7 the two [meters] fields are 998.9 and
    999.4000000000001, which add up neither exactly nor as the program
    adds them to [dist[4] - dist[0]]. *)
Lemma computeSplits1km_boundary_adjacent_counterexample :
  let dist := tenths [24; 5000; 10013; 15000; 20007]%Z in
  let time := map of_Z [0; 150; 300; 450; 600]%Z in
  let sp := computeSplits1km (streamsOf dist time None None)
              StreamAnalysis.Pace in
  SplitsSpec.lastClose 0 (splitBounds dist) = 4%nat
  /\ ~ sumQ (map toQ (map meters sp))
       == toQ (at_index dist 4) - toQ (at_index dist 0)
  /\ ~ sumQ (map toQ (map meters sp))
       == toQ (sub (at_index dist 4) (at_index dist 0))
  /\ total (map meters sp) <> sub (at_index dist 4) (at_index dist 0).
Proof.
  intros dist time sp. split; [reflexivity|].
  split; [|split].
  - intro H. apply Qeq_bool_iff in H. vm_compute in H. discriminate H.
  - intro H. apply Qeq_bool_iff in H. vm_compute in H. discriminate H.
  - intro H. vm_compute in H. discriminate H.
Qed.

End SplitsFacts64.

(* ================================================================== *)
(** * The historical match in binary64 *)
(* ================================================================== *)

Module MatcherFacts64.
Import Binary64 Store64 MatcherSpec64.

Lemma positive_iff (d : float) : leb d zero = false <-> ltb zero d = true \/ d = nan.
Proof.
  destruct d as [s|s| |s m e]; try destruct s; cbn; split;
    try discriminate; try reflexivity; try (intros [H | H]; discriminate);
    try (intro; left; reflexivity); try (intro; right; reflexivity).
Qed.

Lemma safeNum_finite (v : value) (d : float) :
  safeNum v = Some d -> isFinite d = true.
Proof.
  destruct v as [| |x|s]; try discriminate. simpl.
  destruct (isFinite x) eqn:E; [|discriminate].
  intro H. injection H as <-. exact E.
Qed.

Section Matcher.
Variable Date_parse : string -> option Z.

Lemma otherId_spec (current r : StoreRecord) :
  otherId current r = true <-> otherIdP current r.
Proof.
  unfold otherId, otherIdP. destruct (id (activity r)) as [i|].
  - rewrite andb_true_iff, !negb_true_iff. split.
    + intros [Hz Hne]. exists i. repeat split.
      * intro E. subst i. discriminate Hz.
      * intro E. apply MatcherFacts.option_eqb_Z in E. congruence.
    + intros (j & Ej & Hz & Hne). inversion Ej. subst j. split.
      * now apply Z.eqb_neq.
      * destruct (Store.option_eqb Z.eqb (Some i) (id (activity current)))
          eqn:E; [|reflexivity].
        apply MatcherFacts.option_eqb_Z in E. contradiction.
  - split; [discriminate|]. intros (j & Ej & _). discriminate.
Qed.

Lemma inWindow_spec (curStart : Z) (r : StoreRecord) :
  inWindow Date_parse (curStart - Store.fortnight_ms)
    (curStart - Store.week_ms) r = true
  <-> inWindowP Date_parse curStart r.
Proof.
  unfold inWindow, inWindowP.
  destruct (startTime Date_parse (activity r) 0) as [dt|].
  - rewrite andb_true_iff, !Z.leb_le. split.
    + intro H. exists dt. split; [reflexivity | exact H].
    + intros (dt' & E & H). inversion E. now subst.
  - split; [discriminate|]. intros (dt' & E & _). discriminate.
Qed.

Lemma similarDistance_spec (current r : StoreRecord) :
  similarDistance (safeNum (distance_m (activity current))) r = true
  <-> similarDistanceP current r.
Proof.
  unfold similarDistance, similarDistanceP.
  destruct (safeNum (distance_m (activity current))) as [c|].
  - destruct (safeNum (distance_m (activity r))) as [d|] eqn:Ed.
    + destruct (leb d zero) eqn:Ez.
      * split; [discriminate|]. intro H.
        destruct (H c eq_refl) as (d' & E & Hpos & _). inversion E. subst d'.
        assert (Hn : leb d zero = false)
          by (apply positive_iff; now left).
        congruence.
      * split.
        -- intros H c' E. inversion E. subst c'. exists d.
           split; [reflexivity|]. split; [|exact H].
           apply positive_iff in Ez. destruct Ez as [Ez | Ez]; [exact Ez|].
           apply safeNum_finite in Ed. rewrite Ez in Ed. discriminate Ed.
        -- intro H. destruct (H c eq_refl) as (d' & E & _ & Hle).
           inversion E. now subst.
    + split; [discriminate|]. intro H.
      destruct (H c eq_refl) as (d' & E & _). discriminate.
  - split; [|reflexivity]. intros _ c E. discriminate.
Qed.

Lemma candidates_one_filter (current : StoreRecord) (curStart : Z)
  (history : list StoreRecord) :
  filter (similarDistance (safeNum (distance_m (activity current))))
    (filter (inWindow Date_parse (curStart - Store.fortnight_ms)
               (curStart - Store.week_ms))
       (filter (sameType (type (activity current)))
          (filter (otherId current) history)))
  = filter (passes Date_parse current curStart) history.
Proof.
  rewrite !LedgerMoreFacts.filter_filter_and. apply filter_ext.
  intro x. unfold passes. now rewrite !andb_assoc.
Qed.

Lemma passes_spec (current : StoreRecord) (curStart : Z) (r : StoreRecord) :
  passes Date_parse current curStart r = true
  <-> eligible Date_parse current curStart r.
Proof.
  unfold passes, eligible. rewrite !andb_true_iff.
  rewrite otherId_spec, inWindow_spec, similarDistance_spec.
  unfold sameType, sameTypeP. rewrite MatcherFacts.option_eqb_string.
  tauto.
Qed.

Lemma passes_false (current : StoreRecord) (curStart : Z) (r : StoreRecord) :
  passes Date_parse current curStart r = false ->
  ~ eligible Date_parse current curStart r.
Proof.
  intros H Hel. apply passes_spec in Hel. congruence.
Qed.

(** On records with a valid start time, the sort puts a record of the
    latest start time first. *)
Lemma sortHead_latest (l : list StoreRecord) (r : StoreRecord) :
  Forall (fun x => startOf Date_parse x <> None) l ->
  MatcherSpec.sortHead (newestFirst Date_parse) l = Some r ->
  In r l
  /\ forall (r' : StoreRecord) (dt dt' : Z),
       In r' l -> startOf Date_parse r = Some dt ->
       startOf Date_parse r' = Some dt' ->
       (dt' <= dt)%Z.
Proof.
  revert r. induction l as [|x l IH]; intros r Hall H; [discriminate|].
  inversion Hall as [|? ? Hx Hl]; subst. simpl in H.
  destruct (MatcherSpec.sortHead (newestFirst Date_parse) l) as [h|] eqn:Eh.
  - destruct (IH h Hl eq_refl) as [Hin Hmax].
    assert (Hh : startOf Date_parse h <> None).
    { rewrite Forall_forall in Hl. now apply Hl. }
    unfold newestFirst in H. unfold startOf in Hx, Hh.
    destruct (startTime Date_parse (activity x) 0) as [tx|] eqn:Ex;
      [|contradiction].
    destruct (startTime Date_parse (activity h) 0) as [th|] eqn:Eth;
      [|contradiction].
    destruct (th - tx <=? 0)%Z eqn:Ec; inversion H; subst r.
    + apply Z.leb_le in Ec. split; [now left|].
      intros r' dt dt' [E | Hr'] Hdt Hdt'.
      * subst r'. unfold startOf in *.
        assert (dt = dt') by congruence. lia.
      * unfold startOf in Hdt. rewrite Ex in Hdt. inversion Hdt. subst dt.
        specialize (Hmax r' th dt' Hr' Eth Hdt'). lia.
    + apply Z.leb_gt in Ec. split; [now right|].
      intros r' dt dt' [E | Hr'] Hdt Hdt'.
      * subst r'. unfold startOf in *. rewrite Eth in Hdt. rewrite Ex in Hdt'.
        inversion Hdt. inversion Hdt'. lia.
      * now apply (Hmax r' dt dt').
  - apply MatcherFacts.sortHead_none in Eh. subst l. inversion H. subst r.
    split; [now left|].
    intros r' dt dt' [E | []] Hdt Hdt'. subst r'.
    unfold startOf in *. rewrite Hdt in Hdt'. inversion Hdt'. lia.
Qed.
End Matcher.

(** C4.  [pickComparableLastWeek] answers [null] when the start
    timestamp of the current record does not parse.  Otherwise the record
    it returns is a history record with another (present, non-zero)
    identifier, the same type, a start timestamp that parses and lies in
    [[start - 14 days, start - 7 days]] and, only when the current distance
    is known, a positive distance whose relative deviation from the
    current one, as the program computes it, is at most the number 0.2; no
    passing record started later than the returned one, and the answer is
    [null] exactly when no history record passes. *)
Theorem pickComparableLastWeek_selects (Date_parse : string -> option Z)
  (now : Z) (current : StoreRecord) (history : list StoreRecord) :
  (startTime Date_parse (activity current) now = None ->
   pickComparableLastWeek Date_parse now current history = None)
  /\ (forall curStart : Z,
         startTime Date_parse (activity current) now = Some curStart ->
         (forall r : StoreRecord,
             pickComparableLastWeek Date_parse now current history = Some r ->
             In r history
             /\ eligible Date_parse current curStart r
             /\ (forall (r' : StoreRecord) (dt dt' : Z),
                    In r' history ->
                    eligible Date_parse current curStart r' ->
                    startTime Date_parse (activity r) 0 = Some dt ->
                    startTime Date_parse (activity r') 0 = Some dt' ->
                    (dt' <= dt)%Z))
         /\ (pickComparableLastWeek Date_parse now current history = None
             <-> forall r : StoreRecord,
                   In r history -> ~ eligible Date_parse current curStart r)).
Proof.
  unfold pickComparableLastWeek. split.
  - intro E. now rewrite E.
  - intros curStart E. rewrite E. cbv zeta.
    rewrite MatcherFacts.Array_sort_head, candidates_one_filter.
    set (cands := filter _ _).
    assert (Hc : forall r, In r cands
                           <-> In r history
                               /\ eligible Date_parse current curStart r).
    { intro r. unfold cands. rewrite filter_In, passes_spec. tauto. }
    assert (Hvalid : Forall
                       (fun x => startTime Date_parse (activity x) 0 <> None)
                       cands).
    { apply Forall_forall. intros x Hx. apply Hc in Hx.
      destruct Hx as (_ & _ & _ & (dt & Edt & _) & _). congruence. }
    split.
    + intros r Hr.
      destruct (sortHead_latest Date_parse cands r Hvalid Hr) as [Hin Hmax].
      apply Hc in Hin. destruct Hin as [Hin Hel].
      split; [exact Hin|]. split; [exact Hel|].
      intros r' dt dt' Hin' Hel' Hdt Hdt'.
      apply (Hmax r' dt dt'); try assumption. apply Hc. now split.
    + rewrite MatcherFacts.sortHead_none. split.
      * intros Hnil r Hin Hel.
        assert (Hr : In r cands) by (apply Hc; now split).
        rewrite Hnil in Hr. exact Hr.
      * intro Hnone. destruct cands as [|x l]; [reflexivity|]. exfalso.
        assert (Hx : In x (x :: l)) by now left.
        apply Hc in Hx. destruct Hx as [Hin Hel]. exact (Hnone x Hin Hel).
Qed.

Lemma pickComparableLastWeek_selects_witness :
  pickComparableLastWeek MatcherSpec.isoDate 0 currentRun pastRuns
  = Some (runAt 20 "2024-03-10T07:00:00Z" 40016)
  /\ In (runAt 20 "2024-03-10T07:00:00Z" 40016) pastRuns
  /\ eligible MatcherSpec.isoDate currentRun 1710918000000
       (runAt 20 "2024-03-10T07:00:00Z" 40016).
Proof.
  assert (E : pickComparableLastWeek MatcherSpec.isoDate 0 currentRun pastRuns
              = Some (runAt 20 "2024-03-10T07:00:00Z" 40016))
    by (vm_compute; reflexivity).
  split; [exact E|].
  destruct (pickComparableLastWeek_selects MatcherSpec.isoDate 0 currentRun
              pastRuns) as [_ H].
  destruct (H 1710918000000%Z eq_refl) as [Hsome _].
  destruct (Hsome _ E) as (Hin & Hel & _).
  split; assumption.
Defined.

(** X22.  A history record that fails a condition has no influence:
    removing it from the history leaves the result of
    [pickComparableLastWeek] unchanged. *)
Theorem pickComparableLastWeek_skips_ineligible
  (Date_parse : string -> option Z) (now : Z) (current : StoreRecord)
  (before after : list StoreRecord) (x : StoreRecord) (curStart : Z) :
  startTime Date_parse (activity current) now = Some curStart ->
  ~ eligible Date_parse current curStart x ->
  pickComparableLastWeek Date_parse now current (before ++ x :: after)
  = pickComparableLastWeek Date_parse now current (before ++ after).
Proof.
  intros E H. unfold pickComparableLastWeek. rewrite E. cbv zeta.
  rewrite !candidates_one_filter, !filter_app. cbn [filter].
  destruct (passes Date_parse current curStart x) eqn:P; [|reflexivity].
  exfalso. apply H. now apply passes_spec.
Qed.

Lemma pickComparableLastWeek_skips_ineligible_witness :
  pickComparableLastWeek MatcherSpec.isoDate 0 currentRun
    ([runAt 10 "2024-03-08T07:00:00Z" 45000]
     ++ runAt 40 "2024-03-11T07:00:00Z" 40015
     :: [runAt 20 "2024-03-10T07:00:00Z" 40016])
  = pickComparableLastWeek MatcherSpec.isoDate 0 currentRun
      ([runAt 10 "2024-03-08T07:00:00Z" 45000]
       ++ [runAt 20 "2024-03-10T07:00:00Z" 40016]).
Proof.
  apply (pickComparableLastWeek_skips_ineligible MatcherSpec.isoDate 0
           currentRun _ _ _ 1710918000000).
  - reflexivity.
  - apply passes_false. vm_compute. reflexivity.
Defined.

End MatcherFacts64.
